(** * LocalDB.js: a shallow embedding of the query engine

    The engine of [src/localdb.js] works on statement text with JavaScript
    string primitives and regular expressions, on rows that are JavaScript
    objects, and on [localStorage].  The embedding follows that layering:

    - [JsString]: the string primitives the engine calls;
    - [RegExp]: a backtracking matcher with the priority order of the
      ECMAScript matcher, and a reader of the regular-expression syntax, so
      that every regular expression below is the text found in the source;
    - [JsValue], [JsObject]: values with their coercions, objects with
      ordered own keys;
    - [LocalDB]: the class, method by method, in a state-and-exception monad;
    - [Example]: the databases of the README and of the examples below.

    Modelling boundaries, all explicit in the definitions:
    - text is 8-bit ([ascii]); white space is the ASCII white space, letter
      case is ASCII letter case;
    - numbers are the integers ([Z]); numeric literals are optionally signed
      decimal integers (fractions, exponents, hexadecimal and [Infinity] are
      outside the embedding and stay text);
    - the reader of regular expressions covers the syntax the source uses;
      a pattern outside it, built at run time by [LIKE] or by the
      correlation step, gives the outcome [Beyond];
    - recursion through statement text (subqueries, UNION branches, derived
      tables) is bounded by fuel; exhausted fuel also gives [Beyond];
    - the schema in memory is an object: a [LocalDB] constructed on a row
      array under the key of the schema lists no table, and what it writes
      of the tables created afterwards is outside the embedding;
    - table and column names are assumed not to name members of
      [Object.prototype]; the grouping keys of [groupBy], which are made of
      the values of the rows, are read through the prototype as the engine
      reads them ([JsObject.inherited]). *)

From stdpp Require Import base gmap strings list.
From Stdlib Require Import ZArith Lia DecimalString Sorted Ascii String.
From Stdlib Require DecimalPos.

Local Open Scope string_scope.
Local Open Scope Z_scope.
Local Open Scope nat_scope.

(** ** JavaScript string primitives *)

Module JsString.

Definition code (c : ascii) : nat := nat_of_ascii c.

(** White space of [\s] and [trim], restricted to ASCII. *)
Definition is_space (c : ascii) : bool :=
  let n := code c in
  (n =? 9) || (n =? 10) || (n =? 11) || (n =? 12) || (n =? 13) || (n =? 32).

Definition is_line_terminator (c : ascii) : bool :=
  let n := code c in (n =? 10) || (n =? 13).

Definition is_digit (c : ascii) : bool :=
  let n := code c in (48 <=? n) && (n <=? 57).

Definition is_upper (c : ascii) : bool :=
  let n := code c in (65 <=? n) && (n <=? 90).

Definition is_lower (c : ascii) : bool :=
  let n := code c in (97 <=? n) && (n <=? 122).

(** The class [\w]. *)
Definition is_word (c : ascii) : bool :=
  is_digit c || is_upper c || is_lower c || (code c =? 95).

Definition upper (c : ascii) : ascii :=
  if is_lower c then ascii_of_nat (code c - 32) else c.

Definition lower (c : ascii) : ascii :=
  if is_upper c then ascii_of_nat (code c + 32) else c.

Fixpoint map_chars (f : ascii -> ascii) (s : string) : string :=
  match s with
  | EmptyString => EmptyString
  | String c s' => String (f c) (map_chars f s')
  end.

Definition toUpperCase : string -> string := map_chars upper.
Definition toLowerCase : string -> string := map_chars lower.

Fixpoint trimStart (s : string) : string :=
  match s with
  | String c s' => if is_space c then trimStart s' else s
  | EmptyString => EmptyString
  end.

(** [trimEnd]: a white-space character is kept only when something that
    is kept follows it. *)
Fixpoint trimEnd (s : string) : string :=
  match s with
  | EmptyString => EmptyString
  | String c s' =>
      match trimEnd s' with
      | EmptyString => if is_space c then EmptyString else String c EmptyString
      | t => String c t
      end
  end.

Definition trim (s : string) : string := trimEnd (trimStart s).

Fixpoint startsWith (s p : string) : bool :=
  match p, s with
  | EmptyString, _ => true
  | String a p', String b s' => if Ascii.eqb a b then startsWith s' p' else false
  | String _ _, EmptyString => false
  end.

Fixpoint drop (n : nat) (s : string) : string :=
  match n, s with
  | O, _ => s
  | S n', String _ s' => drop n' s'
  | S _, EmptyString => EmptyString
  end.

Fixpoint take (n : nat) (s : string) : string :=
  match n, s with
  | O, _ => EmptyString
  | S n', String c s' => String c (take n' s')
  | S _, EmptyString => EmptyString
  end.

(** [s.substring(i, j)] for [i <= j]. *)
Definition substring (i j : nat) (s : string) : string := take (j - i) (drop i s).

Definition endsWith (s p : string) : bool :=
  let n := String.length s in
  let m := String.length p in
  (m <=? n) && String.eqb (drop (n - m) s) p.

(** [s.slice(1, -1)]. *)
Definition slice_1_m1 (s : string) : string :=
  substring 1 (String.length s - 1) s.

(** [s.indexOf(p)]: the first position at which [p] occurs. *)
Fixpoint indexOf (p s : string) : option nat :=
  if startsWith s p then Some 0
  else match s with
       | EmptyString => None
       | String _ s' => option_map S (indexOf p s')
       end.

Definition includes (s p : string) : bool :=
  match indexOf p s with Some _ => true | None => false end.

(** [s.split(sep)] for a separator that is not empty: the pieces between
    the successive occurrences of [sep].  [fuel] bounds the number of
    pieces and is the length of [s] plus one. *)
Fixpoint split_fuel (fuel : nat) (sep s : string) : list string :=
  match fuel with
  | O => [s]
  | S fuel' =>
      match indexOf sep s with
      | None => [s]
      | Some i => take i s :: split_fuel fuel' sep (drop (i + String.length sep) s)
      end
  end.

Definition split (sep s : string) : list string :=
  split_fuel (S (String.length s)) sep s.

(** [xs.join(sep)] on strings. *)
Fixpoint join (sep : string) (xs : list string) : string :=
  match xs with
  | [] => EmptyString
  | [x] => x
  | x :: rest => x ++ sep ++ join sep rest
  end.

End JsString.

(** ** Regular expressions *)

Module RegExp.
Import JsString.

Inductive cls := ClsSpace | ClsWord | ClsDigit.

Inductive regex :=
| Empty
| Chr (c : ascii)
| Any
| Cls (k : cls)
| Seq (r1 r2 : regex)
| Alt (r1 r2 : regex)
| Star (greedy : bool) (r : regex)
| Plus (greedy : bool) (r : regex)
| Opt (greedy : bool) (r : regex)
| Group (n : nat) (r : regex)
| Look (r : regex)
| Bol
| Eol
| WordB.

(** *** Reading the syntax

    The reader covers: literal characters, [.], the classes [\s \w \d],
    escaped syntax characters, [^ $ \b], the quantifiers [* + ?] and their
    lazy forms, capturing and non-capturing groups, the lookahead [(?=...)]
    and alternation.  Groups are numbered from 1 by their opening
    parenthesis.  Everything else (and every syntax error) is [None]. *)

Definition is_syntax_char (c : ascii) : bool :=
  existsb (Ascii.eqb c)
    ["^"; "$"; "\"; "."; "*"; "+"; "?"; "("; ")"; "["; "]"; "{"; "}"; "|"]%char.

Definition escape (c : ascii) : option regex :=
  if Ascii.eqb c "s" then Some (Cls ClsSpace)
  else if Ascii.eqb c "w" then Some (Cls ClsWord)
  else if Ascii.eqb c "d" then Some (Cls ClsDigit)
  else if is_syntax_char c || Ascii.eqb c "/" then Some (Chr c)
  else None.

Definition is_quantifier_char (c : ascii) : bool :=
  existsb (Ascii.eqb c) ["*"; "+"; "?"; "{"]%char.

(** An atom followed by its optional quantifier; a second quantifier is a
    syntax error. *)
Definition quantified (a : regex) (s : string) : option (regex * string) :=
  let after (q : regex) (s' : string) :=
    match s' with
    | String c _ => if is_quantifier_char c then None else Some (q, s')
    | EmptyString => Some (q, s')
    end in
  match s with
  | String "*" (String "?" s') => after (Star false a) s'
  | String "*" s' => after (Star true a) s'
  | String "+" (String "?" s') => after (Plus false a) s'
  | String "+" s' => after (Plus true a) s'
  | String "?" (String "?" s') => after (Opt false a) s'
  | String "?" s' => after (Opt true a) s'
  | String "{" _ => None
  | _ => Some (a, s)
  end.

Definition presult : Type := option (regex * string * nat).

Definition with_quantifier (a : regex) (s : string) (g : nat) : presult :=
  match quantified a s with
  | Some (r, s') => Some (r, s', g)
  | None => None
  end.

Fixpoint parse_disjunction (fuel : nat) (s : string) (g : nat) : presult :=
  match fuel with
  | O => None
  | S f =>
      match parse_alternative f s g with
      | Some (r1, String "|" s', g') =>
          match parse_disjunction f s' g' with
          | Some (r2, s'', g'') => Some (Alt r1 r2, s'', g'')
          | None => None
          end
      | other => other
      end
  end
with parse_alternative (fuel : nat) (s : string) (g : nat) : presult :=
  match fuel with
  | O => None
  | S f =>
      match s with
      | EmptyString => Some (Empty, s, g)
      | String "|" _ => Some (Empty, s, g)
      | String ")" _ => Some (Empty, s, g)
      | _ =>
          match parse_term f s g with
          | Some (r1, s', g') =>
              match parse_alternative f s' g' with
              | Some (Empty, s'', g'') => Some (r1, s'', g'')
              | Some (r2, s'', g'') => Some (Seq r1 r2, s'', g'')
              | None => None
              end
          | None => None
          end
      end
  end
with parse_term (fuel : nat) (s : string) (g : nat) : presult :=
  match fuel with
  | O => None
  | S f =>
      match s with
      | EmptyString => None
      | String "^" s' => Some (Bol, s', g)
      | String "$" s' => Some (Eol, s', g)
      | String "\" (String "b" s') => Some (WordB, s', g)
      | String "\" (String c s') =>
          match escape c with
          | Some a => with_quantifier a s' g
          | None => None
          end
      | String "(" (String "?" (String "=" s')) =>
          match parse_disjunction f s' g with
          | Some (r, String ")" s'', g') => Some (Look r, s'', g')
          | _ => None
          end
      | String "(" (String "?" (String ":" s')) =>
          match parse_disjunction f s' g with
          | Some (r, String ")" s'', g') => with_quantifier r s'' g'
          | _ => None
          end
      | String "(" (String "?" _) => None
      | String "(" s' =>
          match parse_disjunction f s' (S g) with
          | Some (r, String ")" s'', g') => with_quantifier (Group g r) s'' g'
          | _ => None
          end
      | String "." s' => with_quantifier Any s' g
      | String c s' =>
          if is_syntax_char c then None else with_quantifier (Chr c) s' g
      end
  end.

(** A compiled expression: the syntax tree, the number of capturing
    groups, and the flag [i]. *)
Record t := Re { tree : regex; groups : nat; ignoreCase : bool }.

Definition compile (src : string) (icase : bool) : option t :=
  match parse_disjunction (4 * String.length src + 4) src 1 with
  | Some (r, EmptyString, g) => Some (Re r (g - 1) icase)
  | _ => None
  end.

(** A regular-expression literal of the source: [lit "a\s+b" true] is
    [/a\s+b/i].  Every literal of the source is in the syntax read above;
    the fallback never matches. *)
Definition never : t := Re (Seq Eol Any) 0 false.

Definition lit (src : string) (icase : bool) : t :=
  match compile src icase with Some r => r | None => never end.

(** *** Matching

    The matcher is in continuation-passing style: [run r st k] tries the
    ways [r] can match at [st] in the priority order of the ECMAScript
    backtracking matcher and gives the first one that [k] accepts.  (The
    groups inside a repetition are not reset at each turn: no expression
    of the source repeats a group that captures, and no expression refers
    back to a group.) *)

Record mstate := MState {
  pos : nat;                          (* index of the next character *)
  prev : option ascii;                (* the character before it *)
  rest : string;                      (* the text from [pos] on *)
  caps : list (option (nat * nat))    (* group n at index n: start, end *)
}.

Definition advance (st : mstate) (c : ascii) (rest' : string) : mstate :=
  MState (S (pos st)) (Some c) rest' (caps st).

Definition in_cls (k : cls) (c : ascii) : bool :=
  match k with
  | ClsSpace => is_space c
  | ClsWord => is_word c
  | ClsDigit => is_digit c
  end.

Definition same_char (icase : bool) (a b : ascii) : bool :=
  if icase then Ascii.eqb (upper a) (upper b) else Ascii.eqb a b.

Definition step_char (p : ascii -> bool) (st : mstate)
    (k : mstate -> option mstate) : option mstate :=
  match rest st with
  | String c rest' => if p c then k (advance st c rest') else None
  | EmptyString => None
  end.

Definition at_word_boundary (st : mstate) : bool :=
  let a := match prev st with Some c => is_word c | None => false end in
  let b := match rest st with String c _ => is_word c | EmptyString => false end in
  xorb a b.

(** The repetition of [step]: every further iteration has to consume
    input, so [n], the length of the remaining text, bounds their number. *)
Fixpoint repeat_match (step : mstate -> (mstate -> option mstate) -> option mstate)
    (greedy : bool) (n : nat) (st : mstate) (k : mstate -> option mstate)
    : option mstate :=
  match n with
  | O => k st
  | S n' =>
      let again (_ : unit) :=
        step st (fun st' =>
          if pos st' =? pos st then None
          else repeat_match step greedy n' st' k) in
      if greedy then
        match again tt with Some r => Some r | None => k st end
      else
        match k st with Some r => Some r | None => again tt end
  end.

Fixpoint run (icase : bool) (r : regex) (st : mstate)
    (k : mstate -> option mstate) {struct r} : option mstate :=
  match r with
  | Empty => k st
  | Chr c => step_char (same_char icase c) st k
  | Any => step_char (fun c => negb (is_line_terminator c)) st k
  | Cls c => step_char (in_cls c) st k
  | Seq r1 r2 => run icase r1 st (fun st' => run icase r2 st' k)
  | Alt r1 r2 =>
      match run icase r1 st k with
      | Some res => Some res
      | None => run icase r2 st k
      end
  | Star greedy r1 =>
      repeat_match (run icase r1) greedy (String.length (rest st)) st k
  | Plus greedy r1 =>
      run icase r1 st (fun st' =>
        repeat_match (run icase r1) greedy (String.length (rest st')) st' k)
  | Opt greedy r1 =>
      let once (_ : unit) :=
        run icase r1 st (fun st' => if pos st' =? pos st then None else k st') in
      if greedy then
        match once tt with Some res => Some res | None => k st end
      else
        match k st with Some res => Some res | None => once tt end
  | Group n r1 =>
      run icase r1 st (fun st' =>
        k (MState (pos st') (prev st') (rest st')
                  (<[n := Some (pos st, pos st')]> (caps st'))))
  | Look r1 =>
      match run icase r1 st Some with
      | Some st' => k (MState (pos st) (prev st) (rest st) (caps st'))
      | None => None
      end
  | Bol => if pos st =? 0 then k st else None
  | Eol => match rest st with EmptyString => k st | _ => None end
  | WordB => if at_word_boundary st then k st else None
  end.

(** The result of a match, as the array [exec] returns: [index], the end
    of the match, and the groups, the whole match at index 0. *)
Record result := Result {
  index : nat;
  lastIndex : nat;
  captures : list (option string)
}.

Definition result_of (s : string) (start : nat) (st : mstate) : result :=
  Result start (pos st)
    (Some (substring start (pos st) s)
     :: map (fun c : option (nat * nat) =>
               match c with
               | Some (i, j) => Some (substring i j s)
               | None => None
               end) (tail (caps st))).

Definition start_state (re : t) (p : nat) (before : option ascii)
    (text : string) : mstate :=
  MState p before text (replicate (S (groups re)) None).

(** A match that starts exactly at position [p], [text] being [s] from
    [p] on. *)
Definition match_here (re : t) (s : string) (p : nat) (before : option ascii)
    (text : string) : option result :=
  match run (ignoreCase re) (tree re) (start_state re p before text) Some with
  | Some st => Some (result_of s p st)
  | None => None
  end.

(** The leftmost match at or after [p]. *)
Fixpoint search (re : t) (s : string) (p : nat) (before : option ascii)
    (text : string) : option result :=
  match match_here re s p before text with
  | Some r => Some r
  | None =>
      match text with
      | EmptyString => None
      | String c text' => search re s (S p) (Some c) text'
      end
  end.

Definition last_char (s : string) : option ascii :=
  match String.length s with
  | O => None
  | S n => String.get n s
  end.

(** [re.exec(s)] with [lastIndex = p]. *)
Definition exec_from (re : t) (s : string) (p : nat) : option result :=
  search re s p (last_char (take p s)) (drop p s).

(** [s.match(re)] for an expression without the flag [g]. *)
Definition exec (re : t) (s : string) : option result := exec_from re s 0.

Definition test (re : t) (s : string) : bool :=
  match exec re s with Some _ => true | None => false end.

(** The groups of [s.match(re)], or [None] for [null]. *)
Definition match_groups (re : t) (s : string) : option (list (option string)) :=
  option_map captures (exec re s).

(** *** [GetSubstitution]

    The replacement text of [replace]: [$$], [$&], [$`], [$'] and the group
    references [$n] and [$nn] are expanded; [m], the number of groups, is
    the length of [caps]. *)

Definition digit_value (c : ascii) : nat := code c - 48.

Definition group_text (caps : list (option string)) (i : nat) : string :=
  match caps !! (i - 1) with
  | Some (Some s) => s
  | _ => EmptyString
  end.

Fixpoint getSubstitution (matched str : string) (position : nat)
    (caps : list (option string)) (template : string) : string :=
  let m := List.length caps in
  match template with
  | EmptyString => EmptyString
  | String "$" t =>
      match t with
      | String "$" t' => String "$" (getSubstitution matched str position caps t')
      | String "&" t' => matched ++ getSubstitution matched str position caps t'
      | String "`" t' =>
          take position str ++ getSubstitution matched str position caps t'
      | String "'" t' =>
          drop (position + String.length matched) str
          ++ getSubstitution matched str position caps t'
      | String d1 t' =>
          if is_digit d1 then
            let one (_ : unit) :=
              let i := digit_value d1 in
              if (1 <=? i) && (i <=? m)
              then group_text caps i ++ getSubstitution matched str position caps t'
              else String "$" (String d1 (getSubstitution matched str position caps t')) in
            match t' with
            | String d2 t'' =>
                if is_digit d2 then
                  let i := 10 * digit_value d1 + digit_value d2 in
                  if m <? i then one tt
                  else if 1 <=? i
                  then group_text caps i ++ getSubstitution matched str position caps t''
                  else String "$" (String d1 (String d2
                         (getSubstitution matched str position caps t'')))
                else one tt
            | EmptyString => one tt
            end
          else String "$" (getSubstitution matched str position caps t)
      | EmptyString => String "$" EmptyString
      end
  | String c t => String c (getSubstitution matched str position caps t)
  end.

(** [s.replace(pattern, replacement)] for a pattern that is a string: the
    first occurrence only. *)
Definition replace_string (pattern replacement s : string) : string :=
  match indexOf pattern s with
  | None => s
  | Some i =>
      take i s
      ++ getSubstitution pattern s i [] replacement
      ++ drop (i + String.length pattern) s
  end.

Definition substitution (s : string) (r : result) (replacement : string) : string :=
  getSubstitution (substring (index r) (lastIndex r) s) s (index r)
    (tail (captures r)) replacement.

(** [s.replace(re, replacement)] without the flag [g]. *)
Definition replace_first (re : t) (replacement s : string) : string :=
  match exec re s with
  | None => s
  | Some r =>
      take (index r) s ++ substitution s r replacement ++ drop (lastIndex r) s
  end.

(** [s.replace(re, replacement)] with the flag [g]: [done] is the end of
    the previous match, [p] the position of the next attempt (one further
    after an empty match). *)
Fixpoint replace_all_from (fuel : nat) (re : t) (replacement s : string)
    (done p : nat) : string :=
  match fuel with
  | O => drop done s
  | S fuel' =>
      if String.length s <? p then drop done s
      else
        match exec_from re s p with
        | None => drop done s
        | Some r =>
            substring done (index r) s ++ substitution s r replacement
            ++ replace_all_from fuel' re replacement s (lastIndex r)
                 (if lastIndex r =? index r then S (lastIndex r) else lastIndex r)
        end
  end.

Definition replace_all (re : t) (replacement s : string) : string :=
  replace_all_from (S (String.length s)) re replacement s 0 0.

(** [s.split(re)]: [p] is the end of the previous separator, [q] the
    position tried next, [text] the string from [q] on.  The groups of
    each separator are spliced into the result; none of the expressions
    the source splits by has a group that can stay unset. *)
Fixpoint split_from (fuel : nat) (re : t) (s : string) (p q : nat) : list string :=
  match fuel with
  | O => [drop p s]
  | S fuel' =>
      if String.length s <=? q then [drop p s]
      else
        match match_here re s q (last_char (take q s)) (drop q s) with
        | None => split_from fuel' re s p (S q)
        | Some r =>
            let e := Nat.min (lastIndex r) (String.length s) in
            if e =? p then split_from fuel' re s p (S q)
            else
              substring p q s
              :: map (default EmptyString) (tail (captures r))
              ++ split_from fuel' re s e e
        end
  end.

Definition split (re : t) (s : string) : list string :=
  match s with
  | EmptyString =>
      match exec re s with Some _ => [] | None => [s] end
  | _ => split_from (2 * String.length s + 2) re s 0 0
  end.

End RegExp.

(** ** Values and their coercions *)

Module JsValue.
Import JsString.

(** What a field of a row can hold; [VUndefined] is also what reading an
    absent field gives. *)
Inductive value :=
| VUndefined
| VNull
| VNum (z : Z)
| VStr (s : string).

Definition value_eqb (a b : value) : bool :=
  match a, b with
  | VUndefined, VUndefined => true
  | VNull, VNull => true
  | VNum x, VNum y => Z.eqb x y
  | VStr x, VStr y => String.eqb x y
  | _, _ => false
  end.

Fixpoint digits_value (acc : Z) (s : string) : option Z :=
  match s with
  | EmptyString => Some acc
  | String c s' =>
      if is_digit c
      then digits_value (10 * acc + Z.of_nat (code c - 48)) s'
      else None
  end.

Definition unsigned_literal (s : string) : option Z :=
  match s with
  | EmptyString => None
  | _ => digits_value 0 s
  end.

(** An optionally signed decimal integer literal. *)
Definition integer_literal (s : string) : option Z :=
  match s with
  | String "-" s' => option_map Z.opp (unsigned_literal s')
  | String "+" s' => unsigned_literal s'
  | _ => unsigned_literal s
  end.

(** [Number(s)] for a string; [None] is [NaN].  White space around the
    literal is ignored and the empty literal is 0. *)
Definition stringToNumber (s : string) : option Z :=
  match trim s with
  | EmptyString => Some 0%Z
  | t => integer_literal t
  end.

(** [ToNumber]. *)
Definition toNumber (v : value) : option Z :=
  match v with
  | VUndefined => None
  | VNull => Some 0%Z
  | VNum z => Some z
  | VStr s => stringToNumber s
  end.

Definition numberToString (z : Z) : string :=
  NilZero.string_of_int (Z.to_int z).

(** [String(v)]. *)
Definition toString (v : value) : string :=
  match v with
  | VUndefined => "undefined"
  | VNull => "null"
  | VNum z => numberToString z
  | VStr s => s
  end.

(** [ToBoolean]. *)
Definition truthy (v : value) : bool :=
  match v with
  | VUndefined => false
  | VNull => false
  | VNum z => negb (Z.eqb z 0)
  | VStr s => negb (String.eqb s EmptyString)
  end.

(** [a || b] on values. *)
Definition or_else (a b : value) : value := if truthy a then a else b.

(** [a == b]. *)
Definition loose_eq (a b : value) : bool :=
  match a, b with
  | VUndefined, VUndefined | VUndefined, VNull
  | VNull, VUndefined | VNull, VNull => true
  | VNum x, VNum y => Z.eqb x y
  | VStr x, VStr y => String.eqb x y
  | VNum x, VStr y =>
      match stringToNumber y with Some n => Z.eqb x n | None => false end
  | VStr x, VNum y =>
      match stringToNumber x with Some n => Z.eqb n y | None => false end
  | _, _ => false
  end.

(** The order of strings by character code. *)
Fixpoint string_lt (a b : string) : bool :=
  match a, b with
  | _, EmptyString => false
  | EmptyString, String _ _ => true
  | String x a', String y b' =>
      if code x <? code y then true
      else if code y <? code x then false
      else string_lt a' b'
  end.

(** [IsLessThan(a, b)]: [None] when a side is [NaN]. *)
Definition isLessThan (a b : value) : option bool :=
  match a, b with
  | VStr x, VStr y => Some (string_lt x y)
  | _, _ =>
      match toNumber a, toNumber b with
      | Some x, Some y => Some (Z.ltb x y)
      | _, _ => None
      end
  end.

Definition lt (a b : value) : bool := default false (isLessThan a b).
Definition gt (a b : value) : bool := default false (isLessThan b a).
Definition le (a b : value) : bool :=
  match isLessThan b a with Some false => true | _ => false end.
Definition ge (a b : value) : bool :=
  match isLessThan a b with Some false => true | _ => false end.

(** [xs.includes(v)]: [SameValueZero], no coercion. *)
Definition includes (xs : list value) (v : value) : bool :=
  existsb (value_eqb v) xs.

(** An element of an array under [join]: [undefined] and [null] are the
    empty string. *)
Definition join_element (v : value) : string :=
  match v with
  | VUndefined | VNull => EmptyString
  | _ => toString v
  end.

(** [xs.join(sep)] on values. *)
Definition join (sep : string) (xs : list value) : string :=
  JsString.join sep (map join_element xs).

Fixpoint leading_digits (s : string) : string :=
  match s with
  | String c s' => if is_digit c then String c (leading_digits s') else EmptyString
  | EmptyString => EmptyString
  end.

(** [parseInt(s)]: the leading optionally signed run of decimal digits
    after leading white space; [None] is [NaN].  (The prefix [0x] of a
    hexadecimal numeral is outside the embedding.) *)
Definition parseInt (s : string) : option Z :=
  match trimStart s with
  | String "-" s' => option_map Z.opp (unsigned_literal (leading_digits s'))
  | String "+" s' => unsigned_literal (leading_digits s')
  | t => unsigned_literal (leading_digits t)
  end.

(** [xs.slice(start, end)], [None] being [NaN]. *)
Definition slice {A} (start stop : option Z) (xs : list A) : list A :=
  let len := Z.of_nat (List.length xs) in
  let clamp (i : option Z) : Z :=
    match i with
    | None => 0%Z
    | Some z => if (z <? 0)%Z then Z.max (len + z) 0%Z else Z.min z len
    end in
  let k := clamp start in
  let final := clamp stop in
  firstn (Z.to_nat (final - k)) (skipn (Z.to_nat k) xs).

Definition add (a b : option Z) : option Z :=
  match a, b with
  | Some x, Some y => Some (x + y)%Z
  | _, _ => None
  end.

(** [xs.sort(comparefn)].  ECMAScript requires a stable sort: for a
    comparator that is a consistent order the result is in the order of
    the comparator, with the elements that tie in the order they had.
    That determines the result (see [sorted_stable_unique] below), and the
    embedding is the insertion sort that moves an element past those it
    must follow.  For a comparator that is not a consistent order
    ECMAScript leaves the result to the engine: what is proved of [sort]
    below assumes that the comparator is transitive on the elements. *)
Fixpoint sort_insert {A} (comparefn : A -> A -> Z) (x : A) (sorted : list A)
    : list A :=
  match sorted with
  | [] => [x]
  | y :: ys =>
      if (0 <? comparefn x y)%Z then y :: sort_insert comparefn x ys
      else x :: y :: ys
  end.

Definition sort {A} (comparefn : A -> A -> Z) (xs : list A) : list A :=
  foldr (sort_insert comparefn) [] xs.

(** [a] occurs in [l] at a position before one of [b]. *)
Definition occurs_before {A} (a b : A) (l : list A) : Prop :=
  exists l1 l2 l3, l = (l1 ++ a :: l2 ++ b :: l3)%list.

End JsValue.

(** ** Objects

    An object is the list of its own properties in the order
    [Object.keys] gives them: the keys that are array indices first, in
    ascending order, then the other keys in the order of their creation. *)

Module JsObject.
Import JsString JsValue.

Definition obj (A : Type) : Type := list (string * A).

(** The array index a key denotes, when it is the canonical decimal text
    of a number below 2^32 - 1. *)
Definition array_index (k : string) : option Z :=
  match unsigned_literal k with
  | Some n =>
      if String.eqb (numberToString n) k && (n <? 4294967295)%Z
      then Some n else None
  | None => None
  end.

Fixpoint get {A} (o : obj A) (k : string) : option A :=
  match o with
  | [] => None
  | (k', v) :: o' => if String.eqb k' k then Some v else get o' k
  end.

Definition has {A} (o : obj A) (k : string) : bool :=
  match get o k with Some _ => true | None => false end.

Fixpoint replace {A} (o : obj A) (k : string) (v : A) : obj A :=
  match o with
  | [] => []
  | (k', v') :: o' =>
      if String.eqb k' k then (k', v) :: o' else (k', v') :: replace o' k v
  end.

(** A new index key goes before the first key that is not an index or is
    a larger index. *)
Fixpoint insert_index {A} (o : obj A) (n : Z) (k : string) (v : A) : obj A :=
  match o with
  | [] => [(k, v)]
  | (k', v') :: o' =>
      match array_index k' with
      | Some n' =>
          if (n' <? n)%Z then (k', v') :: insert_index o' n k v
          else (k, v) :: o
      | None => (k, v) :: o
      end
  end.

(** [o[k] = v]. *)
Definition set {A} (o : obj A) (k : string) (v : A) : obj A :=
  if has o k then replace o k v
  else match array_index k with
       | Some n => insert_index o n k v
       | None => (o ++ [(k, v)])%list
       end.

(** [delete o[k]]. *)
Definition remove {A} (o : obj A) (k : string) : obj A :=
  List.filter (fun p => negb (String.eqb (fst p) k)) o.

Definition keys {A} (o : obj A) : list string := map fst o.
Definition values {A} (o : obj A) : list A := map snd o.

(** The names that an object literal inherits from [Object.prototype]:
    reading [o[k]] for one of them gives the member of the prototype when
    [o] has no own property [k]. *)
Definition prototype_members : list string :=
  [ "constructor"; "hasOwnProperty"; "isPrototypeOf"; "propertyIsEnumerable";
    "toLocaleString"; "toString"; "valueOf"; "__proto__";
    "__defineGetter__"; "__defineSetter__"; "__lookupGetter__"; "__lookupSetter__" ].

Definition inherited (k : string) : bool :=
  existsb (String.eqb k) prototype_members.

(** A row, and the reading of one of its fields. *)
Definition row : Type := obj value.

Definition field (r : row) (k : string) : value := default VUndefined (get r k).

(** [Object.assign(target, source)]. *)
Definition assign (target source : row) : row :=
  fold_left (fun t p => set t (fst p) (snd p)) source target.

(** What [JSON.parse(JSON.stringify(r))] gives back: the fields that hold
    [undefined] are not written. *)
Definition json_row (r : row) : row :=
  List.filter (fun p => negb (value_eqb (snd p) VUndefined)) r.

Definition json_rows (rs : list row) : list row := map json_row rs.

(** [JSON.stringify] of a row. *)
Definition hex_digit (n : nat) : ascii :=
  if n <? 10 then ascii_of_nat (48 + n) else ascii_of_nat (87 + n).

Definition json_char (c : ascii) : string :=
  let n := code c in
  if n =? 34 then String "\" (String c EmptyString)
  else if n =? 92 then "\\"
  else if n =? 8 then "\b"
  else if n =? 9 then "\t"
  else if n =? 10 then "\n"
  else if n =? 12 then "\f"
  else if n =? 13 then "\r"
  else if n <? 32
  then "\u00" ++ String (hex_digit (n / 16)) (String (hex_digit (n mod 16)) EmptyString)
  else String c EmptyString.

Fixpoint json_escape (s : string) : string :=
  match s with
  | EmptyString => EmptyString
  | String c s' => json_char c ++ json_escape s'
  end.

Definition double_quote : ascii := ascii_of_nat 34.

Definition json_string (s : string) : string :=
  String double_quote (json_escape s ++ String double_quote EmptyString).

Definition json_value (v : value) : string :=
  match v with
  | VStr s => json_string s
  | VNum z => numberToString z
  | _ => "null"
  end.

Definition json_stringify (r : row) : string :=
  "{" ++ JsString.join ","
           (map (fun p => json_string (fst p) ++ ":" ++ json_value (snd p))
                (json_row r)) ++ "}".

End JsObject.

(** ** The class [LocalDB] *)

Module LocalDB.
Import JsString JsValue JsObject.

(** *** State *)

(** An entry of [this.tables]. *)
Record table := Table {
  columns : obj string;
  primaryKey : option string
}.

(** An item of [localStorage].  The store keeps JSON text; the embedding
    keeps what [JSON.parse] reads back from it: the rows of a table, or the
    schema. *)
Inductive item :=
| Rows (data : list row)
| Schema (tabs : obj table).

(** The calls made on [localStorage], latest first. *)
Inductive access :=
| GetItem (key : string)
| SetItem (key : string) (it : item)
| RemoveItem (key : string).

Record db := Db {
  dbName : string;
  tables : obj table;
  localStorage : gmap string item;
  journal : list access
}.

(** *** Outcomes

    A method returns, throws an error with a message, or leaves the
    embedding ([Beyond]: fuel exhausted, a run-time pattern outside the
    syntax read by [RegExp.compile], or a table that shares the key of the
    schema).  The state is threaded through all three: what was written
    before a throw stays written.  Where the engine itself raises a
    [TypeError] (a method called on [undefined] or on a number) the message
    is in the wording of V8. *)

Inductive outcome (A : Type) :=
| Return (a : A)
| Throw (message : string)
| Beyond.
Arguments Return {A} a.
Arguments Throw {A} message.
Arguments Beyond {A}.

Definition M (A : Type) : Type := db -> outcome A * db.

Definition ret {A} (a : A) : M A := fun d => (Return a, d).
Definition throw {A} (message : string) : M A := fun d => (Throw message, d).
Definition beyond {A} : M A := fun d => (Beyond, d).

Definition bind {A B} (m : M A) (k : A -> M B) : M B :=
  fun d =>
    match m d with
    | (Return a, d') => k a d'
    | (Throw e, d') => (Throw e, d')
    | (Beyond, d') => (Beyond, d')
    end.

(** [try { m } catch (error) { handler error.message }]. *)
Definition try_catch {A} (m : M A) (handler : string -> M A) : M A :=
  fun d =>
    match m d with
    | (Throw e, d') => handler e d'
    | other => other
    end.

Notation "'let*' x := m 'in' k" := (bind m (fun x => k))
  (at level 10, x pattern, m at level 100, k at level 200).
Notation "m ;; k" := (bind m (fun _ => k))
  (at level 100, k at level 200, right associativity).

Fixpoint mapM {A B} (f : A -> M B) (xs : list A) : M (list B) :=
  match xs with
  | [] => ret []
  | x :: xs' =>
      let* y := f x in
      let* ys := mapM f xs' in
      ret (y :: ys)
  end.

(** [xs.filter(f)] for a callback with effects. *)
Fixpoint filterM {A} (f : A -> M bool) (xs : list A) : M (list A) :=
  match xs with
  | [] => ret []
  | x :: xs' =>
      let* keep := f x in
      let* ys := filterM f xs' in
      ret (if keep then x :: ys else ys)
  end.

(** *** Storage *)

Definition getItem (key : string) : M (option item) :=
  fun d => (Return (localStorage d !! key),
            Db (dbName d) (tables d) (localStorage d) (GetItem key :: journal d)).

Definition setItem (key : string) (it : item) : M unit :=
  fun d => (Return tt,
            Db (dbName d) (tables d) (<[key := it]> (localStorage d))
               (SetItem key it :: journal d)).

Definition removeItem (key : string) : M unit :=
  fun d => (Return tt,
            Db (dbName d) (tables d) (delete key (localStorage d))
               (RemoveItem key :: journal d)).

Definition this_tables : M (obj table) := fun d => (Return (tables d), d).

Definition set_tables (tabs : obj table) : M unit :=
  fun d => (Return tt, Db (dbName d) tabs (localStorage d) (journal d)).

Definition dbKey (d : db) : string := dbName d ++ "_schema".

Definition saveSchema : M unit :=
  fun d => setItem (dbKey d) (Schema (tables d)) d.

Definition getTableKey (tableName : string) : M string :=
  fun d => (Return (dbName d ++ "_" ++ tableName), d).

(** The item read is the JSON text of a row array. (A table named
    [schema] would share its key with the schema; the embedding stops
    there.) *)
Definition getTableData (tableName : string) : M (list row) :=
  let* key := getTableKey tableName in
  let* data := getItem key in
  match data with
  | None => ret []
  | Some (Rows rows) => ret rows
  | Some (Schema _) => beyond
  end.

Definition saveTableData (tableName : string) (data : list row) : M unit :=
  let* key := getTableKey tableName in
  setItem key (Rows (json_rows data)).

(** What the store holds for a table. *)
Definition stored (d : db) (tableName : string) : option item :=
  localStorage d !! (dbName d ++ "_" ++ tableName).

(** [schema ? JSON.parse(schema) : {}].  The key of the schema may hold a
    row array (a table named [schema] has its rows there): [JSON.parse]
    then gives an array, which lists no table, as the empty object does
    here.  The engine keeps that array for [this.tables], and
    [JSON.stringify] does not write the tables that are set on an array:
    what is proved below of a schema written after the constructor is for
    a store whose schema item is absent or an object. *)
Definition loadSchema : M (obj table) :=
  fun d =>
    bind (getItem (dbKey d))
         (fun schema =>
            ret (match schema with Some (Schema tabs) => tabs | _ => [] end))
         d.

(** The constructor, on a given [localStorage]. *)
Definition new (name : string) (storage : gmap string item) : db :=
  match loadSchema (Db name [] storage []) with
  | (Return tabs, d) => Db name tabs (localStorage d) (journal d)
  | (_, d) => d
  end.

(** *** Results of [execute] *)

Inductive result :=
| ResultRows (rows : list row)
| ResultStatus (message : string).     (* { success: true, message } *)

(** *** Groups of a match *)

Definition group (m : list (option string)) (i : nat) : option string :=
  mjoin (m !! i).

(** A group that takes part in every match. *)
Definition group_text (m : list (option string)) (i : nat) : string :=
  default EmptyString (group m i).

(** The truth value of an optional clause: set and not empty. *)
Definition is_set (clause : option string) : bool :=
  match clause with
  | Some s => negb (String.eqb s EmptyString)
  | None => false
  end.

(** *** [parseValue], [parseValues] *)

Definition parseValue (val : string) : value :=
  let val := trim val in
  if (startsWith val "'" && endsWith val "'")
     || (startsWith val (String double_quote EmptyString)
         && endsWith val (String double_quote EmptyString))
  then VStr (slice_1_m1 val)
  else
    match stringToNumber val with
    | Some n => if String.eqb val EmptyString then VStr val else VNum n
    | None => VStr val
    end.

Definition append_char (s : string) (c : ascii) : string :=
  s ++ String c EmptyString.

Fixpoint parseValues_loop (valuesStr : string) (values : list value)
    (current : string) (inString : bool) (stringChar : option ascii)
    : list value :=
  match valuesStr with
  | EmptyString =>
      if String.eqb current EmptyString then values
      else values ++ [parseValue current]
  | String char valuesStr' =>
      if (Ascii.eqb char "'" || Ascii.eqb char double_quote) && negb inString
      then parseValues_loop valuesStr' values (append_char current char)
             true (Some char)
      else if match stringChar with
              | Some q => Ascii.eqb char q
              | None => false
              end && inString
      then parseValues_loop valuesStr' values (append_char current char)
             false stringChar
      else if Ascii.eqb char "," && negb inString
      then parseValues_loop valuesStr' (values ++ [parseValue current])
             EmptyString inString stringChar
      else parseValues_loop valuesStr' values (append_char current char)
             inString stringChar
  end.

Definition parseValues (valuesStr : string) : list value :=
  parseValues_loop valuesStr [] EmptyString false None.

(** *** The regular expressions of the source, by method *)

Module Re.

Definition createTable : RegExp.t := Eval vm_compute in
  RegExp.lit "CREATE\s+TABLE\s+(?:IF\s+NOT\s+EXISTS\s+)?(\w+)\s*\((.*)\)" true.

Definition extractPrimaryKey : RegExp.t := Eval vm_compute in
  RegExp.lit "(\w+)\s+\w+\s+PRIMARY\s+KEY" true.

Definition insert : RegExp.t := Eval vm_compute in
  RegExp.lit "INSERT\s+INTO\s+(\w+)\s*\((.*?)\)\s*VALUES\s*\((.*?)\)" true.

Definition union : RegExp.t := Eval vm_compute in
  RegExp.lit "\s+UNION\s+" true.

Definition unionAll : RegExp.t := Eval vm_compute in
  RegExp.lit "\s+UNION\s+ALL\s+" true.

Definition join : RegExp.t := Eval vm_compute in
  RegExp.lit "\s+JOIN\s+" true.

Definition derivedTable : RegExp.t := Eval vm_compute in
  RegExp.lit "FROM\s+\(\s*(SELECT\s+.+?)\s*\)\s+AS\s+(\w+)" true.

Definition select : RegExp.t := Eval vm_compute in
  RegExp.lit "SELECT\s+(DISTINCT\s+)?(.*?)\s+FROM\s+(\w+)(?:\s+WHERE\s+(.+?))?(?:\s+GROUP\s+BY\s+(.+?))?(?:\s+HAVING\s+(.+?))?(?:\s+ORDER\s+BY\s+(.+?))?(?:\s+LIMIT\s+(.+))?$" true.

Definition whitespace : RegExp.t := Eval vm_compute in
  RegExp.lit "\s+" false.

Definition limit : RegExp.t := Eval vm_compute in
  RegExp.lit "(\d+)(?:\s+OFFSET\s+(\d+))?" true.

Definition countStar : RegExp.t := Eval vm_compute in
  RegExp.lit "COUNT\s*\(\s*\*\s*\)" true.

Definition countCol : RegExp.t := Eval vm_compute in
  RegExp.lit "COUNT\s*\(\s*(\w+)\s*\)" true.

Definition upper : RegExp.t := Eval vm_compute in
  RegExp.lit "UPPER\s*\(\s*(\w+)\s*\)" true.

Definition lower : RegExp.t := Eval vm_compute in
  RegExp.lit "LOWER\s*\(\s*(\w+)\s*\)" true.

Definition length : RegExp.t := Eval vm_compute in
  RegExp.lit "LENGTH\s*\(\s*(\w+)\s*\)" true.

Definition concat : RegExp.t := Eval vm_compute in
  RegExp.lit "CONCAT\s*\((.*)\)" true.

Definition word : RegExp.t := Eval vm_compute in
  RegExp.lit "^(\w+)$" false.

Definition fromJoin : RegExp.t := Eval vm_compute in
  RegExp.lit "FROM\s+(\w+)\s+(INNER\s+JOIN|LEFT\s+JOIN|RIGHT\s+JOIN|CROSS\s+JOIN|JOIN)\s+(\w+)(?:\s+ON\s+(.+?))?(?:\s+WHERE\s+(.+?))?(?:\s+ORDER\s+BY\s+(.+?))?(?:\s+LIMIT\s+(.+))?$" true.

Definition selectFrom : RegExp.t := Eval vm_compute in
  RegExp.lit "SELECT\s+(.*?)\s+FROM" true.

Definition on : RegExp.t := Eval vm_compute in
  RegExp.lit "(\w+)\.(\w+)\s*=\s*(\w+)\.(\w+)" false.

Definition update : RegExp.t := Eval vm_compute in
  RegExp.lit "UPDATE\s+(\w+)\s+SET\s+(.*?)(?:\s+WHERE\s+(.+))?$" true.

Definition delete : RegExp.t := Eval vm_compute in
  RegExp.lit "DELETE\s+FROM\s+(\w+)(?:\s+WHERE\s+(.+))?$" true.

Definition exists_ : RegExp.t := Eval vm_compute in
  RegExp.lit "(NOT\s+)?EXISTS\s*\((SELECT\s+.+?)\)(?=\s*(AND|OR|$))" true.

Definition inOpen : RegExp.t := Eval vm_compute in
  RegExp.lit "^(\w+\s+(?:NOT\s+)?IN\s*\()" true.

Definition andOr : RegExp.t := Eval vm_compute in
  RegExp.lit "\s+(AND|OR)\s+" true.

Definition existsWord : RegExp.t := Eval vm_compute in
  RegExp.lit "EXISTS" true.

Definition like : RegExp.t := Eval vm_compute in
  RegExp.lit "(\w+)\s+LIKE\s+(.+)" true.

Definition percent : RegExp.t := Eval vm_compute in RegExp.lit "%" false.

Definition underscore : RegExp.t := Eval vm_compute in RegExp.lit "_" false.

Definition notIn : RegExp.t := Eval vm_compute in
  RegExp.lit "(\w+)\s+NOT\s+IN\s*\((.*?)\)(?:\s|$)" true.

Definition in_ : RegExp.t := Eval vm_compute in
  RegExp.lit "(\w+)\s+IN\s*\((.*?)\)(?:\s|$)" true.

Definition between : RegExp.t := Eval vm_compute in
  RegExp.lit "(\w+)\s+BETWEEN\s+(.+?)\s+AND\s+(.+?)(?=\s*$)" true.

Definition isNull : RegExp.t := Eval vm_compute in
  RegExp.lit "(\w+)\s+IS\s+(NOT\s+)?NULL" true.

End Re.

(** *** Methods

    [execute], [select] and [evaluateWhere] call one another through
    statement text; [this] holds the three as they are one level of fuel
    further down. *)

Record engine := Engine {
  this_execute : string -> M result;
  this_select : string -> M (list row);
  this_evaluateWhere : row -> string -> option string -> M bool
}.

Definition lift {A} (o : outcome A) : M A := fun d => (o, d).

(** [col.includes('.') ? col.split('.')[1] : col]. *)
Definition column_name (col : string) : string :=
  if JsString.includes col "." then default EmptyString (JsString.split "." col !! 1)
  else col.

Definition extractPrimaryKey (columnsStr : string) : option string :=
  match RegExp.match_groups Re.extractPrimaryKey columnsStr with
  | Some m => group m 1
  | None => None
  end.

Definition createTable (query : string) : M result :=
  match RegExp.match_groups Re.createTable query with
  | None => throw "Invalid CREATE TABLE syntax"
  | Some m =>
      let tableName := group_text m 1 in
      let columnsStr := group_text m 2 in
      let* tabs := this_tables in
      if has tabs tableName
      then throw ("Table " ++ tableName ++ " already exists")
      else
        let columns :=
          fold_left
            (fun (columns : obj string) col =>
               match RegExp.split Re.whitespace (trim col) with
               | name :: typeParts => set columns name (JsString.join " " typeParts)
               | [] => set columns "undefined" EmptyString
               end)
            (JsString.split "," columnsStr) [] in
        set_tables (set tabs tableName (Table columns (extractPrimaryKey columnsStr)));;
        saveSchema;;
        saveTableData tableName [];;
        ret (ResultStatus ("Table " ++ tableName ++ " created"))
  end.

(** [columns.forEach((col, index) => { row[col] = values[index]; })]. *)
Fixpoint insert_fields (row : row) (columns : list string) (index : nat)
    (values : list value) : JsObject.row :=
  match columns with
  | [] => row
  | col :: columns' =>
      insert_fields (set row col (default VUndefined (values !! index)))
        columns' (S index) values
  end.

Definition insert (query : string) : M result :=
  match RegExp.match_groups Re.insert query with
  | None => throw "Invalid INSERT syntax"
  | Some m =>
      let tableName := group_text m 1 in
      let columns := map trim (JsString.split "," (group_text m 2)) in
      let values := parseValues (group_text m 3) in
      let* tabs := this_tables in
      if negb (has tabs tableName)
      then throw ("Table " ++ tableName ++ " does not exist")
      else
        let row := insert_fields [] columns 0 values in
        let* data := getTableData tableName in
        saveTableData tableName (data ++ [row]);;
        ret (ResultStatus ("1 row inserted into " ++ tableName))
  end.

(** [data.filter] with the [Set] of the keys seen so far. *)
Fixpoint distinct_by (key : row -> string) (seen : list string)
    (data : list row) : list row :=
  match data with
  | [] => []
  | row :: data' =>
      let k := key row in
      if existsb (String.eqb k) seen then distinct_by key seen data'
      else row :: distinct_by key (k :: seen) data'
  end.

Definition applyDistinct (data : list row) (columns : string) : list row :=
  if String.eqb (trim columns) "*"
  then distinct_by json_stringify [] data
  else
    let cols := map trim (JsString.split "," columns) in
    distinct_by (fun row => JsValue.join "|" (map (field row) cols)) [] data.

Definition applyLimit (data : list row) (limitClause : string) : list row :=
  let parts := map (fun p => parseInt (trim p)) (JsString.split "," limitClause) in
  match parts with
  | [offset; count] => slice offset (add offset count) data
  | _ =>
      match RegExp.match_groups Re.limit limitClause with
      | Some m =>
          let count := parseInt (group_text m 1) in
          let offset :=
            if is_set (group m 2) then parseInt (group_text m 2) else Some 0%Z in
          slice offset (add offset count) data
      | None => data
      end
  end.

Definition evaluateExpression (expr : string) (row : row) : value :=
  let expr := trim expr in
  if RegExp.test Re.countStar expr then
    match field row "COUNT(*)" with
    | VUndefined => VNum 1
    | v => v
    end
  else
  match RegExp.match_groups Re.countCol expr with
  | Some m =>
      match field row (group_text m 0) with
      | VUndefined => VNum 0
      | v => v
      end
  | None =>
  match RegExp.match_groups Re.upper expr with
  | Some m =>
      let col := group_text m 1 in
      if truthy (field row col)
      then VStr (toUpperCase (toString (field row col))) else VNull
  | None =>
  match RegExp.match_groups Re.lower expr with
  | Some m =>
      let col := group_text m 1 in
      if truthy (field row col)
      then VStr (toLowerCase (toString (field row col))) else VNull
  | None =>
  match RegExp.match_groups Re.length expr with
  | Some m =>
      let col := group_text m 1 in
      if truthy (field row col)
      then VNum (Z.of_nat (String.length (toString (field row col))))
      else VNum 0
  | None =>
  match RegExp.match_groups Re.concat expr with
  | Some m =>
      let parts :=
        map (fun p =>
               let trimmed := trim p in
               if RegExp.test Re.word trimmed
               then or_else (field row trimmed) (VStr EmptyString)
               else parseValue trimmed)
            (JsString.split "," (group_text m 1)) in
      VStr (JsValue.join EmptyString parts)
  | None =>
      if JsString.includes expr "."
      then field row (default EmptyString (JsString.split "." expr !! 1))
      else field row expr
  end end end end end.

(** [{ col, dir }] of [orderBy]. *)
Record order_part := OrderPart { col : string; dir : string }.

Definition order_parts (orderByClause : string) : list order_part :=
  map (fun p =>
         let pieces := RegExp.split Re.whitespace (trim p) in
         let col := default EmptyString (pieces !! 0) in
         let dir := match pieces !! 1 with
                    | Some d => if String.eqb d EmptyString then "ASC" else d
                    | None => "ASC"
                    end in
         OrderPart (column_name col) (toUpperCase dir))
      (JsString.split "," orderByClause).

(** The comparator of [orderBy]. *)
Fixpoint compare_rows (parts : list order_part) (a b : row) : Z :=
  match parts with
  | [] => 0
  | part :: parts' =>
      let valA := field a (col part) in
      let valB := field b (col part) in
      let cmp := if lt valA valB then (-1)%Z else if gt valA valB then 1%Z else 0%Z in
      if negb (cmp =? 0)%Z
      then if String.eqb (dir part) "DESC" then (- cmp)%Z else cmp
      else compare_rows parts' a b
  end.

Definition orderBy (data : list row) (orderByClause : string) : list row :=
  sort (compare_rows (order_parts orderByClause)) data.

(** In the words of the specification: what one key says of two rows,
    its direction applied (negative when [a] goes first, positive when [b]
    does, 0 for a tie), and the order of a clause, decided by the first key
    that is not a tie.  [compare_rows] above is the comparator as the
    source writes it. *)
Definition key_order (part : order_part) (a b : row) : Z :=
  let cmp :=
    if lt (field a (col part)) (field b (col part)) then (-1)%Z
    else if gt (field a (col part)) (field b (col part)) then 1%Z else 0%Z in
  if String.eqb (dir part) "DESC" then (- cmp)%Z else cmp.

(** The first answer that is not a tie. *)
Fixpoint first_decided (answers : list Z) : Z :=
  match answers with
  | [] => 0%Z
  | z :: answers' => if (z =? 0)%Z then first_decided answers' else z
  end.

Definition mergeRows (row1 row2 : row) (table1Name table2Name : string) : row :=
  let merged :=
    fold_left (fun (merged : row) key =>
                 set merged (table1Name ++ "." ++ key) (field row1 key))
              (keys row1) [] in
  fold_left (fun (merged : row) key =>
               set merged (table2Name ++ "." ++ key) (field row2 key))
            (keys row2) merged.

(** [Object.keys(data[0] || {}).forEach(key => { nullRow[key] = null; })]. *)
Definition null_row (data : list row) : row :=
  fold_left (fun (nullRow : row) key => set nullRow key VNull)
            (keys (default [] (head data))) [].

(** The body of the inner loops of [performJoin]: the merged row when
    the two keys are equal under [==]. *)
Definition join_pair (key1 key2 table1 table2 : string) (row1 row2 : row)
    : option row :=
  if loose_eq (field row1 key1) (field row2 key2)
  then Some (mergeRows row1 row2 table1 table2) else None.

(** One turn of the outer loop of [LEFT JOIN]: the rows of the right table
    that join [row1], in their order; when [matched] stays false, [row1]
    with the null row. *)
Definition left_rows (right : list row) (key1 key2 table1 table2 : string)
    (row1 : row) : list row :=
  match omap (join_pair key1 key2 table1 table2 row1) right with
  | [] => [mergeRows row1 (null_row right) table1 table2]
  | matched => matched
  end.

(** One turn of the outer loop of [RIGHT JOIN]. *)
Definition right_rows (left : list row) (key1 key2 table1 table2 : string)
    (row2 : row) : list row :=
  match omap (fun row1 => join_pair key1 key2 table1 table2 row1 row2) left with
  | [] => [mergeRows (null_row left) row2 table1 table2]
  | matched => matched
  end.

Definition performJoin (data1 data2 : list row) (table1Name table2Name : string)
    (onClause : option string) (joinType : string) : outcome (list row) :=
  if String.eqb joinType "CROSS JOIN" then
    Return (flat_map (fun row1 =>
                        map (fun row2 => mergeRows row1 row2 table1Name table2Name)
                            data2)
                     data1)
  else
    match onClause with
    | None => Throw "Cannot read properties of undefined (reading 'match')"
    | Some onClause =>
        match RegExp.match_groups Re.on onClause with
        | None => Throw "Invalid ON clause syntax"
        | Some onMatch =>
            let t1 := group_text onMatch 1 in
            let col1 := group_text onMatch 2 in
            let t2 := group_text onMatch 3 in
            let col2 := group_text onMatch 4 in
            let t1_is_table1 :=
              String.eqb (toLowerCase t1) (toLowerCase table1Name) in
            let t2_is_table1 :=
              String.eqb (toLowerCase t2) (toLowerCase table1Name) in
            let table1 := if t1_is_table1 then table1Name else table2Name in
            let table2 := if t2_is_table1 then table1Name else table2Name in
            let key1 := if t1_is_table1 then col1 else col2 in
            let key2 := if t2_is_table1 then col2 else col1 in
            let data1Actual := if String.eqb table1 table1Name then data1 else data2 in
            let data2Actual := if String.eqb table2 table1Name then data1 else data2 in
            if String.eqb joinType "INNER JOIN" || String.eqb joinType "JOIN" then
              Return (flat_map
                        (fun row1 =>
                           omap (join_pair key1 key2 table1 table2 row1) data2Actual)
                        data1Actual)
            else if String.eqb joinType "LEFT JOIN" then
              Return (flat_map (left_rows data2Actual key1 key2 table1 table2)
                               data1Actual)
            else if String.eqb joinType "RIGHT JOIN" then
              Return (flat_map (right_rows data1Actual key1 key2 table1 table2)
                               data2Actual)
            else Return []
        end
    end.

Definition formatValue (v : value) : string :=
  match v with
  | VUndefined | VNull => "NULL"
  | VStr s => "'" ++ s ++ "'"
  | VNum _ => toString v
  end.

(** Every [tableName.col] of the subquery is replaced by the value the
    outer row has for [col].  The pattern is built from the two names at run
    time. *)
Definition correlateSubquery (subquery : string) (row : row)
    (tableName : option string) : outcome string :=
  match tableName with
  | Some name =>
      if String.eqb name EmptyString then Return subquery
      else
        fold_left
          (fun (correlatedQuery : outcome string) col =>
             match correlatedQuery with
             | Return q =>
                 match RegExp.compile (name ++ "\." ++ col ++ "\b") true with
                 | Some pattern =>
                     Return (RegExp.replace_all pattern (formatValue (field row col)) q)
                 | None => Beyond
                 end
             | other => other
             end)
          (keys row) (Return subquery)
  | None => Return subquery
  end.

Definition operators : list string := [">="; "<="; "!="; "<>"; "="; ">"; "<"].

(** The [switch (op)] of [evaluateCondition], case by case. *)
Definition compare_with (op : string) (rowValue val : value) : bool :=
  if String.eqb op "=" then loose_eq rowValue val
  else if String.eqb op "!= " || String.eqb op "<>" then negb (loose_eq rowValue val)
  else if String.eqb op ">" then gt rowValue val
  else if String.eqb op "<" then lt rowValue val
  else if String.eqb op ">=" then ge rowValue val
  else if String.eqb op "<=" then le rowValue val
  else false.

(** [Object.values(r)[0]]. *)
Definition first_value (r : row) : value := default VUndefined (head (values r)).

(** The first column of the rows of a subquery; a result that is not an
    array is one element no field is equal to. *)
Definition subquery_values (subqueryResult : result) : list value :=
  match subqueryResult with
  | ResultRows rows => map first_value rows
  | ResultStatus _ => []
  end.

(** The text of the expression [LIKE] builds:
    ['^' + pattern.replace(/%/g, '.*').replace(/_/g, '.') + '$']. *)
Definition like_source (pattern : string) : string :=
  "^" ++ RegExp.replace_all Re.underscore "."
           (RegExp.replace_all Re.percent ".*" pattern) ++ "$".

Section Methods.

Variable this : engine.

(** The [LIKE] branch of [evaluateCondition]. *)
Definition evaluateLike (row : row) (col patternText : string) : M bool :=
  match parseValue patternText with
  | VStr pattern =>
      match RegExp.compile (like_source pattern) false with
      | Some regex =>
          ret (RegExp.test regex
                 (toString (or_else (field row col) (VStr EmptyString))))
      | None => beyond
      end
  | _ => throw "pattern.replace is not a function"
  end.

(** The [IN] and [NOT IN] branches, [negated] for the latter. *)
Definition evaluateIn (negated : bool) (row : row) (col innerContent : string)
    : M bool :=
  let answer (values : list value) : bool :=
    if negated then negb (JsValue.includes values (field row col))
    else JsValue.includes values (field row col) in
  if startsWith (toUpperCase innerContent) "SELECT" then
    try_catch
      (let* subqueryResult := this_execute this innerContent in
       ret (answer (subquery_values subqueryResult)))
      (fun message =>
         throw ((if negated then "Subquery error in NOT IN: "
                 else "Subquery error in IN: ") ++ message))
  else
    ret (answer (map (fun v => parseValue (trim v))
                     (JsString.split "," innerContent))).

(** The last part of [evaluateCondition]: the comparison operators. *)
Definition evaluateComparison (row : row) (condition : string) : M bool :=
  match find (fun operator => JsString.includes condition operator) operators with
  | None => ret false
  | Some op =>
      let pieces := map trim (JsString.split op condition) in
      let col := default EmptyString (pieces !! 0) in
      let val := default EmptyString (pieces !! 1) in
      let col := column_name col in
      let rowValue := field row col in
      if startsWith (toUpperCase val) "SELECT" then
        try_catch
          (let* subqueryResult := this_execute this val in
           match subqueryResult with
           | ResultRows (first :: _) =>
               ret (compare_with op rowValue (first_value first))
           | _ => ret false
           end)
          (fun message => throw ("Subquery error: " ++ message))
      else ret (compare_with op rowValue (parseValue val))
  end.

Definition evaluateCondition (row : row) (condition : string)
    (tableName : option string) : M bool :=
  let condition := trim condition in
  match RegExp.match_groups Re.like condition with
  | Some likeMatch =>
      evaluateLike row (group_text likeMatch 1) (group_text likeMatch 2)
  | None =>
  match RegExp.match_groups Re.notIn condition with
  | Some notInMatch =>
      evaluateIn true row (group_text notInMatch 1) (trim (group_text notInMatch 2))
  | None =>
  match RegExp.match_groups Re.in_ condition with
  | Some inMatch =>
      evaluateIn false row (group_text inMatch 1) (trim (group_text inMatch 2))
  | None =>
  match RegExp.match_groups Re.between condition with
  | Some betweenMatch =>
      let col := group_text betweenMatch 1 in
      let min := parseValue (group_text betweenMatch 2) in
      let max := parseValue (group_text betweenMatch 3) in
      ret (ge (field row col) min && le (field row col) max)
  | None =>
  match RegExp.match_groups Re.isNull condition with
  | Some isNullMatch =>
      let col := group_text isNullMatch 1 in
      let isNotNull :=
        match group isNullMatch 2 with
        | Some kw => String.eqb (toUpperCase (trim kw)) "NOT"
        | None => false
        end in
      let isNull :=
        match field row col with
        | VNull | VUndefined => true
        | _ => false
        end in
      ret (if isNotNull then negb isNull else isNull)
  | None => evaluateComparison row condition
  end end end end end.

Definition evaluateExistsCondition (row : row) (whereClause : string)
    (existsMatch : list (option string)) (tableName : option string) : M bool :=
  let fullMatch := group_text existsMatch 0 in
  let notKeyword := group existsMatch 1 in
  let subquery := group_text existsMatch 2 in
  let isNotExists :=
    match notKeyword with
    | Some kw => String.eqb (toUpperCase (trim kw)) "NOT"
    | None => false
    end in
  let* subqueryWithValues := lift (correlateSubquery subquery row tableName) in
  try_catch
    (let* subqueryResult := this_execute this subqueryWithValues in
     let exists_ :=
       match subqueryResult with
       | ResultRows (_ :: _) => true
       | _ => false
       end in
     let conditionResult := if isNotExists then negb exists_ else exists_ in
     let remainingWhere :=
       trim (RegExp.replace_string fullMatch EmptyString whereClause) in
     if negb (String.eqb remainingWhere EmptyString) then
       let* remainingResult := this_evaluateWhere this row remainingWhere tableName in
       ret (conditionResult && remainingResult)
     else ret conditionResult)
    (fun message => throw ("Subquery error: " ++ message)).

(** The inner loop of [evaluateWhere] that looks for the parenthesis
    closing an [IN] list: [text] is the clause from [j] on. *)
Fixpoint closing_paren (text : string) (j parenDepth : nat) : nat :=
  match parenDepth, text with
  | O, _ => j
  | _, EmptyString => j
  | _, String c text' =>
      if Ascii.eqb c "(" then closing_paren text' (S j) (S parenDepth)
      else if Ascii.eqb c ")" then closing_paren text' (S j) (parenDepth - 1)
      else closing_paren text' (S j) parenDepth
  end.

Definition protected_name (protectedIndex : nat) : string :=
  "__PROTECTED_" ++ numberToString (Z.of_nat protectedIndex) ++ "__".

(** The outer loop: every [col IN (...)] and [col NOT IN (...)] is set
    aside, up to the parenthesis that balances its opening one, and a
    placeholder takes its place. *)
Fixpoint protect_in (fuel : nat) (whereClause : string) (i : nat)
    (protectedConditions : list string) (protectedIndex : nat)
    (processedClause : string) : list string * string :=
  match fuel with
  | O => (protectedConditions, processedClause)
  | S fuel' =>
      if String.length whereClause <=? i
      then (protectedConditions, processedClause)
      else
        match RegExp.match_groups Re.inOpen (drop i whereClause) with
        | Some inMatch =>
            let parenStart := i + String.length (group_text inMatch 0) - 1 in
            let j := closing_paren (drop (parenStart + 1) whereClause)
                       (parenStart + 1) 1 in
            protect_in fuel' whereClause j
              (protectedConditions ++ [substring i j whereClause])
              (S protectedIndex)
              (processedClause ++ protected_name protectedIndex)
        | None =>
            protect_in fuel' whereClause (S i) protectedConditions protectedIndex
              (processedClause ++ take 1 (drop i whereClause))
        end
  end.

(** [actualCondition.replace(`__PROTECTED_${j}__`, protectedConditions[j])]
    for every [j]. *)
Fixpoint restore_protected (protectedConditions : list string) (j : nat)
    (actualCondition : string) : string :=
  match protectedConditions with
  | [] => actualCondition
  | inCondition :: rest =>
      restore_protected rest (S j)
        (RegExp.replace_string (protected_name j) inCondition actualCondition)
  end.

Fixpoint evaluateWhere_loop (row : row) (tableName : option string)
    (protectedConditions : list string) (conditions : list string)
    (result : bool) (operator : string) : M bool :=
  match conditions with
  | [] => ret result
  | condition :: conditions' =>
      if String.eqb (toUpperCase condition) "AND"
         || String.eqb (toUpperCase condition) "OR"
      then evaluateWhere_loop row tableName protectedConditions conditions'
             result (toUpperCase condition)
      else if RegExp.test Re.existsWord condition
      then evaluateWhere_loop row tableName protectedConditions conditions'
             result operator
      else
        let actualCondition :=
          restore_protected protectedConditions 0 (trim condition) in
        let* conditionResult := evaluateCondition row actualCondition tableName in
        evaluateWhere_loop row tableName protectedConditions conditions'
          (if String.eqb operator "AND" then result && conditionResult
           else result || conditionResult)
          operator
  end.

Definition evaluateWhere (row : row) (whereClause : string)
    (tableName : option string) : M bool :=
  match RegExp.match_groups Re.exists_ whereClause with
  | Some existsMatch =>
      evaluateExistsCondition row whereClause existsMatch tableName
  | None =>
      let '(protectedConditions, processedClause) :=
        protect_in (S (String.length whereClause)) whereClause 0 [] 0 EmptyString in
      let conditions := RegExp.split Re.andOr processedClause in
      evaluateWhere_loop row tableName protectedConditions conditions true "AND"
  end.

(** An entry of [groups] in [groupBy]. *)
Record group_entry := GroupEntry { rows : list row; keys_ : row }.

(** The message of the [TypeError] of [groups[groupKey].rows.push(row)]
    when [groups[groupKey].rows] is [undefined], as V8 writes it. *)
Definition push_of_undefined : string :=
  "Cannot read properties of undefined (reading 'push')".

(** [groupColumns.map(col => row[colName]).join('|')]. *)
Definition group_key (groupColumns : list string) (row : row) : string :=
  JsValue.join "|" (map (fun col => field row (column_name col)) groupColumns).

(** The [keys] of a new group:
    [groupColumns.forEach(col => { groups[groupKey].keys[col] = row[colName]; })]. *)
Definition group_keys (groupColumns : list string) (row : row) : JsObject.row :=
  fold_left (fun (keys : JsObject.row) col => set keys col (field row (column_name col)))
            groupColumns [].

(** One turn of the loop over the rows.  [groups[groupKey]] is read through
    the prototype of [groups]: for a key that names a member of
    [Object.prototype] the test [!groups[groupKey]] finds that member, no
    group is made, and [groups[groupKey].rows.push(row)] throws, since the
    member has no [rows].  [None] is the loop left by that error. *)
Definition add_to_group (groupColumns : list string) (groups : obj group_entry)
    (row : row) : option (obj group_entry) :=
  let groupKey := group_key groupColumns row in
  let groups :=
    if has groups groupKey || inherited groupKey then groups
    else set groups groupKey (GroupEntry [] (group_keys groupColumns row)) in
  match get groups groupKey with
  | Some group =>
      Some (set groups groupKey (GroupEntry (rows group ++ [row]) (keys_ group)))
  | None => None
  end.

Definition make_groups (groupColumns : list string) (data : list row)
    : option (obj group_entry) :=
  fold_left (fun (groups : option (obj group_entry)) row =>
               match groups with
               | Some groups => add_to_group groupColumns groups row
               | None => None
               end)
            data (Some []).

(** What the loop keeps true of [groups], [processed] being the rows seen
    so far: the keys are distinct, a group is under the key of its first
    row, which is the first of the rows seen that has this key, and holds
    the grouping fields of that row; every row seen has the group of its
    key, and its key names no member of the prototype. *)
Definition groups_of (groupColumns : list string) (processed : list row)
    (groups : obj group_entry) : Prop :=
  NoDup (keys groups)
  /\ List.length groups <= List.length processed
  /\ (forall k g, get groups k = Some g ->
        exists before first after rest,
          processed = (before ++ first :: after)%list
          /\ Forall (fun r => group_key groupColumns r <> k) before
          /\ group_key groupColumns first = k
          /\ rows g = first :: rest
          /\ keys_ g = group_keys groupColumns first)
  /\ (forall r, In r processed ->
        has groups (group_key groupColumns r) = true
        /\ inherited (group_key groupColumns r) = false).

(** The row made of a group: its keys, then the fields of its first row
    that are no grouping column. *)
Definition aggregate (groupColumns : list string) (group : group_entry) : row :=
  match rows group with
  | first :: _ =>
      fold_left
        (fun (aggregated : row) col =>
           if negb (existsb (String.eqb col) groupColumns)
           then set aggregated col (field first col)
           else aggregated)
        (keys first) (keys_ group)
  | [] => keys_ group
  end.

Definition groupBy (data : list row) (groupByClause : string)
    (havingClause : option string) (tableName : string) : M (list row) :=
  let groupColumns := map trim (JsString.split "," groupByClause) in
  match make_groups groupColumns data with
  | None => throw push_of_undefined
  | Some groups =>
      let result := map (aggregate groupColumns) (values groups) in
      if is_set havingClause then
        filterM (fun row => evaluateWhere row (default EmptyString havingClause)
                              (Some tableName))
                result
      else ret result
  end.

(** The projection of [selectWithJoin]: [selected[col] = row[col]]. *)
Definition project_fields (selectedColumns : list string) (row : row)
    : JsObject.row :=
  fold_left (fun (selected : JsObject.row) col => set selected col (field row col))
            selectedColumns [].

Definition selectWithJoin (query : string) : M (list row) :=
  match RegExp.match_groups Re.fromJoin query with
  | None => throw "Invalid JOIN syntax"
  | Some fromJoinMatch =>
      let table1Name := group_text fromJoinMatch 1 in
      let joinType := toUpperCase (group_text fromJoinMatch 2) in
      let table2Name := group_text fromJoinMatch 3 in
      let onClause := group fromJoinMatch 4 in
      let whereClause := group fromJoinMatch 5 in
      let orderByClause := group fromJoinMatch 6 in
      let limitClause := group fromJoinMatch 7 in
      if negb (is_set onClause) && negb (JsString.includes joinType "CROSS")
      then throw "ON clause is required for this JOIN type"
      else
        match RegExp.match_groups Re.selectFrom query with
        | None => throw "Invalid SELECT syntax"
        | Some selectMatch =>
            let columns := trim (group_text selectMatch 1) in
            let* tabs := this_tables in
            if negb (has tabs table1Name)
            then throw ("Table " ++ table1Name ++ " does not exist")
            else if negb (has tabs table2Name)
            then throw ("Table " ++ table2Name ++ " does not exist")
            else
              let* data1 := getTableData table1Name in
              let* data2 := getTableData table2Name in
              let* joinedData :=
                lift (performJoin data1 data2 table1Name table2Name onClause joinType) in
              let* joinedData :=
                if is_set whereClause
                then filterM (fun row => evaluateWhere row
                                           (default EmptyString whereClause) None)
                             joinedData
                else ret joinedData in
              let joinedData :=
                if is_set orderByClause
                then orderBy joinedData (default EmptyString orderByClause)
                else joinedData in
              let joinedData :=
                if is_set limitClause
                then applyLimit joinedData (default EmptyString limitClause)
                else joinedData in
              ret (if negb (String.eqb columns "*")
                   then map (project_fields (map trim (JsString.split "," columns)))
                            joinedData
                   else joinedData)
        end
  end.

Definition selectWithUnion (query : string) : M (list row) :=
  let isUnionAll := RegExp.test Re.unionAll query in
  let unionRegex := if isUnionAll then Re.unionAll else Re.union in
  let selectQueries := RegExp.split unionRegex query in
  if List.length selectQueries <? 2 then throw "Invalid UNION syntax"
  else
    let* subResults :=
      mapM (fun selectQuery => this_select this (trim selectQuery)) selectQueries in
    let results := List.concat subResults in
    ret (if negb isUnionAll then applyDistinct results "*" else results).

(** The derived-table branch of [select]: [FROM ( SELECT ... ) AS name]. *)
Definition selectDerived (query : string) (derivedTableMatch : list (option string))
    : M (list row) :=
  let subquery := group_text derivedTableMatch 1 in
  let derivedTableName := group_text derivedTableMatch 2 in
  try_catch
    (let* subqueryResult := this_select this subquery in
     let* originalTableData := getTableData derivedTableName in
     saveTableData derivedTableName subqueryResult;;
     let* tabs := this_tables in
     let originalSchema := get tabs derivedTableName in
     (if negb (has tabs derivedTableName) then
        let columns :=
          match subqueryResult with
          | first :: _ =>
              fold_left (fun (columns : obj string) col => set columns col "TEXT")
                        (keys first) []
          | [] => []
          end in
        set_tables (set tabs derivedTableName (Table columns None))
      else ret tt);;
     let modifiedQuery :=
       RegExp.replace_first Re.derivedTable ("FROM " ++ derivedTableName) query in
     let* result := this_select this modifiedQuery in
     let* key := getTableKey derivedTableName in
     removeItem key;;
     let* tabs := this_tables in
     match originalSchema with
     | None => set_tables (remove tabs derivedTableName)
     | Some schema =>
         set_tables (set tabs derivedTableName schema);;
         saveTableData derivedTableName originalTableData
     end;;
     ret result)
    (fun message => throw ("Derived table error: " ++ message)).

(** The projection of [select]:
    [selected[col] = this.evaluateExpression(col, row)]. *)
Definition project_expressions (selectedColumns : list string) (row : row)
    : JsObject.row :=
  fold_left (fun (selected : JsObject.row) col =>
               set selected col (evaluateExpression col row))
            selectedColumns [].

Definition select (query : string) : M (list row) :=
  if RegExp.test Re.union query then selectWithUnion query
  else if RegExp.test Re.join query then selectWithJoin query
  else
    match RegExp.match_groups Re.derivedTable query with
    | Some derivedTableMatch => selectDerived query derivedTableMatch
    | None =>
        match RegExp.match_groups Re.select query with
        | None => throw "Invalid SELECT syntax"
        | Some m =>
            let distinct := group m 1 in
            let columns := group_text m 2 in
            let tableName := group_text m 3 in
            let whereClause := group m 4 in
            let groupByClause := group m 5 in
            let havingClause := group m 6 in
            let orderByClause := group m 7 in
            let limitClause := group m 8 in
            let* tabs := this_tables in
            if negb (has tabs tableName)
            then throw ("Table " ++ tableName ++ " does not exist")
            else
              let* data := getTableData tableName in
              let* data :=
                if is_set whereClause
                then filterM (fun row => evaluateWhere row
                                           (default EmptyString whereClause)
                                           (Some tableName))
                             data
                else ret data in
              let* data :=
                if is_set groupByClause
                then groupBy data (default EmptyString groupByClause)
                       havingClause tableName
                else ret data in
              let data :=
                if is_set orderByClause
                then orderBy data (default EmptyString orderByClause) else data in
              let data :=
                if is_set limitClause
                then applyLimit data (default EmptyString limitClause) else data in
              let data := if is_set distinct then applyDistinct data columns else data in
              ret (if negb (String.eqb (trim columns) "*")
                   then map (project_expressions
                               (map trim (JsString.split "," columns)))
                            data
                   else data)
        end
    end.

(** [setClause.split(',').forEach(part => { ... })] of [update]; a part
    without [=] makes [parseValue] read [undefined]. *)
Fixpoint parse_assignments (parts : list string) (updates : row) : M row :=
  match parts with
  | [] => ret updates
  | part :: parts' =>
      let pieces := map trim (JsString.split "=" part) in
      let col := default EmptyString (pieces !! 0) in
      match pieces !! 1 with
      | Some val => parse_assignments parts' (set updates col (parseValue val))
      | None => throw "Cannot read properties of undefined (reading 'trim')"
      end
  end.

Definition update (query : string) : M result :=
  match RegExp.match_groups Re.update query with
  | None => throw "Invalid UPDATE syntax"
  | Some m =>
      let tableName := group_text m 1 in
      let setClause := group_text m 2 in
      let whereClause := group m 3 in
      let* tabs := this_tables in
      if negb (has tabs tableName)
      then throw ("Table " ++ tableName ++ " does not exist")
      else
        let* updates := parse_assignments (JsString.split "," setClause) [] in
        let* data := getTableData tableName in
        let* marked :=
          mapM (fun row =>
                  let* hit :=
                    if negb (is_set whereClause) then ret true
                    else evaluateWhere row (default EmptyString whereClause)
                           (Some tableName) in
                  ret (if hit then (assign row updates, true) else (row, false)))
               data in
        let data := map fst marked in
        let updatedCount := List.length (List.filter snd marked) in
        saveTableData tableName data;;
        ret (ResultStatus (numberToString (Z.of_nat updatedCount)
                           ++ " rows updated in " ++ tableName))
  end.

Definition delete (query : string) : M result :=
  match RegExp.match_groups Re.delete query with
  | None => throw "Invalid DELETE syntax"
  | Some m =>
      let tableName := group_text m 1 in
      let whereClause := group m 2 in
      let* tabs := this_tables in
      if negb (has tabs tableName)
      then throw ("Table " ++ tableName ++ " does not exist")
      else
        let* data := getTableData tableName in
        let initialCount := List.length data in
        let* data :=
          if is_set whereClause
          then filterM (fun row =>
                          let* hit := evaluateWhere row
                                        (default EmptyString whereClause)
                                        (Some tableName) in
                          ret (negb hit))
                       data
          else ret [] in
        let deletedCount := initialCount - List.length data in
        saveTableData tableName data;;
        ret (ResultStatus (numberToString (Z.of_nat deletedCount)
                           ++ " rows deleted from " ++ tableName))
  end.

Definition execute (query : string) : M result :=
  try_catch
    (let query := trim query in
     if String.eqb query EmptyString then throw "Query cannot be empty"
     else if startsWith (toUpperCase query) "CREATE TABLE" then createTable query
     else if startsWith (toUpperCase query) "INSERT INTO" then insert query
     else if startsWith (toUpperCase query) "SELECT" then
       let* rows := select query in ret (ResultRows rows)
     else if startsWith (toUpperCase query) "UPDATE" then update query
     else if startsWith (toUpperCase query) "DELETE" then delete query
     else throw "Unknown SQL command. Supported commands: CREATE TABLE, INSERT, SELECT, UPDATE, DELETE")
    (fun message => throw ("Query execution failed: " ++ message)).

End Methods.

(** The three methods with [fuel] levels of calls through statement text
    below them. *)
Fixpoint methods (fuel : nat) : engine :=
  match fuel with
  | O => Engine (fun _ => beyond) (fun _ => beyond) (fun _ _ _ => beyond)
  | S fuel' =>
      Engine (execute (methods fuel')) (select (methods fuel'))
             (evaluateWhere (methods fuel'))
  end.

(** [db.execute(query)]. *)
Definition run (fuel : nat) (query : string) : M result :=
  execute (methods fuel) query.

(** [m2] does what [m1] does, wherever [m1] stays inside the embedding. *)
Definition extends {A} (m1 m2 : M A) : Prop :=
  forall d o d', m1 d = (o, d') -> o <> Beyond -> m2 d = (o, d').

Definition engine_extends (e1 e2 : engine) : Prop :=
  (forall query, extends (this_execute e1 query) (this_execute e2 query))
  /\ (forall query, extends (this_select e1 query) (this_select e2 query))
  /\ (forall row whereClause tableName,
        extends (this_evaluateWhere e1 row whereClause tableName)
                (this_evaluateWhere e2 row whereClause tableName)).

Definition getTables : M (list string) :=
  let* tabs := this_tables in ret (keys tabs).

Definition clear : M unit :=
  let* names := getTables in
  mapM (fun table => let* key := getTableKey table in removeItem key) names;;
  (fun d => removeItem (dbKey d) d);;
  set_tables [].

End LocalDB.

(** ** Databases of the examples *)

Module Example.
Import JsString JsValue JsObject LocalDB.

(** The tables of the README: [users] and [orders]. *)
Definition users : list row :=
  [[("id", VNum 1); ("name", VStr "John"); ("age", VNum 30)];
   [("id", VNum 2); ("name", VStr "Jane"); ("age", VNum 28)]].

Definition orders : list row :=
  [[("id", VNum 1); ("user_id", VNum 1); ("amount", VNum 100)];
   [("id", VNum 2); ("user_id", VNum 1); ("amount", VNum 200)];
   [("id", VNum 3); ("user_id", VNum 2); ("amount", VNum 150)]].

Definition shop_schema : obj table :=
  [("users",
    Table [("id", "INTEGER PRIMARY KEY"); ("name", "TEXT"); ("age", "INTEGER")]
          (Some "id"));
   ("orders",
    Table [("id", "INTEGER PRIMARY KEY"); ("user_id", "INTEGER");
           ("amount", "INTEGER")]
          (Some "id"))].

Definition shop_with (orders_rows : list row) : db :=
  Db "app" shop_schema
     (list_to_map [("app_schema", Schema shop_schema);
                   ("app_users", Rows users);
                   ("app_orders", Rows orders_rows)])
     [].

Definition shop : db := shop_with orders.

(** The same with no order yet. *)
Definition shop_without_orders : db := shop_with [].

Definition shop_statements : list string :=
  ["CREATE TABLE users (id INTEGER PRIMARY KEY, name TEXT, age INTEGER)";
   "INSERT INTO users (id, name, age) VALUES (1, 'John', 30)";
   "INSERT INTO users (id, name, age) VALUES (2, 'Jane', 28)";
   "CREATE TABLE orders (id INTEGER PRIMARY KEY, user_id INTEGER, amount INTEGER)";
   "INSERT INTO orders (id, user_id, amount) VALUES (1, 1, 100)";
   "INSERT INTO orders (id, user_id, amount) VALUES (2, 1, 200)";
   "INSERT INTO orders (id, user_id, amount) VALUES (3, 2, 150)"].

(** Three small tables: [t], [u] and [d]. *)
Definition lab_schema : obj table :=
  [("t", Table [("id", "INTEGER"); ("v", "TEXT")] None);
   ("u", Table [("id", "INTEGER")] None);
   ("d", Table [("k", "INTEGER")] None)].

Definition lab_t : list row :=
  [[("id", VNum 1); ("v", VStr "a")]; [("id", VNum 2); ("v", VStr "b")]].

Definition lab : db :=
  Db "app" lab_schema
     (list_to_map [("app_schema", Schema lab_schema);
                   ("app_t", Rows lab_t);
                   ("app_u", Rows [[("id", VNum 7)]]);
                   ("app_d", Rows [[("k", VNum 5)]])])
     [].

(** Rows to sort on two keys: two of them tie on both [k] and [v]. *)
Definition ranks : list row :=
  [ [("k", VNum 2); ("v", VStr "a"); ("id", VNum 1)];
    [("k", VNum 1); ("v", VStr "b"); ("id", VNum 2)];
    [("k", VNum 1); ("v", VStr "b"); ("id", VNum 3)];
    [("k", VNum 1); ("v", VStr "c"); ("id", VNum 4)] ].

(** The statements run one after the other, the outcomes in order. *)
Fixpoint run_all (fuel : nat) (statements : list string) (d : db)
    : list (outcome result) * db :=
  match statements with
  | [] => ([], d)
  | statement :: statements' =>
      let '(o, d') := run fuel statement d in
      let '(os, d'') := run_all fuel statements' d' in
      (o :: os, d'')
  end.

End Example.

(** ** Characters an expression has to read

    [reads_char c r]: every match of [r] reads the character [c].
    [without_char icase c s]: no character of [s] is read as [c]. *)

Fixpoint reads_char (c : ascii) (r : RegExp.regex) : bool :=
  match r with
  | RegExp.Chr c' => Ascii.eqb c' c
  | RegExp.Seq r1 r2 => reads_char c r1 || reads_char c r2
  | RegExp.Alt r1 r2 => reads_char c r1 && reads_char c r2
  | RegExp.Plus _ r1 => reads_char c r1
  | RegExp.Group _ r1 => reads_char c r1
  | _ => false
  end.

Fixpoint without_char (icase : bool) (c : ascii) (s : string) : bool :=
  match s with
  | EmptyString => true
  | String x s' => negb (RegExp.same_char icase c x) && without_char icase c s'
  end.

(** * Properties *)

Import JsString JsValue JsObject LocalDB Example.

(** ** The expressions of the source *)

(** Every regular expression of the source is in the syntax [RegExp]
    reads: none of the constants of [Re] is the fallback. *)
Lemma source_expressions_are_read :
  Forall (fun re => re <> RegExp.never)
    [Re.createTable; Re.extractPrimaryKey; Re.insert; Re.union; Re.unionAll;
     Re.join; Re.derivedTable; Re.select; Re.whitespace; Re.limit; Re.countStar;
     Re.countCol; Re.upper; Re.lower; Re.length; Re.concat; Re.word; Re.fromJoin;
     Re.selectFrom; Re.on; Re.update; Re.delete; Re.exists_; Re.inOpen; Re.andOr;
     Re.existsWord; Re.like; Re.percent; Re.underscore; Re.notIn; Re.in_;
     Re.between; Re.isNull].
Proof. repeat constructor; discriminate. Qed.

(** ** The entry point [execute] *)

Section Execute.

Lemma trimStart_white_space (s : string) :
  Forall (fun c => is_space c = true) (list_ascii_of_string s) ->
  trimStart s = EmptyString.
Proof.
  induction s as [|c s IH]; simpl; intros H; [reflexivity|].
  inversion H as [|? ? Hc Hs]; subst.
  rewrite Hc. auto.
Qed.

Lemma trim_white_space (s : string) :
  Forall (fun c => is_space c = true) (list_ascii_of_string s) ->
  trim s = EmptyString.
Proof.
  intros H. unfold trim. rewrite trimStart_white_space by exact H. reflexivity.
Qed.

(** C10. Statement text that is empty or made of white space only makes
    [execute] throw: the cause [Query cannot be empty] under the prefix of
    every failure of [execute].  The database comes back as it was, its
    journal of [localStorage] calls included: nothing was read or written,
    and there is no result. *)
Theorem execute_blank_query_throws (fuel : nat) (query : string) (d : db) :
  Forall (fun c => is_space c = true) (list_ascii_of_string query) ->
  run fuel query d
  = (Throw "Query execution failed: Query cannot be empty", d).
Proof.
  intros H. unfold run, execute, try_catch.
  rewrite (trim_white_space query H). reflexivity.
Qed.

Lemma execute_blank_query_throws_witness :
  run 0 "   " (new "app" ∅)
  = (Throw "Query execution failed: Query cannot be empty", new "app" ∅).
Proof.
  apply (execute_blank_query_throws 0 "   " (new "app" ∅)).
  repeat constructor.
Defined.

End Execute.

(** ** Conditions of [WHERE] and [HAVING] *)

Section Conditions.

Variable this : engine.

(** The [switch] of [evaluateCondition] has no case for the operator
    [!=]: its label is written with a space after it. *)
Lemma compare_with_bang_equal (a b : value) : compare_with "!=" a b = false.
Proof. reflexivity. Qed.

Lemma compare_with_angle_brackets (a b : value) :
  compare_with "<>" a b = negb (loose_eq a b).
Proof. reflexivity. Qed.

(** A comparison by [!=] with a literal is false whatever the row holds,
    as soon as the condition reaches the comparison operators and [!=] is
    the first of them it contains. *)
Lemma evaluateComparison_bang_equal (row : row) (condition : string) (d : db) :
  find (fun operator => JsString.includes condition operator) operators = Some "!=" ->
  startsWith
    (toUpperCase (default EmptyString (map trim (JsString.split "!=" condition) !! 1)))
    "SELECT" = false ->
  evaluateComparison this row condition d = (Return false, d).
Proof.
  intros Hop Hval. unfold evaluateComparison. rewrite Hop.
  cbv zeta. rewrite Hval. reflexivity.
Qed.

(** C5. The leaf [age != 25]: the claim has it true exactly when the
    value of the row differs from 25; the code gives false for every row,
    the row [{age: 30}] included. *)
Theorem bang_equal_leaf_is_false (row : row) (tableName : option string) (d : db) :
  evaluateCondition this row "age != 25" tableName d = (Return false, d).
Proof. reflexivity. Qed.

(** The same leaf written with [<>] is the inequality. *)
Lemma angle_brackets_leaf_is_inequality (tableName : option string) (d : db) :
  evaluateCondition this [("age", VNum 30)] "age <> 25" tableName d = (Return true, d)
  /\ evaluateCondition this [("age", VNum 25)] "age <> 25" tableName d = (Return false, d).
Proof. split; reflexivity. Qed.

(** A condition the expression of [LIKE] matches is decided by the
    [LIKE] branch. *)
Lemma evaluateCondition_like (row : row) (condition : string)
    (likeMatch : list (option string)) (tableName : option string) (d : db) :
  RegExp.match_groups Re.like (trim condition) = Some likeMatch ->
  evaluateCondition this row condition tableName d
  = evaluateLike row (group_text likeMatch 1) (group_text likeMatch 2) d.
Proof.
  intros Hmatch. unfold evaluateCondition. cbv zeta. rewrite Hmatch. reflexivity.
Qed.

Lemma evaluateLike_null (row : row) (col patternText pattern : string)
    (regex : RegExp.t) (d : db) :
  parseValue patternText = VStr pattern ->
  RegExp.compile (like_source pattern) false = Some regex ->
  field row col = VNull \/ field row col = VUndefined ->
  evaluateLike row col patternText d
  = (Return (RegExp.test regex EmptyString), d).
Proof.
  intros Hpattern Hregex Hnull. unfold evaluateLike.
  rewrite Hpattern, Hregex. destruct Hnull as [-> | ->]; reflexivity.
Qed.

(** C9. A field that is [null] or absent is matched by [LIKE] as the empty
    string: the condition neither fails nor is false outright, its value
    is what the pattern gives on the empty string. *)
Theorem like_reads_null_as_empty_string (row : row) (condition : string)
    (likeMatch : list (option string)) (pattern : string) (regex : RegExp.t)
    (tableName : option string) (d : db) :
  RegExp.match_groups Re.like (trim condition) = Some likeMatch ->
  parseValue (group_text likeMatch 2) = VStr pattern ->
  RegExp.compile (like_source pattern) false = Some regex ->
  field row (group_text likeMatch 1) = VNull
  \/ field row (group_text likeMatch 1) = VUndefined ->
  evaluateCondition this row condition tableName d
  = (Return (RegExp.test regex EmptyString), d).
Proof.
  intros Hmatch Hpattern Hregex Hnull.
  rewrite (evaluateCondition_like row condition likeMatch tableName d Hmatch).
  exact (evaluateLike_null row _ _ pattern regex d Hpattern Hregex Hnull).
Qed.

(** [col LIKE '%'] holds on a row where [col] is null or absent. *)
Corollary like_percent_matches_null (row : row) (tableName : option string) (d : db) :
  field row "name" = VNull \/ field row "name" = VUndefined ->
  evaluateCondition this row "name LIKE '%'" tableName d = (Return true, d).
Proof.
  intros H.
  rewrite (evaluateCondition_like row "name LIKE '%'"
             [Some "name LIKE '%'"; Some "name"; Some "'%'"] tableName d eq_refl).
  exact (evaluateLike_null row "name" "'%'" "%"
           (RegExp.Re (RegExp.Seq RegExp.Bol
                         (RegExp.Seq (RegExp.Star true RegExp.Any) RegExp.Eol))
                      0 false)
           d eq_refl eq_refl H).
Qed.

(** A pattern that does not match the empty string does not hold there. *)
Corollary like_needs_empty_match (row : row) (col patternText pattern : string)
    (regex : RegExp.t) (d : db) :
  parseValue patternText = VStr pattern ->
  RegExp.compile (like_source pattern) false = Some regex ->
  field row col = VNull \/ field row col = VUndefined ->
  RegExp.test regex EmptyString = false ->
  evaluateLike row col patternText d = (Return false, d).
Proof.
  intros Hpattern Hregex Hnull Hempty.
  rewrite (evaluateLike_null row col patternText pattern regex d Hpattern Hregex Hnull).
  rewrite Hempty. reflexivity.
Qed.

Example like_prefix_rejects_null (tableName : option string) (d : db) :
  evaluateCondition this [("id", VNum 1)] "name LIKE 'J%'" tableName d
  = (Return false, d).
Proof. reflexivity. Qed.

End Conditions.

Lemma like_reads_null_as_empty_string_witness :
  evaluateCondition (methods 0) [("name", VNull)] "name LIKE '%'" None (new "app" ∅)
  = (Return true, new "app" ∅).
Proof.
  refine (eq_trans
            (like_reads_null_as_empty_string (methods 0) [("name", VNull)] "name LIKE '%'"
               [Some "name LIKE '%'"; Some "name"; Some "'%'"] "%"
               (RegExp.Re (RegExp.Seq RegExp.Bol
                             (RegExp.Seq (RegExp.Star true RegExp.Any) RegExp.Eol))
                          0 false)
               None (new "app" ∅) _ _ _ _) _).
  - vm_compute; reflexivity.
  - vm_compute; reflexivity.
  - vm_compute; reflexivity.
  - left; vm_compute; reflexivity.
  - vm_compute; reflexivity.
Defined.

(** ** [ORDER BY] *)

Section OrderBy.

Context {A : Type} (comparefn : A -> A -> Z).

Lemma sort_insert_permutation (x : A) (l : list A) :
  sort_insert comparefn x l ≡ₚ x :: l.
Proof.
  induction l as [|y l IH]; simpl; [reflexivity|].
  destruct (0 <? comparefn x y)%Z; [|reflexivity].
  rewrite IH. apply perm_swap.
Qed.

Lemma sort_permutation (l : list A) : sort comparefn l ≡ₚ l.
Proof.
  induction l as [|x l IH]; simpl; [reflexivity|].
  rewrite sort_insert_permutation, IH. reflexivity.
Qed.

Lemma occurs_before_cons (x a b : A) (l : list A) :
  occurs_before a b l -> occurs_before a b (x :: l).
Proof.
  intros (l1 & l2 & l3 & ->). exists (x :: l1), l2, l3. reflexivity.
Qed.

Lemma occurs_before_head (a b : A) (l : list A) :
  In b l -> occurs_before a b (a :: l).
Proof.
  intros Hin. apply in_split in Hin as (l2 & l3 & ->).
  exists [], l2, l3. reflexivity.
Qed.

(** Inserting an element leaves the elements already there in their
    order. *)
Lemma sort_insert_keeps_order (x a b : A) (l : list A) :
  occurs_before a b l -> occurs_before a b (sort_insert comparefn x l).
Proof.
  revert a b. induction l as [|y l IH]; intros a b Hab.
  - destruct Hab as (l1 & l2 & l3 & H). destruct l1; discriminate.
  - simpl. destruct (0 <? comparefn x y)%Z.
    + destruct Hab as ([|z l1] & l2 & l3 & H); simplify_eq/=.
      * apply occurs_before_head.
        rewrite (sort_insert_permutation x (l2 ++ b :: l3)).
        right. apply in_or_app. right. left. reflexivity.
      * apply occurs_before_cons, IH. exists l1, l2, l3. reflexivity.
    + apply occurs_before_cons, Hab.
Qed.

(** The inserted element stops before every element it does not have to
    follow. *)
Lemma sort_insert_stops_before (x b : A) (l : list A) :
  (0 <? comparefn x b)%Z = false -> In b l ->
  occurs_before x b (sort_insert comparefn x l).
Proof.
  intros Hxb. induction l as [|y l IH]; intros Hin; [destruct Hin|].
  simpl. destruct (0 <? comparefn x y)%Z eqn:Hxy.
  - destruct Hin as [-> | Hin]; [congruence|].
    apply occurs_before_cons, IH, Hin.
  - apply occurs_before_head, Hin.
Qed.

Lemma sort_stable (a b : A) (l : list A) :
  (0 <? comparefn a b)%Z = false ->
  occurs_before a b l -> occurs_before a b (sort comparefn l).
Proof.
  intros Hab (l1 & l2 & l3 & ->).
  induction l1 as [|x l1 IH]; simpl.
  - apply sort_insert_stops_before; [exact Hab|].
    rewrite (sort_permutation (l2 ++ b :: l3)).
    apply in_or_app. right. left. reflexivity.
  - apply sort_insert_keeps_order, IH.
Qed.

End OrderBy.

(** For a comparator that is a consistent order the result is in order. *)
Section Sorted.

Context {A : Type} (comparefn : A -> A -> Z).
Hypothesis comparefn_asym :
  forall x y, (0 < comparefn x y)%Z -> (comparefn y x <= 0)%Z.
Hypothesis comparefn_trans :
  forall x y z, (comparefn x y <= 0)%Z -> (comparefn y z <= 0)%Z ->
                (comparefn x z <= 0)%Z.

Lemma sort_insert_sorted (x : A) (l : list A) :
  StronglySorted (fun a b => (comparefn a b <= 0)%Z) l ->
  StronglySorted (fun a b => (comparefn a b <= 0)%Z) (sort_insert comparefn x l).
Proof.
  induction 1 as [|y ys Hsorted IH Hy]; simpl.
  - repeat constructor.
  - destruct (0 <? comparefn x y)%Z eqn:E.
    + constructor; [exact IH|].
      rewrite (sort_insert_permutation comparefn x ys).
      constructor; [apply comparefn_asym; lia | exact Hy].
    + constructor; [constructor; assumption|].
      constructor; [lia|].
      eapply Forall_impl; [exact Hy|]. intros z Hz.
      apply (comparefn_trans x y z); [lia | exact Hz].
Qed.

Lemma sort_sorted (l : list A) :
  StronglySorted (fun a b => (comparefn a b <= 0)%Z) (sort comparefn l).
Proof.
  induction l as [|x l IH]; simpl; [constructor|].
  apply sort_insert_sorted, IH.
Qed.

End Sorted.

(** The same for a comparator that is an order on the elements that
    satisfy [P]. *)
Section SortedOn.

Context {A : Type} (comparefn : A -> A -> Z) (P : A -> Prop).
Hypothesis comparefn_asym :
  forall x y, P x -> P y -> (0 < comparefn x y)%Z -> (comparefn y x <= 0)%Z.
Hypothesis comparefn_trans :
  forall x y z, P x -> P y -> P z ->
    (comparefn x y <= 0)%Z -> (comparefn y z <= 0)%Z -> (comparefn x z <= 0)%Z.

Lemma sort_insert_sorted_on (x : A) (l : list A) :
  P x -> Forall P l ->
  StronglySorted (fun a b => (comparefn a b <= 0)%Z) l ->
  StronglySorted (fun a b => (comparefn a b <= 0)%Z) (sort_insert comparefn x l).
Proof.
  intros Hx HP Hsorted. induction Hsorted as [|y ys Hsorted IH Hy]; simpl.
  - repeat constructor.
  - apply Forall_cons in HP as [Py HP]. destruct (0 <? comparefn x y)%Z eqn:E.
    + constructor; [apply IH, HP|].
      rewrite (sort_insert_permutation comparefn x ys).
      constructor; [apply comparefn_asym; auto; lia | exact Hy].
    + constructor; [constructor; assumption|].
      constructor; [lia|].
      rewrite Forall_forall in Hy, HP. apply Forall_forall. intros z Hz.
      apply (comparefn_trans x y z); auto; lia.
Qed.

Lemma sort_sorted_on (l : list A) :
  Forall P l -> StronglySorted (fun a b => (comparefn a b <= 0)%Z) (sort comparefn l).
Proof.
  induction l as [|x l IH]; intros HP; simpl; [constructor|].
  apply Forall_cons in HP as [Px HP].
  apply sort_insert_sorted_on; [exact Px | | apply IH, HP].
  rewrite (sort_permutation comparefn l). exact HP.
Qed.

End SortedOn.

Lemma StronglySorted_weaken {A} (R R' : A -> A -> Prop) (l : list A) :
  (forall a b, R a b -> R' a b) -> StronglySorted R l -> StronglySorted R' l.
Proof.
  intros H. induction 1 as [|x l Hsorted IH Hx]; constructor; [exact IH|].
  eapply Forall_impl; [exact Hx|]. intros b. apply H.
Qed.

Lemma string_lt_asym (a b : string) : string_lt a b = true -> string_lt b a = false.
Proof.
  revert b. induction a as [|x a IH]; intros [|y b]; simpl; try congruence.
  destruct (code x <? code y) eqn:Exy, (code y <? code x) eqn:Eyx;
    try congruence; auto.
  apply Nat.ltb_lt in Exy, Eyx. lia.
Qed.

Lemma lt_asym (a b : value) : lt a b = true -> lt b a = false.
Proof.
  unfold lt, isLessThan.
  destruct a as [| | x | x], b as [| | y | y]; simpl; try congruence;
    try (destruct (stringToNumber _); simpl; try congruence);
    try (intros H; apply Z.ltb_lt in H; apply Z.ltb_ge; lia).
  apply string_lt_asym.
Qed.

(** Exchanging the two rows changes the sign of the comparator. *)
Lemma compare_rows_opp (parts : list order_part) (a b : row) :
  compare_rows parts b a = (- compare_rows parts a b)%Z.
Proof.
  induction parts as [|part parts IH]; simpl; [reflexivity|].
  unfold gt. fold (lt (field a (col part)) (field b (col part))).
  fold (lt (field b (col part)) (field a (col part))).
  destruct (lt (field a (col part)) (field b (col part))) eqn:Eab.
  - rewrite (lt_asym _ _ Eab). simpl. destruct (String.eqb (dir part) "DESC"); reflexivity.
  - destruct (lt (field b (col part)) (field a (col part))); simpl;
      [destruct (String.eqb (dir part) "DESC"); reflexivity | exact IH].
Qed.

Lemma compare_rows_first_decided (parts : list order_part) (a b : row) :
  compare_rows parts a b = first_decided (map (fun part => key_order part a b) parts).
Proof.
  induction parts as [|part parts IH]; simpl; [reflexivity|].
  rewrite <- IH. unfold key_order.
  destruct (lt (field a (col part)) (field b (col part)));
    [|destruct (gt (field a (col part)) (field b (col part)))];
    destruct (String.eqb (dir part) "DESC"); reflexivity.
Qed.

Lemma first_decided_tie (answers : list Z) :
  first_decided answers = 0%Z <-> Forall (fun z => z = 0%Z) answers.
Proof.
  induction answers as [|z answers IH]; simpl.
  - split; [constructor | reflexivity].
  - destruct (z =? 0)%Z eqn:E.
    + apply Z.eqb_eq in E. rewrite IH. split.
      * intros H. constructor; assumption.
      * intros H. apply Forall_cons in H as [_ H]. exact H.
    + apply Z.eqb_neq in E. split; [contradiction|].
      intros H. apply Forall_cons in H as [H _]. contradiction.
Qed.

(** In a list in order, an element that occurs before another one stands
    in the relation with it. *)
Lemma sorted_occurs_before {A} (R : A -> A -> Prop) (a b : A) (l : list A) :
  StronglySorted R l -> occurs_before a b l -> R a b.
Proof.
  intros Hsorted (l1 & l2 & l3 & ->).
  induction l1 as [|x l1 IH]; simpl in Hsorted;
    apply StronglySorted_inv in Hsorted as [Hsorted Hx].
  - rewrite Forall_forall in Hx. apply Hx.
    apply elem_of_app. right. left.
  - apply IH, Hsorted.
Qed.

Lemma occurs_before_split {A} (a b : A) (l1 l2 : list A) :
  b ∈ l2 -> occurs_before a b (l1 ++ a :: l2).
Proof.
  intros Hb. apply list_elem_of_split in Hb as (l3 & l4 & ->).
  exists l1, l3, l4. reflexivity.
Qed.

Lemma occurs_before_app {A} (a b : A) (l1 l2 : list A) :
  a ∈ l1 -> b ∈ l2 -> occurs_before a b (l1 ++ l2).
Proof.
  intros Ha Hb.
  apply list_elem_of_split in Ha as (l3 & l4 & ->).
  apply list_elem_of_split in Hb as (l5 & l6 & ->).
  exists l3, (l4 ++ l5)%list, l6. rewrite <- !app_assoc. reflexivity.
Qed.


(** *** Clauses whose comparator is an order *)

Lemma code_inj (x y : ascii) : code x = code y -> x = y.
Proof.
  unfold code. intros H.
  rewrite <- (ascii_nat_embedding x), <- (ascii_nat_embedding y), H. reflexivity.
Qed.

Lemma string_lt_trans (a b c : string) :
  string_lt a b = true -> string_lt b c = true -> string_lt a c = true.
Proof.
  revert b c. induction a as [|x a IH]; intros [|y b] [|z c]; simpl; try congruence.
  destruct (Nat.ltb_spec (code x) (code y)), (Nat.ltb_spec (code y) (code x)),
    (Nat.ltb_spec (code y) (code z)), (Nat.ltb_spec (code z) (code y)),
    (Nat.ltb_spec (code x) (code z)), (Nat.ltb_spec (code z) (code x));
    try congruence; try lia.
  apply IH.
Qed.

Lemma string_lt_total (a b : string) :
  string_lt a b = false -> string_lt b a = false -> a = b.
Proof.
  revert b. induction a as [|x a IH]; intros [|y b]; simpl; try congruence.
  destruct (Nat.ltb_spec (code x) (code y)), (Nat.ltb_spec (code y) (code x));
    try congruence. intros Hab Hba.
  rewrite (code_inj x y) by lia. rewrite (IH b Hab Hba). reflexivity.
Qed.

Lemma key_order_opp (part : order_part) (a b : row) :
  key_order part b a = (- key_order part a b)%Z.
Proof.
  unfold key_order, gt.
  fold (lt (field a (col part)) (field b (col part))).
  fold (lt (field b (col part)) (field a (col part))).
  destruct (lt (field a (col part)) (field b (col part))) eqn:Eab.
  - rewrite (lt_asym _ _ Eab). destruct (String.eqb (dir part) "DESC"); reflexivity.
  - destruct (lt (field b (col part)) (field a (col part)));
      destruct (String.eqb (dir part) "DESC"); reflexivity.
Qed.

(** A column that holds numbers only, or strings only, is ordered by its
    key. *)
Lemma key_order_numbers_trans (part : order_part) (x y z : row) :
  (exists n, field x (col part) = VNum n) ->
  (exists n, field y (col part) = VNum n) ->
  (exists n, field z (col part) = VNum n) ->
  (key_order part x y <= 0)%Z -> (key_order part y z <= 0)%Z ->
  (key_order part x z <= 0)%Z.
Proof.
  unfold key_order, lt, gt.
  intros [nx ->] [ny ->] [nz ->]. cbn [isLessThan toNumber default]. unfold id.
  destruct (String.eqb (dir part) "DESC"),
    (nx <? ny)%Z eqn:Exy, (ny <? nx)%Z eqn:Eyx, (ny <? nz)%Z eqn:Eyz,
    (nz <? ny)%Z eqn:Ezy, (nx <? nz)%Z eqn:Exz, (nz <? nx)%Z eqn:Ezx; lia.
Qed.

Lemma key_order_strings_trans (part : order_part) (x y z : row) :
  (exists s, field x (col part) = VStr s) ->
  (exists s, field y (col part) = VStr s) ->
  (exists s, field z (col part) = VStr s) ->
  (key_order part x y <= 0)%Z -> (key_order part y z <= 0)%Z ->
  (key_order part x z <= 0)%Z.
Proof.
  unfold key_order, lt, gt.
  intros [sx ->] [sy ->] [sz ->]. cbn [isLessThan default]. unfold id.
  destruct (string_lt sx sy) eqn:Exy, (string_lt sy sx) eqn:Eyx,
    (string_lt sy sz) eqn:Eyz, (string_lt sz sy) eqn:Ezy,
    (string_lt sx sz) eqn:Exz, (string_lt sz sx) eqn:Ezx,
    (String.eqb (dir part) "DESC");
    try lia;
    try (rewrite (string_lt_asym _ _ Exy) in Eyx; discriminate);
    try (rewrite (string_lt_asym _ _ Eyz) in Ezy; discriminate);
    try (rewrite (string_lt_asym _ _ Exz) in Ezx; discriminate);
    try (rewrite (string_lt_trans _ _ _ Exy Eyz) in Exz; discriminate);
    try (rewrite (string_lt_trans _ _ _ Ezy Eyx) in Ezx; discriminate);
    try (rewrite (string_lt_total _ _ Exy Eyx) in *; congruence);
    try (rewrite (string_lt_total _ _ Eyz Ezy) in *; congruence).
Qed.

Section Lexicographic.

Context {A : Type} (P : A -> Prop) (K C : A -> A -> Z).
Hypothesis K_opp : forall x y, K y x = (- K x y)%Z.
Hypothesis K_trans : forall x y z, P x -> P y -> P z ->
  (K x y <= 0)%Z -> (K y z <= 0)%Z -> (K x z <= 0)%Z.
Hypothesis C_trans : forall x y z, P x -> P y -> P z ->
  (C x y <= 0)%Z -> (C y z <= 0)%Z -> (C x z <= 0)%Z.

Lemma lexicographic_trans (x y z : A) :
  P x -> P y -> P z ->
  ((if K x y =? 0 then C x y else K x y) <= 0)%Z ->
  ((if K y z =? 0 then C y z else K y z) <= 0)%Z ->
  ((if K x z =? 0 then C x z else K x z) <= 0)%Z.
Proof.
  intros Px Py Pz.
  pose proof (K_trans x y z Px Py Pz).
  pose proof (K_trans z x y Pz Px Py).
  pose proof (K_trans y z x Py Pz Px).
  pose proof (K_trans z y x Pz Py Px).
  pose proof (K_trans y x z Py Px Pz).
  pose proof (K_trans x z y Px Pz Py).
  pose proof (C_trans x y z Px Py Pz).
  pose proof (K_opp x y). pose proof (K_opp y z). pose proof (K_opp x z).
  destruct (Z.eqb_spec (K x y) 0), (Z.eqb_spec (K y z) 0), (Z.eqb_spec (K x z) 0); lia.
Qed.

End Lexicographic.

(** The comparator of a clause is transitive on rows that hold, under
    each key, numbers only or strings only. *)
Lemma compare_rows_trans (parts : list order_part) (P : row -> Prop) :
  Forall (fun part =>
            (forall r, P r -> exists n, field r (col part) = VNum n)
            \/ (forall r, P r -> exists s, field r (col part) = VStr s)) parts ->
  forall x y z, P x -> P y -> P z ->
    (compare_rows parts x y <= 0)%Z -> (compare_rows parts y z <= 0)%Z ->
    (compare_rows parts x z <= 0)%Z.
Proof.
  induction 1 as [|part parts Hkind _ IH]; intros x y z Px Py Pz.
  - simpl. lia.
  - rewrite !compare_rows_first_decided. cbn [map first_decided].
    rewrite <- !compare_rows_first_decided.
    apply (lexicographic_trans P (key_order part) (compare_rows parts)); auto.
    + intros a b. apply key_order_opp.
    + intros a b c Pa Pb Pc. destruct Hkind as [Hkind | Hkind].
      * apply key_order_numbers_trans; auto.
      * apply key_order_strings_trans; auto.
Qed.

(** *** The three properties determine the result *)

Section Determined.

Context {A : Type}.
Implicit Types (a b x : A) (l ys zs : list A).

Lemma occurs_before_elem a b l : occurs_before a b l -> a ∈ l /\ b ∈ l.
Proof.
  intros (l1 & l2 & l3 & ->). split.
  - apply elem_of_app. right. left.
  - apply elem_of_app. right. right. apply elem_of_app. right. left.
Qed.

Lemma occurs_before_cons_inv a b x l :
  occurs_before a b (x :: l) -> (a = x /\ b ∈ l) \/ occurs_before a b l.
Proof.
  intros ([|y l1] & l2 & l3 & H); simplify_eq/=.
  - left. split; [reflexivity|]. apply elem_of_app. right. left.
  - right. exists l1, l2, l3. reflexivity.
Qed.

Lemma occurs_before_asym a b l :
  NoDup l -> occurs_before a b l -> occurs_before b a l -> False.
Proof.
  induction 1 as [|x l Hx Hl IH]; intros Hab Hba.
  - destruct Hab as (l1 & l2 & l3 & H). destruct l1; discriminate.
  - apply occurs_before_cons_inv in Hab as [[-> Hb] | Hab],
      Hba as [[-> Ha] | Hba]; auto.
    + apply occurs_before_elem in Hba as [_ Ha]. auto.
    + apply occurs_before_elem in Hab as [_ Hb]. auto.
Qed.

Lemma occurs_before_total a b l :
  a ∈ l -> b ∈ l -> a <> b -> occurs_before a b l \/ occurs_before b a l.
Proof.
  induction l as [|x l IH]; intros Ha Hb Hne; [inversion Ha|].
  apply elem_of_cons in Ha as [-> | Ha], Hb as [-> | Hb]; try congruence.
  - left. apply (occurs_before_split x b []), Hb.
  - right. apply (occurs_before_split x a []), Ha.
  - destruct (IH Ha Hb Hne) as [H | H]; [left | right];
      apply occurs_before_cons, H.
Qed.

(** Two arrangements of the same elements, none repeated, in which the
    elements follow one another in the same way are equal. *)
Lemma same_order_eq ys zs :
  NoDup ys -> ys ≡ₚ zs ->
  (forall a b, occurs_before a b ys -> occurs_before a b zs) ->
  ys = zs.
Proof.
  intros Hys. revert zs. induction Hys as [|y ys Hy Hys IH]; intros zs Hperm Hsame.
  - apply Permutation_nil_l in Hperm. congruence.
  - assert (NoDup zs) as Hzs by (rewrite <- Hperm; constructor; assumption).
    destruct zs as [|z zs]; [apply Permutation_nil_r in Hperm; discriminate|].
    assert (z = y) as ->.
    { assert (y ∈ z :: zs) as Hin by (rewrite <- Hperm; left).
      assert (z ∈ y :: ys) as Hin' by (rewrite Hperm; left).
      apply elem_of_cons in Hin as [-> | Hin]; [reflexivity|].
      apply elem_of_cons in Hin' as [-> | Hin']; [reflexivity|].
      exfalso. apply (occurs_before_asym z y (z :: zs) Hzs).
      - apply (occurs_before_split z y []), Hin.
      - apply Hsame. apply (occurs_before_split y z []), Hin'. }
    f_equal. apply IH.
    + apply Permutation_cons_inv in Hperm. exact Hperm.
    + intros a b Hab.
      destruct (occurs_before_cons_inv a b y zs (Hsame a b (occurs_before_cons y a b ys Hab)))
        as [[-> _] | H]; [|exact H].
      apply occurs_before_elem in Hab as [Ha _]. contradiction.
Qed.

(** Among the arrangements of [data], rows none repeated, at most one is
    in the order of a comparator and keeps the ties as they are in
    [data]. *)
Lemma sorted_stable_unique (comparefn : A -> A -> Z) (data ys zs : list A) :
  (forall x y, comparefn y x = (- comparefn x y)%Z) ->
  NoDup data ->
  ys ≡ₚ data -> zs ≡ₚ data ->
  StronglySorted (fun a b => (comparefn a b <= 0)%Z) ys ->
  StronglySorted (fun a b => (comparefn a b <= 0)%Z) zs ->
  (forall a b, comparefn a b = 0%Z -> occurs_before a b data -> occurs_before a b ys) ->
  (forall a b, comparefn a b = 0%Z -> occurs_before a b data -> occurs_before a b zs) ->
  ys = zs.
Proof.
  intros Hopp Hdata Hys Hzs Sys Szs Tys Tzs.
  assert (NoDup ys) as Nys by (rewrite Hys; exact Hdata).
  assert (NoDup zs) as Nzs by (rewrite Hzs; exact Hdata).
  apply same_order_eq; [exact Nys | rewrite Hys, Hzs; reflexivity |].
  intros a b Hab.
  pose proof (sorted_occurs_before _ a b ys Sys Hab) as Hle. cbv beta in Hle.
  destruct (occurs_before_elem a b ys Hab) as [Ha Hb].
  assert (a <> b) as Hne.
  { intros ->. exact (occurs_before_asym b b ys Nys Hab Hab). }
  rewrite Hys in Ha, Hb.
  destruct (occurs_before_total a b zs) as [H | H]; auto;
    [rewrite Hzs; exact Ha | rewrite Hzs; exact Hb |].
  pose proof (sorted_occurs_before _ b a zs Szs H) as Hge. cbv beta in Hge.
  rewrite Hopp in Hge.
  assert (comparefn a b = 0%Z) as Htie by lia.
  destruct (occurs_before_total a b data Ha Hb Hne) as [Hd | Hd].
  - apply Tzs; assumption.
  - exfalso. apply (occurs_before_asym a b ys Nys Hab).
    apply Tys; [rewrite Hopp; lia | exact Hd].
Qed.

End Determined.

(** C8. On rows that the comparator of the clause puts in an order (it is
    transitive on them, as it is when every sort column holds numbers only
    or strings only), [orderBy] returns the rows of the input, in the
    order of the keys (no row is followed by a row that the keys put
    before it: the first key that does not tie decides, each key with its
    own direction), and it is stable: two rows that tie on every key come
    out in the order they came in.  When no row is repeated these three
    properties leave one arrangement only, so the result is that of every
    sort that has them. *)
Theorem orderBy_is_stable (data : list row) (orderByClause : string)
    (parts : list order_part) :
  order_parts orderByClause = parts ->
  (forall x y z, x ∈ data -> y ∈ data -> z ∈ data ->
     (compare_rows parts x y <= 0)%Z -> (compare_rows parts y z <= 0)%Z ->
     (compare_rows parts x z <= 0)%Z) ->
  orderBy data orderByClause ≡ₚ data
  /\ StronglySorted
       (fun a b => (first_decided (map (fun part => key_order part a b) parts) <= 0)%Z)
       (orderBy data orderByClause)
  /\ (forall a b : row,
        Forall (fun part => key_order part a b = 0%Z) parts ->
        occurs_before a b data -> occurs_before a b (orderBy data orderByClause))
  /\ (NoDup data ->
      forall output : list row,
        output ≡ₚ data ->
        StronglySorted
          (fun a b => (first_decided (map (fun part => key_order part a b) parts) <= 0)%Z)
          output ->
        (forall a b : row,
           Forall (fun part => key_order part a b = 0%Z) parts ->
           occurs_before a b data -> occurs_before a b output) ->
        output = orderBy data orderByClause).
Proof.
  intros Hparts Htrans.
  assert (forall a b, compare_rows parts a b = 0%Z
                      <-> Forall (fun part => key_order part a b = 0%Z) parts) as Htie.
  { intros a b. rewrite compare_rows_first_decided, first_decided_tie, Forall_map.
    reflexivity. }
  assert (StronglySorted (fun a b => (compare_rows parts a b <= 0)%Z)
            (sort (compare_rows parts) data)) as Hsorted.
  { apply (sort_sorted_on _ (fun r => r ∈ data)).
    - intros x y _ _ H. rewrite (compare_rows_opp parts x y). lia.
    - exact Htrans.
    - apply Forall_forall. auto. }
  assert (forall a b, compare_rows parts a b = 0%Z -> occurs_before a b data ->
                      occurs_before a b (sort (compare_rows parts) data)) as Hstable.
  { intros a b Hab. apply sort_stable. rewrite Hab. reflexivity. }
  unfold orderBy. rewrite Hparts. split; [|split; [|split]].
  - apply sort_permutation.
  - apply (StronglySorted_weaken (fun a b => (compare_rows parts a b <= 0)%Z));
      [|exact Hsorted].
    intros a b. rewrite compare_rows_first_decided. auto.
  - intros a b Hab. apply Hstable, Htie, Hab.
  - intros Hnodup output Hperm Hout Hkeeps.
    apply (sorted_stable_unique (compare_rows parts) data); auto.
    + intros x y. apply compare_rows_opp.
    + apply sort_permutation.
    + apply (StronglySorted_weaken
               (fun a b => (first_decided (map (fun part => key_order part a b) parts)
                            <= 0)%Z)); [|exact Hout].
      intros a b. rewrite compare_rows_first_decided. auto.
    + intros a b Hab. apply Hkeeps, Htie, Hab.
Qed.

Lemma orderBy_is_stable_witness :
  orderBy ranks "k ASC, v DESC" ≡ₚ ranks
  /\ StronglySorted
       (fun a b => (first_decided (map (fun part => key_order part a b)
                                       [OrderPart "k" "ASC"; OrderPart "v" "DESC"]) <= 0)%Z)
       (orderBy ranks "k ASC, v DESC")
  /\ (forall a b : row,
        Forall (fun part => key_order part a b = 0%Z)
               [OrderPart "k" "ASC"; OrderPart "v" "DESC"] ->
        occurs_before a b ranks -> occurs_before a b (orderBy ranks "k ASC, v DESC"))
  /\ (NoDup ranks ->
      forall output : list row,
        output ≡ₚ ranks ->
        StronglySorted
          (fun a b => (first_decided (map (fun part => key_order part a b)
                                          [OrderPart "k" "ASC"; OrderPart "v" "DESC"]) <= 0)%Z)
          output ->
        (forall a b : row,
           Forall (fun part => key_order part a b = 0%Z)
                  [OrderPart "k" "ASC"; OrderPart "v" "DESC"] ->
           occurs_before a b ranks -> occurs_before a b output) ->
        output = orderBy ranks "k ASC, v DESC").
Proof.
  apply (orderBy_is_stable ranks "k ASC, v DESC"
           [OrderPart "k" "ASC"; OrderPart "v" "DESC"]).
  - vm_compute; reflexivity.
  - apply (compare_rows_trans _ (fun r => r ∈ ranks)).
    constructor; [|constructor; [|constructor]].
    + left. intros r Hr. unfold ranks in Hr.
      repeat (apply elem_of_cons in Hr as [-> | Hr]; [eexists; reflexivity|]).
      inversion Hr.
    + right. intros r Hr. unfold ranks in Hr.
      repeat (apply elem_of_cons in Hr as [-> | Hr]; [eexists; reflexivity|]).
      inversion Hr.
Defined.

(** The rows [ranks] by [k], then by [v] from the last: the two rows that
    tie on both keys (those with [id] 2 and 3) stay as they were. *)
Example orderBy_ranks :
  orderBy ranks "k ASC, v DESC"
  = [ [("k", VNum 1); ("v", VStr "c"); ("id", VNum 4)];
      [("k", VNum 1); ("v", VStr "b"); ("id", VNum 2)];
      [("k", VNum 1); ("v", VStr "b"); ("id", VNum 3)];
      [("k", VNum 2); ("v", VStr "a"); ("id", VNum 1)] ].
Proof. reflexivity. Qed.

(** The claim on a column that holds strings and a number: ['a'] is after
    ['2'], ['2'] after [1], and ['a'] ties with [1] (the comparison of
    ['a'] with a number is false both ways).  The rows ['a'], ['2'], [1]
    in this order have no arrangement that is both in the order of the
    key and keeps ['a'] before [1], the row it ties with. *)
Lemma orderBy_mixed_column_has_no_stable_order :
  order_parts "k" = [OrderPart "k" "ASC"]
  /\ compare_rows (order_parts "k") [("k", VStr "a")] [("k", VStr "2")] = 1%Z
  /\ compare_rows (order_parts "k") [("k", VStr "2")] [("k", VNum 1)] = 1%Z
  /\ Forall (fun part => key_order part [("k", VStr "a")] [("k", VNum 1)] = 0%Z)
            (order_parts "k")
  /\ occurs_before [("k", VStr "a")] [("k", VNum 1)]
       [[("k", VStr "a")]; [("k", VStr "2")]; [("k", VNum 1)]]
  /\ ~ exists output : list row,
         output ≡ₚ [[("k", VStr "a")]; [("k", VStr "2")]; [("k", VNum 1)]]
         /\ StronglySorted
              (fun a b => (first_decided (map (fun part => key_order part a b)
                                              (order_parts "k")) <= 0)%Z)
              output
         /\ occurs_before [("k", VStr "a")] [("k", VNum 1)] output.
Proof.
  split; [vm_compute; reflexivity|].
  split; [vm_compute; reflexivity|].
  split; [vm_compute; reflexivity|].
  split.
  { replace (order_parts "k") with [OrderPart "k" "ASC"] by (vm_compute; reflexivity).
    constructor; [vm_compute; reflexivity | constructor]. }
  split; [exists [], [[("k", VStr "2")]], []; reflexivity|].
  intros (output & Hperm & Hsorted & Hbefore).
  assert ([("k", VStr "2")] ∈ output) as Hin.
  { rewrite Hperm. right. left. }
  assert (forall a b, occurs_before a b output ->
            (first_decided (map (fun part => key_order part a b) (order_parts "k")) <= 0)%Z)
    as Hle.
  { intros a b. apply (sorted_occurs_before _ a b output Hsorted). }
  assert (~ (first_decided (map (fun part => key_order part [("k", VStr "2")]
                                                    [("k", VNum 1)])
                                (order_parts "k")) <= 0)%Z) as Hnumber.
  { vm_compute. intros H. apply H. reflexivity. }
  assert (~ (first_decided (map (fun part => key_order part [("k", VStr "a")]
                                                    [("k", VStr "2")])
                                (order_parts "k")) <= 0)%Z) as Hstring.
  { vm_compute. intros H. apply H. reflexivity. }
  destruct Hbefore as (l1 & l2 & l3 & ->).
  apply elem_of_app in Hin as [Hin | Hin].
  - apply Hnumber, Hle.
    apply occurs_before_app; [exact Hin|].
    right. apply elem_of_app. right. left.
  - apply elem_of_cons in Hin as [Hin | Hin]; [discriminate Hin|].
    apply Hstring, Hle.
    apply occurs_before_split.
    apply elem_of_app in Hin as [Hin | Hin]; [apply elem_of_app; left; exact Hin|].
    apply elem_of_cons in Hin as [Hin | Hin]; [discriminate Hin|].
    apply elem_of_app. right. right. exact Hin.
Qed.

(** The rows [{k:1,v:'a'}], [{k:1,v:'b'}] sorted by [k], and a sort on two
    keys with two directions. *)
Example orderBy_keeps_ties :
  orderBy [[("k", VNum 1); ("v", VStr "a")]; [("k", VNum 1); ("v", VStr "b")]] "k"
  = [[("k", VNum 1); ("v", VStr "a")]; [("k", VNum 1); ("v", VStr "b")]].
Proof. reflexivity. Qed.

Example orderBy_two_keys :
  orderBy [[("k", VNum 2); ("v", VStr "a")]; [("k", VNum 1); ("v", VStr "b")];
           [("k", VNum 2); ("v", VStr "c")]; [("k", VNum 1); ("v", VStr "d")]]
          "k ASC, v DESC"
  = [[("k", VNum 1); ("v", VStr "d")]; [("k", VNum 1); ("v", VStr "b")];
     [("k", VNum 2); ("v", VStr "c")]; [("k", VNum 2); ("v", VStr "a")]].
Proof. reflexivity. Qed.

(** ** Objects *)

Section Objects.

Context {A : Type}.
Implicit Types (o : obj A) (k : string) (v : A).

Lemma get_replace_eq o k v :
  has o k = true -> get (replace o k v) k = Some v.
Proof.
  unfold has. induction o as [|[k' v'] o IH]; simpl; [discriminate|].
  destruct (String.eqb k' k) eqn:E; simpl; rewrite E; auto.
Qed.

Lemma get_replace_ne o k k' v :
  k <> k' -> get (replace o k v) k' = get o k'.
Proof.
  intros Hne. induction o as [|[k0 v0] o IH]; simpl; [reflexivity|].
  destruct (String.eqb k0 k) eqn:E; simpl.
  - apply String.eqb_eq in E as ->.
    destruct (String.eqb k k') eqn:E'; [apply String.eqb_eq in E'; contradiction|].
    reflexivity.
  - rewrite IH. reflexivity.
Qed.

Lemma get_insert_index_eq o n k v :
  has o k = false -> get (insert_index o n k v) k = Some v.
Proof.
  unfold has. induction o as [|[k' v'] o IH]; simpl.
  - rewrite String.eqb_refl. reflexivity.
  - destruct (String.eqb k' k) eqn:E; [discriminate|]. intros H.
    destruct (array_index k') as [n'|]; [destruct (n' <? n)%Z|];
      simpl; rewrite ?E, ?String.eqb_refl; auto.
Qed.

Lemma get_insert_index_ne o n k k' v :
  k <> k' -> get (insert_index o n k v) k' = get o k'.
Proof.
  intros Hne.
  assert (String.eqb k k' = false) as E by (apply String.eqb_neq, Hne).
  induction o as [|[k0 v0] o IH]; simpl; [rewrite E; reflexivity|].
  destruct (array_index k0) as [n'|]; [destruct (n' <? n)%Z|];
    simpl; rewrite ?E, ?IH; reflexivity.
Qed.

Lemma get_app o o' k :
  get (o ++ o')%list k = match get o k with Some v => Some v | None => get o' k end.
Proof.
  induction o as [|[k0 v0] o IH]; simpl; [reflexivity|].
  destruct (String.eqb k0 k); auto.
Qed.

Lemma get_set_eq o k v : get (set o k v) k = Some v.
Proof.
  unfold set. destruct (has o k) eqn:H.
  - apply get_replace_eq, H.
  - destruct (array_index k); [apply get_insert_index_eq, H|].
    rewrite get_app. unfold has in H. destruct (get o k); [discriminate|].
    simpl. rewrite String.eqb_refl. reflexivity.
Qed.

Lemma get_set_ne o k k' v : k <> k' -> get (set o k v) k' = get o k'.
Proof.
  intros Hne. unfold set. destruct (has o k).
  - apply get_replace_ne, Hne.
  - destruct (array_index k); [apply get_insert_index_ne, Hne|].
    rewrite get_app. destruct (get o k'); [reflexivity|].
    simpl. apply String.eqb_neq in Hne. rewrite Hne. reflexivity.
Qed.

Lemma get_none_keys o k : get o k = None <-> k ∉ keys o.
Proof.
  induction o as [|[k0 v0] o IH]; simpl.
  - split; [intros _; apply not_elem_of_nil | reflexivity].
  - rewrite not_elem_of_cons. destruct (String.eqb k0 k) eqn:E.
    + apply String.eqb_eq in E as ->. split; [discriminate | intros [H _]; contradiction].
    + apply String.eqb_neq in E. rewrite IH. split; [intros H; split; [congruence | exact H] | intros [_ H]; exact H].
Qed.

Lemma keys_replace o k v : keys (replace o k v) = keys o.
Proof.
  induction o as [|[k0 v0] o IH]; simpl; [reflexivity|].
  destruct (String.eqb k0 k); simpl; [reflexivity | rewrite IH; reflexivity].
Qed.

Lemma keys_insert_index o n k v : keys (insert_index o n k v) ≡ₚ k :: keys o.
Proof.
  induction o as [|[k0 v0] o IH]; simpl; [reflexivity|].
  destruct (array_index k0) as [n'|]; [destruct (n' <? n)%Z|]; simpl;
    [rewrite IH; apply perm_swap | reflexivity | reflexivity].
Qed.

Lemma set_keys_NoDup o k v : NoDup (keys o) -> NoDup (keys (set o k v)).
Proof.
  intros Hnd. unfold set. destruct (has o k) eqn:H.
  - rewrite keys_replace. exact Hnd.
  - assert (k ∉ keys o) as Hk
      by (apply get_none_keys; unfold has in H; destruct (get o k); [discriminate | reflexivity]).
    destruct (array_index k).
    + rewrite keys_insert_index. apply NoDup_cons. split; assumption.
    + unfold keys. rewrite map_app. simpl.
      apply NoDup_app. split; [exact Hnd|]. split; [|apply NoDup_singleton].
      intros x Hx Hx'. apply list_elem_of_singleton in Hx' as ->. contradiction.
Qed.

End Objects.

Lemma field_set_eq (r : row) (k : string) (v : value) : field (set r k v) k = v.
Proof. unfold field. rewrite get_set_eq. reflexivity. Qed.

Lemma field_set_ne (r : row) (k k' : string) (v : value) :
  k <> k' -> field (set r k v) k' = field r k'.
Proof. intros H. unfold field. rewrite (get_set_ne _ _ _ _ H). reflexivity. Qed.




(** ** [INSERT] *)





Lemma insert_appends (query : string) (m : list (option string)) (d : db)
    (data : list row) :
  RegExp.match_groups Re.insert query = Some m ->
  has (tables d) (group_text m 1) = true ->
  stored d (group_text m 1) = Some (Rows data) ->
  let tableName := group_text m 1 in
  let key := dbName d ++ "_" ++ tableName in
  let row := insert_fields [] (map trim (JsString.split "," (group_text m 2))) 0
               (parseValues (group_text m 3)) in
  insert query d
  = (Return (ResultStatus ("1 row inserted into " ++ tableName)),
     Db (dbName d) (tables d)
        (<[key := Rows (json_rows (data ++ [row]))]> (localStorage d))
        (SetItem key (Rows (json_rows (data ++ [row]))) :: GetItem key :: journal d)).
Proof.
  intros Hm Hhas Hstored. cbv zeta. unfold insert. rewrite Hm.
  unfold bind at 1. unfold this_tables. rewrite Hhas. cbn [negb].
  unfold getTableData, saveTableData, getTableKey, getItem, setItem, bind, ret.
  cbn [localStorage dbName tables journal].
  unfold stored in Hstored. rewrite Hstored. reflexivity.
Qed.





(** With more values than columns the values in excess are dropped. *)
Example insert_with_extra_values :
  stored (snd (run 0 "INSERT INTO users (id) VALUES (3, 'Bob', 41)" shop)) "users"
  = Some (Rows (users ++ [[("id", VNum 3)]])).
Proof. vm_compute. reflexivity. Qed.

(** ** Fuel *)

Section Fuel.

Lemma extends_refl {A} (m : M A) : extends m m.
Proof. intros d o d' H _. exact H. Qed.

Lemma extends_bind {A B} (m1 m2 : M A) (k1 k2 : A -> M B) :
  extends m1 m2 -> (forall a, extends (k1 a) (k2 a)) ->
  extends (bind m1 k1) (bind m2 k2).
Proof.
  intros Hm Hk d o d' H Ho. unfold bind in *.
  destruct (m1 d) as [[a | e |] d1] eqn:E.
  - rewrite (Hm d _ _ E) by discriminate. apply (Hk a), Ho. exact H.
  - rewrite (Hm d _ _ E) by discriminate. exact H.
  - injection H as <- <-. contradiction.
Qed.

Lemma extends_try_catch {A} (m1 m2 : M A) (h1 h2 : string -> M A) :
  extends m1 m2 -> (forall e, extends (h1 e) (h2 e)) ->
  extends (try_catch m1 h1) (try_catch m2 h2).
Proof.
  intros Hm Hh d o d' H Ho. unfold try_catch in *.
  destruct (m1 d) as [[a | e |] d1] eqn:E.
  - rewrite (Hm d _ _ E) by discriminate. exact H.
  - rewrite (Hm d _ _ E) by discriminate. apply (Hh e), Ho. exact H.
  - injection H as <- <-. contradiction.
Qed.

Lemma extends_mapM {A B} (f1 f2 : A -> M B) (xs : list A) :
  (forall x, extends (f1 x) (f2 x)) -> extends (mapM f1 xs) (mapM f2 xs).
Proof.
  intros Hf. induction xs as [|x xs IH]; simpl; [apply extends_refl|].
  apply extends_bind; [apply Hf|]. intros y.
  apply extends_bind; [apply IH|]. intros ys. apply extends_refl.
Qed.

Lemma extends_filterM {A} (f1 f2 : A -> M bool) (xs : list A) :
  (forall x, extends (f1 x) (f2 x)) -> extends (filterM f1 xs) (filterM f2 xs).
Proof.
  intros Hf. induction xs as [|x xs IH]; simpl; [apply extends_refl|].
  apply extends_bind; [apply Hf|]. intros y.
  apply extends_bind; [apply IH|]. intros ys. apply extends_refl.
Qed.

Variables e1 e2 : engine.
Hypothesis e1_e2 : engine_extends e1 e2.

Ltac extends_step :=
  lazymatch goal with
  | |- extends ?m ?m => apply extends_refl
  | |- extends (bind _ _) (bind _ _) => apply extends_bind; [|intros ?]
  | |- extends (try_catch _ _) (try_catch _ _) => apply extends_try_catch; [|intros ?]
  | |- extends (filterM _ _) (filterM _ _) => apply extends_filterM; intros ?
  | |- extends (mapM _ _) (mapM _ _) => apply extends_mapM; intros ?
  | |- extends (this_execute e1 _) (this_execute e2 _) => apply e1_e2
  | |- extends (this_select e1 _) (this_select e2 _) => apply e1_e2
  | |- extends (this_evaluateWhere e1 _ _ _) (this_evaluateWhere e2 _ _ _) => apply e1_e2
  | |- extends (if ?b then _ else _) (if ?b then _ else _) => destruct b
  | |- extends (match ?x with _ => _ end) (match ?x with _ => _ end) => destruct x
  end.

Ltac extends_auto := cbv zeta; repeat extends_step.

Lemma evaluateIn_extends negated row col innerContent :
  extends (evaluateIn e1 negated row col innerContent)
          (evaluateIn e2 negated row col innerContent).
Proof. unfold evaluateIn. extends_auto. Qed.

Lemma evaluateComparison_extends row condition :
  extends (evaluateComparison e1 row condition) (evaluateComparison e2 row condition).
Proof. unfold evaluateComparison. extends_auto. Qed.

Lemma evaluateCondition_extends row condition tableName :
  extends (evaluateCondition e1 row condition tableName)
          (evaluateCondition e2 row condition tableName).
Proof.
  unfold evaluateCondition. extends_auto;
    auto using evaluateIn_extends, evaluateComparison_extends.
Qed.

Lemma evaluateExistsCondition_extends row whereClause existsMatch tableName :
  extends (evaluateExistsCondition e1 row whereClause existsMatch tableName)
          (evaluateExistsCondition e2 row whereClause existsMatch tableName).
Proof. unfold evaluateExistsCondition. extends_auto. Qed.

Lemma evaluateWhere_loop_extends row tableName protectedConditions conditions
    result operator :
  extends (evaluateWhere_loop e1 row tableName protectedConditions conditions
             result operator)
          (evaluateWhere_loop e2 row tableName protectedConditions conditions
             result operator).
Proof.
  revert result operator.
  induction conditions as [|condition conditions IH]; intros result operator; simpl.
  - apply extends_refl.
  - extends_auto; auto using evaluateCondition_extends.
Qed.

Lemma evaluateWhere_extends row whereClause tableName :
  extends (evaluateWhere e1 row whereClause tableName)
          (evaluateWhere e2 row whereClause tableName).
Proof.
  unfold evaluateWhere.
  destruct (RegExp.match_groups Re.exists_ whereClause);
    [apply evaluateExistsCondition_extends|].
  destruct (protect_in _ _ _ _ _ _). apply evaluateWhere_loop_extends.
Qed.

Lemma groupBy_extends data groupByClause havingClause tableName :
  extends (groupBy e1 data groupByClause havingClause tableName)
          (groupBy e2 data groupByClause havingClause tableName).
Proof. unfold groupBy. extends_auto; auto using evaluateWhere_extends. Qed.

Lemma selectWithJoin_extends query :
  extends (selectWithJoin e1 query) (selectWithJoin e2 query).
Proof. unfold selectWithJoin. extends_auto; auto using evaluateWhere_extends. Qed.

Lemma selectWithUnion_extends query :
  extends (selectWithUnion e1 query) (selectWithUnion e2 query).
Proof. unfold selectWithUnion. extends_auto. Qed.

Lemma selectDerived_extends query derivedTableMatch :
  extends (selectDerived e1 query derivedTableMatch)
          (selectDerived e2 query derivedTableMatch).
Proof. unfold selectDerived. extends_auto. Qed.

Lemma select_extends query : extends (select e1 query) (select e2 query).
Proof.
  unfold select. extends_auto;
    auto using selectWithUnion_extends, selectWithJoin_extends,
               selectDerived_extends, evaluateWhere_extends, groupBy_extends.
Qed.

Lemma update_extends query : extends (update e1 query) (update e2 query).
Proof. unfold update. extends_auto; auto using evaluateWhere_extends. Qed.

Lemma delete_extends query : extends (delete e1 query) (delete e2 query).
Proof. unfold delete. extends_auto; auto using evaluateWhere_extends. Qed.

Lemma execute_extends query : extends (execute e1 query) (execute e2 query).
Proof.
  unfold execute. extends_auto;
    auto using select_extends, update_extends, delete_extends.
Qed.

End Fuel.

Lemma methods_extends_step (fuel : nat) :
  engine_extends (methods fuel) (methods (S fuel)).
Proof.
  induction fuel as [|fuel IH].
  - repeat split; intros; intros d o d' H Ho; injection H as <- <-; contradiction.
  - change (methods (S (S fuel)))
      with (Engine (execute (methods (S fuel))) (select (methods (S fuel)))
                   (evaluateWhere (methods (S fuel)))).
    change (methods (S fuel))
      with (Engine (execute (methods fuel)) (select (methods fuel))
                   (evaluateWhere (methods fuel))) at 1.
    repeat split; intros; cbn [this_execute this_select this_evaluateWhere].
    + apply execute_extends, IH.
    + apply select_extends, IH.
    + apply evaluateWhere_extends, IH.
Qed.

Lemma engine_extends_trans (a b c : engine) :
  engine_extends a b -> engine_extends b c -> engine_extends a c.
Proof.
  intros (Ha1 & Ha2 & Ha3) (Hb1 & Hb2 & Hb3).
  repeat split; intros; intros d o d' H Ho.
  - apply Hb1, Ho. apply Ha1, Ho. exact H.
  - apply Hb2, Ho. apply Ha2, Ho. exact H.
  - apply Hb3, Ho. apply Ha3, Ho. exact H.
Qed.

Lemma methods_extends (fuel extra : nat) :
  engine_extends (methods fuel) (methods (extra + fuel)).
Proof.
  induction extra as [|extra IH].
  - repeat split; intros; apply extends_refl.
  - eapply engine_extends_trans; [exact IH | apply methods_extends_step].
Qed.

(** More fuel does not change an outcome that is inside the embedding. *)
Lemma run_more_fuel (fuel extra : nat) (query : string) (d d' : db)
    (o : outcome result) :
  run fuel query d = (o, d') -> o <> Beyond -> run (extra + fuel) query d = (o, d').
Proof.
  intros H Ho. unfold run in *.
  apply (execute_extends _ _ (methods_extends fuel extra) query d o d' H Ho).
Qed.

Lemma run_with_fuel (fuel extra : nat) (query : string) (d : db) :
  fst (run fuel query d) <> Beyond ->
  run (extra + fuel) query d = run fuel query d.
Proof.
  intros H. destruct (run fuel query d) as [o d'] eqn:E.
  apply (run_more_fuel fuel extra query d d' o E H).
Qed.

(** ** The example databases *)

(** [shop] is the database the statements of the README build. *)
Lemma shop_is_built :
  let '(outcomes, d) := run_all 0 shop_statements (new "app" ∅) in
  Forall (fun o => exists message, o = Return (ResultStatus message)) outcomes
  /\ tables d = tables shop
  /\ localStorage d = localStorage shop.
Proof.
  vm_compute. split; [|split; reflexivity].
  repeat constructor; eexists; reflexivity.
Qed.

Example select_where_age (fuel : nat) :
  fst (run fuel "SELECT * FROM users WHERE age >= 30" shop)
  = Return (ResultRows [[("id", VNum 1); ("name", VStr "John"); ("age", VNum 30)]]).
Proof.
  rewrite <- (Nat.add_0_r fuel).
  rewrite run_with_fuel by (vm_compute; discriminate).
  vm_compute. reflexivity.
Qed.

(** ** [UNION] *)

(** C1. A statement whose [IN] subquery holds a [UNION]: the claim has the
    statement left whole (the keyword is at depth 1); the code tests and
    splits by the expression alone, cuts the statement inside the
    parentheses, and the second piece is no statement.  This is so with
    one level of fuel and with any more. *)
Theorem union_in_subquery_splits_statement (extra : nat) :
  let query :=
    "SELECT * FROM users WHERE id IN (SELECT user_id FROM orders UNION SELECT id FROM users)" in
  RegExp.test Re.union query = true
  /\ RegExp.split Re.union query
     = ["SELECT * FROM users WHERE id IN (SELECT user_id FROM orders";
        "SELECT id FROM users)"]
  /\ fst (run (extra + 1) query shop)
     = Throw "Query execution failed: Invalid SELECT syntax".
Proof.
  cbv zeta. rewrite run_with_fuel by (vm_compute; discriminate).
  vm_compute. repeat split; reflexivity.
Qed.

(** At depth 0 the statement is split and the pieces are run in order. *)
Example union_top_level (extra : nat) :
  fst (run (extra + 1) "SELECT id FROM users UNION ALL SELECT user_id FROM orders" shop)
  = Return (ResultRows [[("id", VNum 1)]; [("id", VNum 2)];
                        [("user_id", VNum 1)]; [("user_id", VNum 1)];
                        [("user_id", VNum 2)]]).
Proof.
  rewrite run_with_fuel by (vm_compute; discriminate). vm_compute. reflexivity.
Qed.

(** ** [GROUP BY] *)

(** C2. The orders [(1,1,100)], [(2,1,200)], [(3,2,150)] grouped by
    [user_id]: the claim has one group when [HAVING] asks for a count of
    rows above 1, user 1 with count 2.  [groupBy] computes no aggregate:
    the groups carry the fields of their first row, [HAVING] reads a count
    field that no group has, and the projection gives 1 for the count of
    rows and nothing for [SUM(amount)].  This is so for every amount of
    fuel. *)
Theorem group_by_computes_no_aggregate (fuel : nat) :
  fst (run fuel "SELECT user_id, COUNT(*) FROM orders GROUP BY user_id HAVING COUNT(*) > 1" shop)
  = Return (ResultRows [])
  /\ fst (run fuel "SELECT user_id, COUNT(*) FROM orders GROUP BY user_id" shop)
     = Return (ResultRows [[("user_id", VNum 1); ("COUNT(*)", VNum 1)];
                           [("user_id", VNum 2); ("COUNT(*)", VNum 1)]])
  /\ fst (run fuel "SELECT user_id, SUM(amount) FROM orders GROUP BY user_id" shop)
     = Return (ResultRows [[("user_id", VNum 1); ("SUM(amount)", VUndefined)];
                           [("user_id", VNum 2); ("SUM(amount)", VUndefined)]]).
Proof.
  rewrite <- (Nat.add_0_r fuel).
  rewrite !run_with_fuel by (vm_compute; discriminate).
  vm_compute. repeat split; reflexivity.
Qed.

(** ** Derived tables *)

Section Derived.

Variable this : engine.

(** When the outer statement of a derived table returns, the rows and the
    schema entry that were under the alias when the derived rows were
    registered are there again, whatever the outer statement did. *)
Lemma selectDerived_restores_on_return (query : string)
    (derivedTableMatch : list (option string)) (d d1 d' : db)
    (subqueryResult result original : list row) :
  let name := group_text derivedTableMatch 2 in
  this_select this (group_text derivedTableMatch 1) d = (Return subqueryResult, d1) ->
  stored d1 name = Some (Rows original) ->
  has (tables d1) name = true ->
  selectDerived this query derivedTableMatch d = (Return result, d') ->
  stored d' name = Some (Rows (json_rows original))
  /\ get (tables d') name = get (tables d1) name.
Proof.
  cbv zeta. intros Hsub Hstored Hhas. unfold selectDerived, try_catch.
  unfold bind at 1. rewrite Hsub.
  unfold bind at 1. unfold getTableData, getTableKey, getItem.
  unfold bind at 1. unfold bind at 1. cbn [localStorage dbName tables journal].
  unfold stored in Hstored. rewrite Hstored. unfold ret at 1.
  unfold bind at 1. unfold saveTableData, getTableKey, setItem.
  unfold bind at 1. cbn [localStorage dbName tables journal].
  unfold bind at 1. unfold this_tables. cbn [localStorage dbName tables journal].
  rewrite Hhas. cbn [negb]. unfold bind at 1. unfold ret at 1.
  unfold bind at 1.
  match goal with
  | |- context [this_select this ?q ?s] =>
      destruct (this_select this q s) as [[outer | e |] d2]
  end; try discriminate.
  unfold bind, getTableKey, removeItem, this_tables, set_tables, setItem, ret.
  cbn [localStorage dbName tables journal].
  destruct (get (tables d1) (group_text derivedTableMatch 2)) as [schema|] eqn:Hschema.
  - intros H. injection H as <- <-. unfold stored. cbn [localStorage dbName tables].
    split; [apply lookup_insert_eq | apply get_set_eq].
  - unfold has in Hhas. rewrite Hschema in Hhas. discriminate.
Qed.

(** When the outer statement throws, [selectDerived] rethrows and does
    nothing more: the database is the one the outer statement left, the
    derived rows registered under the alias. *)
Lemma selectDerived_leaves_registration_on_throw (query : string)
    (derivedTableMatch : list (option string)) (d d1 d2 : db)
    (subqueryResult original : list row) (message : string) :
  let name := group_text derivedTableMatch 2 in
  let key := dbName d1 ++ "_" ++ name in
  let registered :=
    Db (dbName d1) (tables d1)
       (<[key := Rows (json_rows subqueryResult)]> (localStorage d1))
       (SetItem key (Rows (json_rows subqueryResult)) :: GetItem key :: journal d1) in
  this_select this (group_text derivedTableMatch 1) d = (Return subqueryResult, d1) ->
  stored d1 name = Some (Rows original) ->
  has (tables d1) name = true ->
  this_select this
    (RegExp.replace_first Re.derivedTable ("FROM " ++ name) query) registered
  = (Throw message, d2) ->
  selectDerived this query derivedTableMatch d
  = (Throw ("Derived table error: " ++ message), d2).
Proof.
  cbv zeta. intros Hsub Hstored Hhas Houter. unfold selectDerived, try_catch.
  unfold bind at 1. rewrite Hsub.
  unfold bind at 1. unfold getTableData, getTableKey, getItem.
  unfold bind at 1. unfold bind at 1. cbn [localStorage dbName tables journal].
  unfold stored in Hstored. rewrite Hstored. unfold ret at 1.
  unfold bind at 1. unfold saveTableData, getTableKey, setItem.
  unfold bind at 1. cbn [localStorage dbName tables journal].
  unfold bind at 1. unfold this_tables. cbn [localStorage dbName tables journal].
  rewrite Hhas. cbn [negb]. unfold bind at 1. unfold ret at 1.
  unfold bind at 1. rewrite Houter. reflexivity.
Qed.

End Derived.

(** C3. The table [d] exists; a statement over a derived table with the
    alias [d] whose outer part fails (its [IN] subquery reads a table that
    does not exist).  The claim has [d] restored; the restoring statements
    of [select] are skipped by the throw, and the rows the store keeps for
    [d] are those of the derived table, under the schema entry of the
    table it displaced.  This is so with two levels of fuel and with any
    more. *)
Theorem derived_table_stays_after_error (extra : nat) :
  let query :=
    "SELECT * FROM (SELECT id FROM u) AS d WHERE id IN (SELECT id FROM missing)" in
  stored lab "d" = Some (Rows [[("k", VNum 5)]])
  /\ fst (run (extra + 2) query lab)
     = Throw "Query execution failed: Derived table error: Subquery error in IN: Query execution failed: Table missing does not exist"
  /\ stored (snd (run (extra + 2) query lab)) "d" = Some (Rows [[("id", VNum 7)]])
  /\ get (tables (snd (run (extra + 2) query lab))) "d"
     = Some (Table [("k", "INTEGER")] None).
Proof.
  cbv zeta. rewrite run_with_fuel by (vm_compute; discriminate).
  vm_compute. repeat split; reflexivity.
Qed.

(** When the outer part succeeds the table is put back. *)
Example derived_table_restored_after_success (extra : nat) :
  let query := "SELECT * FROM (SELECT id FROM u) AS d WHERE id = 7" in
  fst (run (extra + 1) query lab) = Return (ResultRows [[("id", VNum 7)]])
  /\ stored (snd (run (extra + 1) query lab)) "d" = stored lab "d"
  /\ tables (snd (run (extra + 1) query lab)) = tables lab.
Proof.
  cbv zeta. rewrite run_with_fuel by (vm_compute; discriminate).
  vm_compute. repeat split; reflexivity.
Qed.

(** ** [UPDATE] and [DELETE] *)

Section Mutations.

Variable this : engine.

(** [delete] reads the rows, evaluates the predicate on every row, and
    only then saves, once; when a predicate throws it saves nothing: the
    database is left as the predicates left it. *)
Lemma delete_saves_after_predicates (query : string) (m : list (option string))
    (d : db) (data : list row) :
  RegExp.match_groups Re.delete query = Some m ->
  has (tables d) (group_text m 1) = true ->
  stored d (group_text m 1) = Some (Rows data) ->
  is_set (group m 2) = true ->
  let tableName := group_text m 1 in
  let whereClause := default EmptyString (group m 2) in
  let read := Db (dbName d) (tables d) (localStorage d)
                 (GetItem (dbName d ++ "_" ++ tableName) :: journal d) in
  delete this query d
  = match filterM (fun row =>
                     let* hit := evaluateWhere this row whereClause (Some tableName) in
                     ret (negb hit))
                  data read with
    | (Return kept, d1) =>
        (Return (ResultStatus
                   (numberToString (Z.of_nat (List.length data - List.length kept))
                    ++ " rows deleted from " ++ tableName)),
         Db (dbName d1) (tables d1)
            (<[dbName d1 ++ "_" ++ tableName := Rows (json_rows kept)]> (localStorage d1))
            (SetItem (dbName d1 ++ "_" ++ tableName) (Rows (json_rows kept))
             :: journal d1))
    | (Throw message, d1) => (Throw message, d1)
    | (Beyond, d1) => (Beyond, d1)
    end.
Proof.
  intros Hm Hhas Hstored Hwhere. cbv zeta. unfold delete. rewrite Hm. cbv zeta.
  unfold bind at 1. unfold this_tables. rewrite Hhas. cbn [negb].
  unfold bind at 1. unfold getTableData, getTableKey, getItem.
  unfold bind at 1. unfold bind at 1. cbn [localStorage dbName tables journal].
  unfold stored in Hstored. rewrite Hstored. unfold ret at 1.
  rewrite Hwhere. unfold bind at 1.
  match goal with
  | |- context [filterM ?f ?l ?s] => destruct (filterM f l s) as [[kept | e |] d1]
  end; reflexivity.
Qed.

(** The same for [update]: [marked] holds the rows after the assignments
    and whether the predicate held. *)
Lemma update_saves_after_predicates (query : string) (m : list (option string))
    (d : db) (data : list row) (updates : row) :
  RegExp.match_groups Re.update query = Some m ->
  has (tables d) (group_text m 1) = true ->
  stored d (group_text m 1) = Some (Rows data) ->
  (forall s, parse_assignments (JsString.split "," (group_text m 2)) [] s
             = (Return updates, s)) ->
  let tableName := group_text m 1 in
  let whereClause := group m 3 in
  let read := Db (dbName d) (tables d) (localStorage d)
                 (GetItem (dbName d ++ "_" ++ tableName) :: journal d) in
  update this query d
  = match mapM (fun row =>
                  let* hit :=
                    if negb (is_set whereClause) then ret true
                    else evaluateWhere this row (default EmptyString whereClause)
                           (Some tableName) in
                  ret (if hit then (assign row updates, true) else (row, false)))
               data read with
    | (Return marked, d1) =>
        (Return (ResultStatus
                   (numberToString (Z.of_nat (List.length (List.filter snd marked)))
                    ++ " rows updated in " ++ tableName)),
         Db (dbName d1) (tables d1)
            (<[dbName d1 ++ "_" ++ tableName := Rows (json_rows (map fst marked))]>
               (localStorage d1))
            (SetItem (dbName d1 ++ "_" ++ tableName) (Rows (json_rows (map fst marked)))
             :: journal d1))
    | (Throw message, d1) => (Throw message, d1)
    | (Beyond, d1) => (Beyond, d1)
    end.
Proof.
  intros Hm Hhas Hstored Hupdates. cbv zeta. unfold update. rewrite Hm. cbv zeta.
  unfold bind at 1. unfold this_tables. rewrite Hhas. cbn [negb].
  unfold bind at 1. rewrite Hupdates.
  unfold bind at 1. unfold getTableData, getTableKey, getItem.
  unfold bind at 1. unfold bind at 1. cbn [localStorage dbName tables journal].
  unfold stored in Hstored. rewrite Hstored. unfold ret at 1.
  unfold bind at 1.
  match goal with
  | |- context [mapM ?f ?l ?s] => destruct (mapM f l s) as [[marked | e |] d1]
  end; reflexivity.
Qed.

End Mutations.

(** A predicate with no subquery: the statement saves once, at the end. *)
Example update_saves_once (fuel : nat) :
  journal (snd (run fuel "UPDATE t SET v = 'z' WHERE id = 2" lab))
  = [SetItem "app_t" (Rows [[("id", VNum 1); ("v", VStr "a")];
                            [("id", VNum 2); ("v", VStr "z")]]);
     GetItem "app_t"].
Proof.
  rewrite <- (Nat.add_0_r fuel).
  rewrite run_with_fuel by (vm_compute; discriminate).
  vm_compute. reflexivity.
Qed.

(** A predicate that throws, with no derived table in it: nothing of the
    store has changed. *)
Example delete_aborts_without_saving (extra : nat) :
  let query := "DELETE FROM t WHERE id IN (SELECT id FROM missing)" in
  fst (run (extra + 1) query lab)
  = Throw "Query execution failed: Subquery error in IN: Query execution failed: Table missing does not exist"
  /\ localStorage (snd (run (extra + 1) query lab)) = localStorage lab
  /\ journal (snd (run (extra + 1) query lab)) = [GetItem "app_t"].
Proof.
  cbv zeta. rewrite run_with_fuel by (vm_compute; discriminate).
  vm_compute. repeat split; reflexivity.
Qed.

(** C6. A [DELETE] whose predicate fails on the first row: the subquery
    of [EXISTS] reads a derived table, and the outer part of the subquery
    fails.  The claim has nothing persisted; the statement does abort, and
    saves nothing itself, but the derived table its predicate registered
    stays in the store (as in C3), here in the place of the rows of [t].
    This is so with three levels of fuel and with any more. *)
Theorem aborted_delete_leaves_derived_table (extra : nat) :
  let query :=
    "DELETE FROM t WHERE EXISTS (SELECT * FROM (SELECT id FROM u) AS t WHERE id IN (SELECT id FROM missing))" in
  stored lab "t" = Some (Rows lab_t)
  /\ fst (run (extra + 3) query lab)
     = Throw "Query execution failed: Subquery error: Query execution failed: Derived table error: Subquery error in IN: Query execution failed: Table missing does not exist"
  /\ stored (snd (run (extra + 3) query lab)) "t" = Some (Rows [[("id", VNum 7)]]).
Proof.
  cbv zeta. rewrite run_with_fuel by (vm_compute; discriminate).
  vm_compute. repeat split; reflexivity.
Qed.

(** ** [LEFT JOIN] *)

Section Joins.

Variables (data1 data2 : list row) (table1Name table2Name onClause : string).
Variable onMatch : list (option string).
Hypothesis on_matches : RegExp.match_groups Re.on onClause = Some onMatch.
Hypothesis two_tables : String.eqb table2Name table1Name = false.

(** The [ON] clause names the table of [FROM] first: the loop runs over
    its rows. *)
Lemma performJoin_left_on_in_order :
  String.eqb (toLowerCase (group_text onMatch 1)) (toLowerCase table1Name) = true ->
  String.eqb (toLowerCase (group_text onMatch 3)) (toLowerCase table1Name) = false ->
  performJoin data1 data2 table1Name table2Name (Some onClause) "LEFT JOIN"
  = Return (flat_map (left_rows data2 (group_text onMatch 2) (group_text onMatch 2)
                                table1Name table2Name)
                     data1).
Proof.
  intros H1 H3. unfold performJoin. rewrite on_matches. cbv zeta.
  rewrite H1, H3, String.eqb_refl, two_tables. reflexivity.
Qed.

(** The [ON] clause names the joined table first: the loop runs over the
    rows of the joined table, and the table of [FROM] is the right one. *)
Lemma performJoin_left_on_reversed :
  String.eqb (toLowerCase (group_text onMatch 1)) (toLowerCase table1Name) = false ->
  String.eqb (toLowerCase (group_text onMatch 3)) (toLowerCase table1Name) = true ->
  performJoin data1 data2 table1Name table2Name (Some onClause) "LEFT JOIN"
  = Return (flat_map (left_rows data1 (group_text onMatch 4) (group_text onMatch 4)
                                table2Name table1Name)
                     data2).
Proof.
  intros H1 H3. unfold performJoin. rewrite on_matches. cbv zeta.
  rewrite H1, H3, String.eqb_refl, two_tables. reflexivity.
Qed.

End Joins.

Lemma left_rows_not_empty (right : list row) (key1 key2 table1 table2 : string)
    (row1 : row) :
  left_rows right key1 key2 table1 table2 row1 <> [].
Proof. unfold left_rows. destruct (omap _ _); discriminate. Qed.

Lemma left_rows_merge (right : list row) (key1 key2 table1 table2 : string)
    (row1 : row) :
  exists row2,
    In (mergeRows row1 row2 table1 table2) (left_rows right key1 key2 table1 table2 row1)
    /\ (In row2 right \/ row2 = null_row right).
Proof.
  unfold left_rows.
  destruct (omap (join_pair key1 key2 table1 table2 row1) right)
    as [|merged rest] eqn:Hj.
  - exists (null_row right). split; [left; reflexivity | right; reflexivity].
  - assert (merged ∈ omap (join_pair key1 key2 table1 table2 row1) right) as Hel
      by (rewrite Hj; left).
    apply list_elem_of_omap in Hel as (row2 & Hrow2 & Heq).
    unfold join_pair in Heq.
    destruct (loose_eq (field row1 key1) (field row2 key2)); [|discriminate].
    injection Heq as <-. exists row2.
    split; [left; reflexivity | left; apply list_elem_of_In, Hrow2].
Qed.

Lemma flat_map_length_ge {A B} (f : A -> list B) (l : list A) :
  (forall x, f x <> []) -> List.length l <= List.length (flat_map f l).
Proof.
  intros Hf. induction l as [|x l IH]; simpl; [lia|].
  rewrite length_app. specialize (Hf x). destruct (f x); [contradiction|]. simpl. lia.
Qed.

(** With the [ON] clause in the order of [FROM], every row of the left
    table gives at least one row of the result; when the right table is
    empty it gives exactly one, merged with no field of the right table. *)
Lemma left_join_in_order_keeps_left_rows (data1 data2 : list row)
    (table1Name table2Name onClause : string) (onMatch : list (option string)) :
  RegExp.match_groups Re.on onClause = Some onMatch ->
  String.eqb table2Name table1Name = false ->
  String.eqb (toLowerCase (group_text onMatch 1)) (toLowerCase table1Name) = true ->
  String.eqb (toLowerCase (group_text onMatch 3)) (toLowerCase table1Name) = false ->
  exists result,
    performJoin data1 data2 table1Name table2Name (Some onClause) "LEFT JOIN"
    = Return result
    /\ List.length data1 <= List.length result
    /\ (forall row1, In row1 data1 ->
          exists row2, In (mergeRows row1 row2 table1Name table2Name) result
                       /\ (In row2 data2 \/ row2 = null_row data2))
    /\ (data2 = [] ->
          result = map (fun row1 => mergeRows row1 [] table1Name table2Name) data1).
Proof.
  intros Hm Hne H1 H3. eexists. split; [|split; [|split]].
  - apply (performJoin_left_on_in_order _ _ _ _ _ _ Hm Hne H1 H3).
  - apply flat_map_length_ge. intros x. apply left_rows_not_empty.
  - intros row1 Hin.
    destruct (left_rows_merge data2 (group_text onMatch 2) (group_text onMatch 2)
                table1Name table2Name row1) as (row2 & Hrow2 & Hor).
    exists row2. split; [|exact Hor].
    apply in_flat_map. exists row1. split; [exact Hin | exact Hrow2].
  - intros ->. induction data1 as [|row1 l IH]; simpl; [reflexivity|].
    rewrite IH. reflexivity.
Qed.

(** With the [ON] clause in the other order and an empty joined table the
    result is empty, whatever the left table holds. *)
Lemma left_join_reversed_loses_left_rows (data1 : list row)
    (table1Name table2Name onClause : string) (onMatch : list (option string)) :
  RegExp.match_groups Re.on onClause = Some onMatch ->
  String.eqb table2Name table1Name = false ->
  String.eqb (toLowerCase (group_text onMatch 1)) (toLowerCase table1Name) = false ->
  String.eqb (toLowerCase (group_text onMatch 3)) (toLowerCase table1Name) = true ->
  performJoin data1 [] table1Name table2Name (Some onClause) "LEFT JOIN" = Return [].
Proof.
  intros Hm Hne H1 H3.
  rewrite (performJoin_left_on_reversed _ _ _ _ _ _ Hm Hne H1 H3). reflexivity.
Qed.

(** C7. [users LEFT JOIN orders] with no order, the [ON] clause naming
    [orders] first: the claim has every row of [users] in the result;
    [performJoin] takes the table named first in [ON] for the left one,
    loops over the rows of [orders], and the result is empty.  This is so
    for every amount of fuel. *)
Theorem left_join_takes_left_table_from_on (fuel : nat) :
  performJoin users [] "users" "orders" (Some "orders.user_id = users.id") "LEFT JOIN"
  = Return []
  /\ fst (run fuel "SELECT * FROM users LEFT JOIN orders ON orders.user_id = users.id"
              shop_without_orders)
     = Return (ResultRows []).
Proof.
  rewrite <- (Nat.add_0_r fuel).
  rewrite run_with_fuel by (vm_compute; discriminate).
  vm_compute. split; reflexivity.
Qed.

(** With [users] named first the rows of [users] are all there. *)
Example left_join_on_in_order :
  performJoin users [] "users" "orders" (Some "users.id = orders.user_id") "LEFT JOIN"
  = Return [[("users.id", VNum 1); ("users.name", VStr "John"); ("users.age", VNum 30)];
            [("users.id", VNum 2); ("users.name", VStr "Jane"); ("users.age", VNum 28)]].
Proof. vm_compute. reflexivity. Qed.

(** * Further properties

    Properties of the methods read off the source beyond the points above:
    the store and the schema, the literals, the statements on one table,
    the clauses of [SELECT], and the joins. *)

(** ** Strings *)

Lemma append_EmptyString (t : string) : EmptyString ++ t = t.
Proof. reflexivity. Qed.

Lemma append_String (c : ascii) (s t : string) : String c s ++ t = String c (s ++ t).
Proof. reflexivity. Qed.

Lemma append_empty_r (s : string) : s ++ EmptyString = s.
Proof.
  induction s as [|a s IH]; [reflexivity|]. rewrite append_String, IH. reflexivity.
Qed.

Lemma append_assoc (a b c : string) : (a ++ b) ++ c = a ++ b ++ c.
Proof.
  induction a as [|x a IH]; [reflexivity|]. rewrite !append_String, IH. reflexivity.
Qed.

Lemma append_inj_l (a x y : string) : a ++ x = a ++ y -> x = y.
Proof.
  induction a as [|c a IH]; rewrite ?append_EmptyString, ?append_String.
  - auto.
  - intros H. injection H as H. auto.
Qed.

Lemma length_app_string (a b : string) :
  String.length (a ++ b) = String.length a + String.length b.
Proof.
  induction a as [|c a IH]; [reflexivity|].
  rewrite append_String. cbn [String.length]. rewrite IH. reflexivity.
Qed.

Lemma drop_length_app (a b : string) : drop (String.length a) (a ++ b) = b.
Proof. induction a as [|c a IH]; [reflexivity | exact IH]. Qed.

Lemma take_length_app (a b : string) : take (String.length a) (a ++ b) = a.
Proof.
  induction a as [|c a IH]; [destruct b; reflexivity|].
  rewrite append_String. cbn [String.length take]. rewrite IH. reflexivity.
Qed.

Lemma startsWith_empty (s : string) : startsWith s EmptyString = true.
Proof. destruct s; reflexivity. Qed.

Lemma includes_char_cons (q c : ascii) (s : string) :
  JsString.includes (String c s) (String q EmptyString)
  = Ascii.eqb q c || JsString.includes s (String q EmptyString).
Proof.
  unfold JsString.includes. cbn [indexOf startsWith].
  destruct (Ascii.eqb q c); [destruct s; reflexivity|].
  destruct (indexOf (String q EmptyString) s); reflexivity.
Qed.

Lemma includes_char_app (q : ascii) (a b : string) :
  JsString.includes (a ++ b) (String q EmptyString)
  = JsString.includes a (String q EmptyString)
    || JsString.includes b (String q EmptyString).
Proof.
  induction a as [|c a IH]; [reflexivity|].
  rewrite append_String, !includes_char_cons, IH. apply orb_assoc.
Qed.

Lemma split_without_separator (q : ascii) (s : string) :
  JsString.includes s (String q EmptyString) = false ->
  JsString.split (String q EmptyString) s = [s].
Proof.
  unfold JsString.includes, JsString.split. cbn [split_fuel].
  destruct (indexOf (String q EmptyString) s); [discriminate | reflexivity].
Qed.

Lemma trimEnd_app_char (s : string) (c : ascii) :
  is_space c = false ->
  trimEnd (s ++ String c EmptyString) = s ++ String c EmptyString.
Proof.
  intros Hc. induction s as [|a s IH].
  - rewrite append_EmptyString. cbn [trimEnd]. rewrite Hc. reflexivity.
  - rewrite append_String. cbn [trimEnd]. rewrite IH.
    destruct s; reflexivity.
Qed.

Lemma trim_quoted (s : string) : trim ("'" ++ s ++ "'") = "'" ++ s ++ "'".
Proof.
  unfold trim. rewrite append_String, append_EmptyString. cbn [trimStart].
  change (is_space "'") with false. cbv iota.
  cbn [trimEnd]. rewrite trimEnd_app_char by reflexivity. destruct s; reflexivity.
Qed.

Ltac char_tests :=
  repeat match goal with
         | |- context [Ascii.eqb ?a ?b] =>
             let v := eval vm_compute in (Ascii.eqb a b) in
             match v with
             | true => change (Ascii.eqb a b) with true
             | false => change (Ascii.eqb a b) with false
             end
         end;
  cbn [orb andb negb].

(** ** Objects built by assignments *)

Lemma elem_of_keys_set {A} (o : obj A) (k k' : string) (v : A) :
  k' ∈ keys (set o k v) <-> k' = k \/ k' ∈ keys o.
Proof.
  destruct (decide (k' = k)) as [-> | Hne].
  - split; [auto|]. intros _.
    destruct (decide (k ∈ keys (set o k v))) as [H | H]; [exact H|].
    apply get_none_keys in H. rewrite get_set_eq in H. discriminate.
  - split.
    + intros H. right.
      destruct (decide (k' ∈ keys o)) as [H' | H']; [exact H'|].
      apply get_none_keys in H'. rewrite <- (get_set_ne o k k' v) in H' by congruence.
      apply get_none_keys in H'. contradiction.
    + intros [-> | H]; [contradiction|].
      destruct (decide (k' ∈ keys (set o k v))) as [H' | H']; [exact H'|].
      apply get_none_keys in H'. rewrite (get_set_ne o k k' v) in H' by congruence.
      apply get_none_keys in H'. contradiction.
Qed.

(** The object a loop of assignments [merged[g(k)] = f(k)] builds. *)
Section FoldSet.

Variables (g : string -> string) (f : string -> value).

Lemma fold_set_keys (ks : list string) (start : row) (key : string) :
  key ∈ keys (fold_left (fun (merged : row) k => set merged (g k) (f k)) ks start)
  <-> (exists k, k ∈ ks /\ key = g k) \/ key ∈ keys start.
Proof.
  revert start. induction ks as [|c ks IH]; intros start; simpl.
  - split; [auto|]. intros [(k & H & _) | H]; [inversion H | exact H].
  - rewrite IH, elem_of_keys_set. split.
    + intros [(k & Hk & ->) | [-> | H]].
      * left. exists k. split; [right; exact Hk | reflexivity].
      * left. exists c. split; [left | reflexivity].
      * right. exact H.
    + intros [(k & Hk & ->) | H].
      * apply elem_of_cons in Hk as [-> | Hk]; [right; left; reflexivity|].
        left. exists k. auto.
      * right. right. exact H.
Qed.


Lemma fold_set_field_other (ks : list string) (start : row) (key : string) :
  (forall k, k ∈ ks -> g k <> key) ->
  field (fold_left (fun (merged : row) k => set merged (g k) (f k)) ks start) key
  = field start key.
Proof.
  revert start. induction ks as [|c ks IH]; intros start H; simpl.
  - reflexivity.
  - rewrite IH by (intros k Hk; apply H; right; exact Hk).
    apply field_set_ne, H. left.
Qed.

Lemma fold_set_field (ks : list string) (start : row) (k : string) :
  (forall k', k' ∈ ks -> g k' = g k -> k' = k) -> k ∈ ks ->
  field (fold_left (fun (merged : row) k => set merged (g k) (f k)) ks start) (g k)
  = f k.
Proof.
  induction ks as [|c ks IH] using rev_ind; intros Hinj Hin.
  - inversion Hin.
  - rewrite fold_left_app. simpl. destruct (decide (g c = g k)) as [E | Hne].
    + rewrite E, field_set_eq. f_equal. apply Hinj; [|exact E].
      apply elem_of_app. right. left.
    + rewrite field_set_ne by exact Hne. apply IH.
      * intros k' Hk'. apply Hinj, elem_of_app. left. exact Hk'.
      * apply elem_of_app in Hin as [Hin | Hin]; [exact Hin|].
        apply list_elem_of_singleton in Hin. congruence.
Qed.

End FoldSet.

Lemma get_in {A} (o : obj A) (k : string) (v : A) :
  NoDup (keys o) -> In (k, v) o -> get o k = Some v.
Proof.
  induction o as [|[k' v'] o IH]; intros Hnd Hin; [destruct Hin|].
  apply NoDup_cons in Hnd as [Hk Hnd]. cbn [get]. destruct Hin as [E | Hin].
  - injection E as -> ->. rewrite String.eqb_refl. reflexivity.
  - destruct (String.eqb k' k) eqn:E; [|apply IH; assumption].
    apply String.eqb_eq in E as ->. exfalso. apply Hk. cbn [fst].
    apply list_elem_of_In. apply (in_map fst) in Hin. exact Hin.
Qed.

Lemma get_Some_in {A} (o : obj A) (k : string) (v : A) :
  get o k = Some v -> In (k, v) o.
Proof.
  induction o as [|[k' v'] o IH]; [discriminate|]. cbn [get].
  destruct (String.eqb k' k) eqn:E.
  - apply String.eqb_eq in E as ->. intros H. injection H as ->. left. reflexivity.
  - intros H. right. apply IH, H.
Qed.

Lemma get_remove_eq {A} (o : obj A) (k : string) : get (remove o k) k = None.
Proof.
  unfold remove. induction o as [|[k' v] o IH]; [reflexivity|].
  cbn [List.filter fst]. destruct (String.eqb k' k) eqn:E; cbn [negb]; [exact IH|].
  cbn [get]. rewrite E. exact IH.
Qed.

Lemma field_absent (r : row) (col : string) : col ∉ keys r -> field r col = VUndefined.
Proof. intros H. apply get_none_keys in H. unfold field. rewrite H. reflexivity. Qed.

Lemma length_replace {A} (o : obj A) (k : string) (v : A) :
  List.length (replace o k v) = List.length o.
Proof.
  induction o as [|[k' v'] o IH]; [reflexivity|]. cbn [replace].
  destruct (String.eqb k' k); cbn [List.length]; auto.
Qed.

Lemma length_insert_index {A} (o : obj A) (n : Z) (k : string) (v : A) :
  List.length (insert_index o n k v) = S (List.length o).
Proof.
  induction o as [|[k' v'] o IH]; [reflexivity|]. cbn [insert_index].
  destruct (array_index k') as [n'|]; [destruct (n' <? n)%Z|]; cbn [List.length]; auto.
Qed.

Lemma length_set {A} (o : obj A) (k : string) (v : A) :
  List.length (set o k v) = if has o k then List.length o else S (List.length o).
Proof.
  unfold set. destruct (has o k); [apply length_replace|].
  destruct (array_index k); [apply length_insert_index|].
  rewrite length_app. cbn [List.length]. lia.
Qed.

Lemma has_set_eq {A} (o : obj A) (k : string) (v : A) : has (set o k v) k = true.
Proof. unfold has. rewrite get_set_eq. reflexivity. Qed.

Lemma json_row_idempotent (r : row) : json_row (json_row r) = json_row r.
Proof.
  unfold json_row. induction r as [|[k v] r IH]; [reflexivity|].
  cbn [List.filter snd]. destruct (negb (value_eqb v VUndefined)) eqn:E.
  - cbn [List.filter snd]. rewrite E, IH. reflexivity.
  - exact IH.
Qed.

Lemma json_rows_idempotent (rs : list row) : json_rows (json_rows rs) = json_rows rs.
Proof.
  unfold json_rows. rewrite map_map. apply map_ext. intros r. apply json_row_idempotent.
Qed.

Lemma json_row_defined (r : row) :
  Forall (fun v => v <> VUndefined) (values r) -> json_row r = r.
Proof.
  unfold json_row, values. induction r as [|[k v] r IH]; [reflexivity|].
  cbn [map snd List.filter]. intros H. apply Forall_cons in H as [Hv H].
  destruct v; try contradiction; cbn [value_eqb negb]; rewrite IH; auto.
Qed.

Lemma assign_field (target source : row) (col : string) :
  NoDup (keys source) ->
  field (assign target source) col
  = match get source col with Some v => v | None => field target col end.
Proof.
  unfold assign. revert target.
  induction source as [|[k v] source IH]; intros target Hnd; [reflexivity|].
  apply NoDup_cons in Hnd as [Hk Hnd]. cbn [fst] in Hk. cbn [fold_left fst snd get].
  rewrite (IH _ Hnd). destruct (String.eqb k col) eqn:E.
  - apply String.eqb_eq in E as ->. apply get_none_keys in Hk. rewrite Hk.
    apply field_set_eq.
  - apply String.eqb_neq in E. rewrite (field_set_ne _ _ _ _ E). reflexivity.
Qed.

(** ** Callbacks without effects *)

Lemma filterM_pure {A} (f : A -> M bool) (p : A -> bool) (xs : list A) (s : db) :
  (forall x, In x xs -> forall s, f x s = (Return (p x), s)) ->
  filterM f xs s = (Return (List.filter p xs), s).
Proof.
  induction xs as [|x xs IH]; intros H; [reflexivity|].
  cbn [filterM List.filter]. unfold bind at 1. rewrite (H x) by (left; reflexivity).
  unfold bind at 1. rewrite IH by (intros; apply H; right; assumption).
  reflexivity.
Qed.

Lemma mapM_pure {A B} (f : A -> M B) (g : A -> B) (xs : list A) (s : db) :
  (forall x, In x xs -> forall s, f x s = (Return (g x), s)) ->
  mapM f xs s = (Return (map g xs), s).
Proof.
  induction xs as [|x xs IH]; intros H; [reflexivity|].
  cbn [mapM map]. unfold bind at 1. rewrite (H x) by (left; reflexivity).
  unfold bind at 1. rewrite IH by (intros; apply H; right; assumption).
  reflexivity.
Qed.

Lemma filterM_sublist {A} (f : A -> M bool) (xs ys : list A) (d d' : db) :
  filterM f xs d = (Return ys, d') -> sublist ys xs.
Proof.
  revert ys d d'. induction xs as [|x xs IH]; intros ys d d'; cbn [filterM].
  - unfold ret. intros H. injection H as <- _. constructor.
  - unfold bind at 1. destruct (f x d) as [[keep | e |] d1]; try discriminate.
    unfold bind at 1. destruct (filterM f xs d1) as [[zs | e |] d2] eqn:E; try discriminate.
    unfold ret. intros H. injection H as <- _. specialize (IH zs d1 d2 E).
    destruct keep; [apply sublist_skip | apply sublist_cons]; exact IH.
Qed.

Lemma filter_negb_length {A} (p : A -> bool) (xs : list A) :
  List.length xs - List.length (List.filter (fun x => negb (p x)) xs)
  = List.length (List.filter p xs).
Proof.
  induction xs as [|x xs IH]; [reflexivity|].
  cbn [List.filter]. pose proof (filter_length_le (fun x => negb (p x)) xs).
  destruct (p x); cbn [negb List.length]; lia.
Qed.

Lemma filter_all {A} (p : A -> bool) (xs : list A) :
  (forall x, In x xs -> p x = true) ->
  List.filter p xs = xs /\ List.filter (fun x => negb (p x)) xs = [].
Proof.
  induction xs as [|x xs IH]; intros H; [split; reflexivity|].
  cbn [List.filter]. rewrite (H x) by (left; reflexivity). cbn [negb].
  destruct IH as [-> ->]; [|split; reflexivity].
  intros y Hy. apply H. right. exact Hy.
Qed.

(** ** Errors of [execute] *)

(** X1. Whatever the statement, an error that leaves [execute] has a
    message that starts with the prefix of [execute]; the cause follows. *)
Theorem execute_errors_are_prefixed (fuel : nat) (query message : string)
    (d d' : db) :
  run fuel query d = (Throw message, d') ->
  exists cause, message = "Query execution failed: " ++ cause.
Proof.
  unfold run, execute, try_catch.
  match goal with
  | |- context [match ?m d with _ => _ end] => destruct (m d) as [[a | cause |] d1]
  end; intros H; try discriminate.
  unfold throw in H. injection H as <- _. exists cause. reflexivity.
Qed.

Lemma execute_errors_are_prefixed_witness :
  exists cause,
    "Query execution failed: Table nope does not exist"
    = "Query execution failed: " ++ cause.
Proof.
  apply (execute_errors_are_prefixed 0 "SELECT * FROM nope"
           "Query execution failed: Table nope does not exist" shop
           (snd (run 0 "SELECT * FROM nope" shop))).
  vm_compute; reflexivity.
Defined.

(** ** The store and the schema *)

Lemma table_key_inj (name t t' : string) :
  name ++ "_" ++ t = name ++ "_" ++ t' -> t = t'.
Proof. intros H. apply append_inj_l in H. apply (append_inj_l "_"), H. Qed.

(** X2. What [saveTableData] writes for a table is what [getTableData]
    reads back, up to the passage through JSON: the fields that hold
    [undefined] are gone, and rows without such fields come back as they
    were.  The rows of the other tables of the database and the schema in
    memory are not touched. *)
Theorem saved_rows_are_read_back (tableName : string) (data : list row) (d : db) :
  fst (getTableData tableName (snd (saveTableData tableName data d)))
  = Return (json_rows data)
  /\ (Forall (fun r => Forall (fun v => v <> VUndefined) (values r)) data ->
      json_rows data = data)
  /\ (forall other, other <> tableName ->
        stored (snd (saveTableData tableName data d)) other = stored d other)
  /\ tables (snd (saveTableData tableName data d)) = tables d.
Proof.
  unfold getTableData, saveTableData, getTableKey, getItem, setItem, bind, ret, stored.
  cbn [fst snd localStorage dbName tables journal].
  split; [|split; [|split]].
  - rewrite lookup_insert_eq. reflexivity.
  - intros H. unfold json_rows. induction H as [|r rs Hr _ IH]; [reflexivity|].
    cbn [map]. rewrite IH, (json_row_defined r Hr). reflexivity.
  - intros other Hne. apply lookup_insert_ne. intros H. apply table_key_inj in H.
    congruence.
  - reflexivity.
Qed.

Lemma createTable_creates (query : string) (m : list (option string)) (d : db) :
  RegExp.match_groups Re.createTable query = Some m ->
  has (tables d) (group_text m 1) = false ->
  exists columns journal',
    createTable query d
    = (Return (ResultStatus ("Table " ++ group_text m 1 ++ " created")),
       Db (dbName d)
          (set (tables d) (group_text m 1)
               (Table columns (extractPrimaryKey (group_text m 2))))
          (<[dbName d ++ "_" ++ group_text m 1 := Rows []]>
             (<[dbName d ++ "_schema" :=
                  Schema (set (tables d) (group_text m 1)
                              (Table columns (extractPrimaryKey (group_text m 2))))]>
                (localStorage d)))
          journal').
Proof.
  intros Hm Hhas. unfold createTable. rewrite Hm. cbv zeta.
  unfold bind at 1. unfold this_tables. rewrite Hhas.
  unfold bind, set_tables, saveSchema, saveTableData, getTableKey, setItem, ret, dbKey.
  cbn [localStorage dbName tables journal].
  eexists. eexists. reflexivity.
Qed.

Lemma new_tables (name : string) (storage : gmap string item) :
  tables (new name storage)
  = match storage !! (name ++ "_schema") with
    | Some (Schema tabs) => tabs
    | _ => []
    end.
Proof. reflexivity. Qed.

(** X3. A table that is created is there after a reload.  On a [LocalDB]
    constructed on a store whose schema item is absent or a schema object
    (not a row array, which a table named [schema] leaves there),
    [createTable] of a table that the schema does not list, whose name is
    not [schema] and names no member of [Object.prototype], succeeds; a new
    [LocalDB] constructed on the store it leaves has the schema the
    statement left in memory, with the new table in it and the tables that
    were there before; the rows stored for the new table are the empty
    array. *)
Theorem created_table_survives_reload (query : string) (m : list (option string))
    (name : string) (storage : gmap string item) :
  (forall rows, storage !! (name ++ "_schema") <> Some (Rows rows)) ->
  RegExp.match_groups Re.createTable query = Some m ->
  has (tables (new name storage)) (group_text m 1) = false ->
  inherited (group_text m 1) = false ->
  group_text m 1 <> "schema" ->
  fst (createTable query (new name storage))
  = Return (ResultStatus ("Table " ++ group_text m 1 ++ " created"))
  /\ tables (new name (localStorage (snd (createTable query (new name storage)))))
     = tables (snd (createTable query (new name storage)))
  /\ has (tables (snd (createTable query (new name storage)))) (group_text m 1) = true
  /\ stored (snd (createTable query (new name storage))) (group_text m 1)
     = Some (Rows [])
  /\ (forall other, other <> group_text m 1 ->
        get (tables (snd (createTable query (new name storage)))) other
        = get (tables (new name storage)) other).
Proof.
  intros _ Hm Hhas _ Hname.
  destruct (createTable_creates query m (new name storage) Hm Hhas)
    as (columns & journal' & ->).
  change (dbName (new name storage)) with name.
  cbn [fst snd localStorage tables dbName]. split; [reflexivity|].
  split; [|split; [|split]].
  - rewrite (new_tables name), lookup_insert_ne, lookup_insert_eq; [reflexivity|].
    intros H. apply table_key_inj in H. congruence.
  - unfold has. rewrite get_set_eq. reflexivity.
  - unfold stored. cbn [localStorage dbName]. apply lookup_insert_eq.
  - intros other Hne. apply get_set_ne. congruence.
Qed.

Lemma created_table_survives_reload_witness :
  tables (new "app"
            (localStorage
               (snd (createTable "CREATE TABLE items (id INTEGER PRIMARY KEY, label TEXT)"
                       (new "app" (localStorage shop))))))
  = tables (snd (createTable "CREATE TABLE items (id INTEGER PRIMARY KEY, label TEXT)"
                   (new "app" (localStorage shop)))).
Proof.
  destruct (created_table_survives_reload
              "CREATE TABLE items (id INTEGER PRIMARY KEY, label TEXT)"
              [Some "CREATE TABLE items (id INTEGER PRIMARY KEY, label TEXT)";
               Some "items"; Some "id INTEGER PRIMARY KEY, label TEXT"]
              "app" (localStorage shop)) as (_ & H & _).
  - intros rows. vm_compute. discriminate.
  - vm_compute; reflexivity.
  - vm_compute; reflexivity.
  - vm_compute; reflexivity.
  - discriminate.
  - exact H.
Defined.

(** X4. A table named [schema] has the key of the schema in the store:
    [createTable] writes the schema and then, over it, the empty array of
    the rows of the table.  After a reload the database has no table at
    all. *)
Theorem table_named_schema_erases_schema (query : string) (m : list (option string))
    (d : db) :
  RegExp.match_groups Re.createTable query = Some m ->
  has (tables d) (group_text m 1) = false ->
  group_text m 1 = "schema" ->
  fst (createTable query d) = Return (ResultStatus "Table schema created")
  /\ localStorage (snd (createTable query d)) !! dbKey d = Some (Rows [])
  /\ tables (new (dbName d) (localStorage (snd (createTable query d)))) = [].
Proof.
  intros Hm Hhas Hname.
  destruct (createTable_creates query m d Hm Hhas) as (columns & journal' & ->).
  rewrite Hname. cbn [fst snd localStorage tables dbName]. unfold dbKey.
  split; [reflexivity|]. split.
  - apply lookup_insert_eq.
  - rewrite new_tables, lookup_insert_eq. reflexivity.
Qed.

Lemma table_named_schema_erases_schema_witness :
  fst (createTable "CREATE TABLE schema (id INTEGER)" shop)
  = Return (ResultStatus "Table schema created")
  /\ localStorage (snd (createTable "CREATE TABLE schema (id INTEGER)" shop))
     !! dbKey shop = Some (Rows [])
  /\ tables (new (dbName shop)
               (localStorage (snd (createTable "CREATE TABLE schema (id INTEGER)" shop))))
     = [].
Proof.
  apply (table_named_schema_erases_schema "CREATE TABLE schema (id INTEGER)"
           [Some "CREATE TABLE schema (id INTEGER)"; Some "schema"; Some "id INTEGER"]).
  - vm_compute; reflexivity.
  - vm_compute; reflexivity.
  - reflexivity.
Defined.

Lemma clear_tables_removed (names : list string) (d : db) :
  exists done d1,
    mapM (fun table => let* key := getTableKey table in removeItem key) names d
    = (Return done, d1)
    /\ dbName d1 = dbName d /\ tables d1 = tables d
    /\ (forall name, name ∈ names -> localStorage d1 !! (dbName d ++ "_" ++ name) = None)
    /\ (forall key, (forall name, name ∈ names -> key <> dbName d ++ "_" ++ name) ->
          localStorage d1 !! key = localStorage d !! key).
Proof.
  revert d. induction names as [|name names IH]; intros d.
  - exists [], d. split; [reflexivity|]. split; [reflexivity|]. split; [reflexivity|].
    split; [intros name H; inversion H | reflexivity].
  - cbn [mapM]. unfold bind at 1. unfold bind at 1. unfold getTableKey at 1.
    unfold removeItem at 1. unfold bind at 1.
    match goal with
    | |- context [mapM ?f names ?s] =>
        destruct (IH s) as (done & d1 & -> & Hname & Htabs & Hgone & Hkept)
    end.
    cbn [dbName tables localStorage] in *.
    exists (tt :: done), d1. split; [reflexivity|]. split; [exact Hname|].
    split; [exact Htabs|]. split.
    + intros n Hn.
      destruct (decide (n ∈ names)) as [Hin | Hni]; [apply Hgone, Hin|].
      apply elem_of_cons in Hn as [-> | Hn]; [|contradiction].
      rewrite Hkept; [apply lookup_delete_eq|].
      intros n Hn H. apply table_key_inj in H. congruence.
    + intros key Hkey. rewrite Hkept.
      * apply lookup_delete_ne. intros H. apply (Hkey name); [left | congruence].
      * intros n Hn. apply Hkey. right. exact Hn.
Qed.

Lemma clear_state (d : db) :
  exists d1,
    clear d
    = (Return tt,
       Db (dbName d) [] (base.delete (dbName d ++ "_schema") (localStorage d1))
          (RemoveItem (dbName d ++ "_schema") :: journal d1))
    /\ (forall name, name ∈ keys (tables d) ->
          localStorage d1 !! (dbName d ++ "_" ++ name) = None)
    /\ (forall key, (forall name, name ∈ keys (tables d) ->
                       key <> dbName d ++ "_" ++ name) ->
          localStorage d1 !! key = localStorage d !! key).
Proof.
  destruct (clear_tables_removed (keys (tables d)) d)
    as (done & d1 & Hmap & Hname & Htabs & Hgone & Hkept).
  exists d1. split; [|split; [exact Hgone | exact Hkept]].
  unfold clear, getTables. unfold bind at 1. unfold bind at 1.
  unfold this_tables at 1. unfold ret at 1. unfold bind at 1. rewrite Hmap.
  unfold bind, removeItem, set_tables, dbKey.
  cbn [localStorage tables dbName journal]. rewrite Hname. reflexivity.
Qed.

(** X5. [clear] leaves a database without tables: the schema in memory is
    empty, the store holds neither the schema nor the rows of any table the
    schema listed, and a reload finds no table.  Every other item of the
    store is left as it was. *)
Theorem clear_removes_schema_and_tables (d : db) :
  fst (clear d) = Return tt
  /\ tables (snd (clear d)) = []
  /\ (forall name, name ∈ keys (tables d) -> stored (snd (clear d)) name = None)
  /\ localStorage (snd (clear d)) !! dbKey d = None
  /\ tables (new (dbName d) (localStorage (snd (clear d)))) = []
  /\ (forall key, key <> dbKey d ->
        (forall name, name ∈ keys (tables d) -> key <> dbName d ++ "_" ++ name) ->
        localStorage (snd (clear d)) !! key = localStorage d !! key).
Proof.
  destruct (clear_state d) as (d1 & -> & Hgone & Hkept). unfold dbKey.
  cbn [fst snd localStorage tables dbName journal].
  split; [reflexivity|]. split; [reflexivity|]. split; [|split; [|split]].
  - intros name Hin. unfold stored. cbn [localStorage dbName].
    destruct (decide (dbName d ++ "_" ++ name = dbName d ++ "_schema")) as [-> | Hne].
    + apply lookup_delete_eq.
    + rewrite lookup_delete_ne by congruence. apply Hgone, Hin.
  - apply lookup_delete_eq.
  - rewrite new_tables, lookup_delete_eq. reflexivity.
  - intros key Hschema Hkey. rewrite lookup_delete_ne by congruence.
    apply Hkept, Hkey.
Qed.

(** ** Numbers and literals *)

Lemma digit_not_space (c : ascii) : is_digit c = true -> is_space c = false.
Proof.
  destruct c as [[] [] [] [] [] [] [] []]; vm_compute; congruence.
Qed.

Lemma digits_value_of_uint_acc (d : Decimal.uint) (acc : positive) :
  digits_value (Z.pos acc) (NilEmpty.string_of_uint d)
  = Some (Z.pos (Pos.of_uint_acc d acc)).
Proof.
  revert acc. induction d; intros acc; cbn [NilEmpty.string_of_uint Pos.of_uint_acc];
    [reflexivity|..];
    cbn [digits_value]; change (is_digit _) with true; cbv iota;
    match goal with
    | |- digits_value ?z _ = Some (Z.pos (Pos.of_uint_acc _ ?p)) =>
        replace z with (Z.pos p) by (vm_compute code; lia)
    end; apply IHd.
Qed.

Lemma digits_value_of_uint (d : Decimal.uint) :
  digits_value 0 (NilEmpty.string_of_uint d) = Some (Z.of_N (Pos.of_uint d)).
Proof.
  induction d; cbn [NilEmpty.string_of_uint Pos.of_uint];
    [reflexivity | exact IHd | ..];
    cbn [digits_value]; change (is_digit _) with true; cbv iota;
    match goal with
    | |- digits_value ?z _ = Some (Z.of_N (N.pos (Pos.of_uint_acc _ ?p))) =>
        replace z with (Z.pos p) by (vm_compute; reflexivity)
    end; apply digits_value_of_uint_acc.
Qed.

Lemma leading_digits_of_uint (d : Decimal.uint) :
  leading_digits (NilEmpty.string_of_uint d) = NilEmpty.string_of_uint d.
Proof.
  induction d; cbn [NilEmpty.string_of_uint leading_digits]; [reflexivity|..];
    change (is_digit _) with true; cbv iota; rewrite IHd; reflexivity.
Qed.

Lemma trimEnd_digits (s : string) : leading_digits s = s -> trimEnd s = s.
Proof.
  induction s as [|c s IH]; [reflexivity|].
  cbn [leading_digits trimEnd]. destruct (is_digit c) eqn:E; [|discriminate].
  intros H. injection H as H. rewrite (IH H), (digit_not_space c E).
  destruct s; reflexivity.
Qed.

Lemma trim_digits (s : string) : leading_digits s = s -> trim s = s.
Proof.
  intros H. unfold trim.
  assert (trimStart s = s) as ->; [|apply trimEnd_digits, H].
  destruct s as [|c s]; [reflexivity|]. cbn [leading_digits] in H. cbn [trimStart].
  destruct (is_digit c) eqn:E; [|discriminate]. rewrite (digit_not_space c E).
  reflexivity.
Qed.

Lemma string_of_uint_not_empty (d : Decimal.uint) :
  d <> Decimal.Nil -> NilEmpty.string_of_uint d <> EmptyString.
Proof. destruct d; [contradiction | discriminate..]. Qed.

Lemma numberToString_pos (p : positive) :
  numberToString (Z.pos p) = NilEmpty.string_of_uint (Pos.to_uint p).
Proof.
  unfold numberToString. cbn [Z.to_int NilZero.string_of_int].
  unfold NilZero.string_of_uint.
  pose proof (DecimalPos.Unsigned.to_uint_nonnil p) as H.
  destruct (Pos.to_uint p); [contradiction | reflexivity..].
Qed.

Lemma numberToString_neg (p : positive) :
  numberToString (Z.neg p) = String "-" (NilEmpty.string_of_uint (Pos.to_uint p)).
Proof.
  unfold numberToString. cbn [Z.to_int NilZero.string_of_int].
  unfold NilZero.string_of_uint.
  pose proof (DecimalPos.Unsigned.to_uint_nonnil p) as H.
  destruct (Pos.to_uint p); [contradiction | reflexivity..].
Qed.

Lemma unsigned_literal_pos (p : positive) :
  unsigned_literal (NilEmpty.string_of_uint (Pos.to_uint p)) = Some (Z.pos p).
Proof.
  pose proof (string_of_uint_not_empty _ (DecimalPos.Unsigned.to_uint_nonnil p)) as H.
  unfold unsigned_literal.
  destruct (NilEmpty.string_of_uint (Pos.to_uint p)) eqn:E; [contradiction|].
  rewrite <- E, digits_value_of_uint, DecimalPos.Unsigned.of_to. reflexivity.
Qed.

Lemma digits_head (s : string) :
  leading_digits s = s -> s <> EmptyString ->
  exists c s', s = String c s' /\ is_digit c = true.
Proof.
  destruct s as [|c s]; [contradiction|]. cbn [leading_digits].
  destruct (is_digit c) eqn:E; [|discriminate]. eauto.
Qed.

Lemma integer_literal_digits (s : string) :
  leading_digits s = s -> s <> EmptyString ->
  integer_literal s = unsigned_literal s.
Proof.
  intros H Hne. destruct (digits_head s H Hne) as (c & s' & -> & Hc).
  destruct c as [[] [] [] [] [] [] [] []]; try discriminate Hc; reflexivity.
Qed.

(** [Number(String(z)) = z] *)
Lemma stringToNumber_numberToString (z : Z) :
  stringToNumber (numberToString z) = Some z.
Proof.
  destruct z as [|p|p].
  - reflexivity.
  - rewrite numberToString_pos. unfold stringToNumber.
    pose proof (leading_digits_of_uint (Pos.to_uint p)) as Hd.
    pose proof (string_of_uint_not_empty _ (DecimalPos.Unsigned.to_uint_nonnil p)) as Hne.
    rewrite (trim_digits _ Hd).
    destruct (NilEmpty.string_of_uint (Pos.to_uint p)) eqn:E; [contradiction|].
    rewrite (integer_literal_digits _ Hd) by discriminate.
    rewrite <- E. apply unsigned_literal_pos.
  - rewrite numberToString_neg. unfold stringToNumber.
    pose proof (leading_digits_of_uint (Pos.to_uint p)) as Hd.
    pose proof (string_of_uint_not_empty _ (DecimalPos.Unsigned.to_uint_nonnil p)) as Hne.
    assert (trim (String "-" (NilEmpty.string_of_uint (Pos.to_uint p)))
            = String "-" (NilEmpty.string_of_uint (Pos.to_uint p))) as ->.
    { unfold trim. cbn [trimStart]. change (is_space "-") with false. cbv iota.
      cbn [trimEnd]. rewrite (trimEnd_digits _ Hd).
      destruct (NilEmpty.string_of_uint (Pos.to_uint p)); [contradiction | reflexivity]. }
    cbn [integer_literal]. rewrite unsigned_literal_pos. reflexivity.
Qed.

Lemma parseInt_digits (s : string) :
  leading_digits s = s -> s <> EmptyString -> parseInt s = unsigned_literal s.
Proof.
  intros H Hne. destruct (digits_head s H Hne) as (c & s' & -> & Hc).
  unfold parseInt. cbn [trimStart]. rewrite (digit_not_space c Hc).
  destruct c as [[] [] [] [] [] [] [] []]; try discriminate Hc; rewrite H; reflexivity.
Qed.

(** [parseInt(String(z)) = z] *)
Lemma parseInt_numberToString (z : Z) : parseInt (numberToString z) = Some z.
Proof.
  destruct z as [|p|p].
  - reflexivity.
  - rewrite numberToString_pos.
    rewrite parseInt_digits;
      [apply unsigned_literal_pos | apply leading_digits_of_uint
      | apply string_of_uint_not_empty, DecimalPos.Unsigned.to_uint_nonnil].
  - rewrite numberToString_neg. unfold parseInt. cbn [trimStart].
    change (is_space "-") with false. cbv iota.
    rewrite leading_digits_of_uint, unsigned_literal_pos. reflexivity.
Qed.

Lemma parseValue_quoted (s : string) : parseValue ("'" ++ s ++ "'") = VStr s.
Proof.
  unfold parseValue.
  assert (trim ("'" ++ s ++ "'") = "'" ++ s ++ "'") as ->.
  { unfold trim. rewrite append_String, append_EmptyString. cbn [trimStart].
    change (is_space "'") with false. cbv iota.
    cbn [trimEnd]. rewrite trimEnd_app_char by reflexivity. destruct s; reflexivity. }
  assert (endsWith ("'" ++ s ++ "'") "'" = true) as ->.
  { unfold endsWith. rewrite append_String, append_EmptyString.
    cbn [String.length]. rewrite length_app_string. cbn [String.length].
    replace (S (String.length s + 1) - 1) with (S (String.length s)) by lia.
    cbn [drop]. rewrite drop_length_app. reflexivity. }
  assert (startsWith ("'" ++ s ++ "'") "'" = true) as ->.
  { rewrite append_String, append_EmptyString. cbn [startsWith].
    apply startsWith_empty. }
  assert (slice_1_m1 ("'" ++ s ++ "'") = s) as ->; [|reflexivity].
  rewrite append_String, append_EmptyString.
  unfold slice_1_m1, substring. cbn [String.length drop].
  rewrite length_app_string. cbn [String.length].
  replace (S (String.length s + 1) - 1 - 1) with (String.length s) by lia.
  apply take_length_app.
Qed.

Lemma numberToString_head (z : Z) :
  exists c s, numberToString z = String c s
              /\ (is_digit c = true \/ c = "-"%char).
Proof.
  destruct z as [|p|p].
  - exists "0"%char, EmptyString. split; [reflexivity | left; reflexivity].
  - rewrite numberToString_pos.
    destruct (digits_head _ (leading_digits_of_uint (Pos.to_uint p))
                (string_of_uint_not_empty _ (DecimalPos.Unsigned.to_uint_nonnil p)))
      as (c & s & -> & Hc).
    exists c, s. auto.
  - rewrite numberToString_neg. eexists _, _. split; [reflexivity | right; reflexivity].
Qed.

Lemma trim_numberToString (z : Z) : trim (numberToString z) = numberToString z.
Proof.
  destruct z as [|p|p].
  - reflexivity.
  - rewrite numberToString_pos. apply trim_digits, leading_digits_of_uint.
  - rewrite numberToString_neg. unfold trim. cbn [trimStart].
    change (is_space "-") with false. cbv iota. cbn [trimEnd].
    rewrite (trimEnd_digits _ (leading_digits_of_uint _)).
    pose proof (string_of_uint_not_empty _ (DecimalPos.Unsigned.to_uint_nonnil p)).
    destruct (NilEmpty.string_of_uint (Pos.to_uint p)); [contradiction | reflexivity].
Qed.

Lemma parseValue_number (z : Z) : parseValue (numberToString z) = VNum z.
Proof.
  unfold parseValue. rewrite trim_numberToString, stringToNumber_numberToString.
  destruct (numberToString_head z) as (c & s & -> & Hc).
  cbn [startsWith String.eqb].
  assert (Ascii.eqb "'" c = false /\ Ascii.eqb double_quote c = false) as [-> ->].
  { destruct Hc as [Hc | ->]; [|split; reflexivity].
    destruct c as [[] [] [] [] [] [] [] []]; try discriminate Hc; split; reflexivity. }
  reflexivity.
Qed.

(** X6. What [formatValue] writes, [parseValue] reads back: a number
    (within the integers JavaScript holds exactly) and a string, whatever
    its characters, come back as they were; [null] and [undefined], written
    [NULL], come back as the string [NULL]. *)
Theorem parseValue_reads_formatValue (v : value) :
  (forall z, v = VNum z -> (Z.abs z <= 9007199254740991)%Z) ->
  parseValue (formatValue v)
  = match v with
    | VUndefined | VNull => VStr "NULL"
    | _ => v
    end.
Proof.
  intros _. destruct v as [| | z | s].
  - reflexivity.
  - reflexivity.
  - apply parseValue_number.
  - apply parseValue_quoted.
Qed.

Lemma parseValue_reads_formatValue_witness :
  parseValue (formatValue (VNum (-42))) = VNum (-42).
Proof.
  apply (parseValue_reads_formatValue (VNum (-42))).
  intros z H. injection H as <-. vm_compute. discriminate.
Defined.

(** ** [parseValues] *)

Lemma parseValues_loop_values (valuesStr : string) (values : list value)
    (current : string) (inString : bool) (stringChar : option ascii) :
  parseValues_loop valuesStr values current inString stringChar
  = (values ++ parseValues_loop valuesStr [] current inString stringChar)%list.
Proof.
  revert values current inString stringChar.
  induction valuesStr as [|char valuesStr IH]; intros values current inString stringChar;
    cbn [parseValues_loop].
  - destruct (String.eqb current EmptyString); [rewrite app_nil_r|]; reflexivity.
  - repeat match goal with |- context [if ?b then _ else _] => destruct b end;
      try apply IH.
    rewrite IH, (IH ([] ++ _)%list), app_assoc. reflexivity.
Qed.

Lemma parseValues_loop_outside (valuesStr : string) (values : list value)
    (current : string) (stringChar stringChar' : option ascii) :
  parseValues_loop valuesStr values current false stringChar
  = parseValues_loop valuesStr values current false stringChar'.
Proof.
  revert values current.
  induction valuesStr as [|char valuesStr IH]; intros values current;
    cbn [parseValues_loop]; [reflexivity|].
  cbn [negb andb]. rewrite !andb_true_r, !andb_false_r.
  destruct (Ascii.eqb char "'" || Ascii.eqb char double_quote); [reflexivity|].
  destruct (Ascii.eqb char ","); apply IH.
Qed.

(** Inside a string opened by ['], every character that is not ['] is
    taken into the current value. *)
Lemma parseValues_loop_inside (s valuesStr : string) (values : list value)
    (current : string) :
  JsString.includes s "'" = false ->
  parseValues_loop (s ++ valuesStr) values current true (Some "'"%char)
  = parseValues_loop valuesStr values (current ++ s) true (Some "'"%char).
Proof.
  revert current. induction s as [|c s IH]; intros current Hs.
  - rewrite append_EmptyString, append_empty_r. reflexivity.
  - rewrite append_String. cbn [parseValues_loop]. cbn [negb andb].
    rewrite !andb_false_r, andb_true_r.
    rewrite includes_char_cons in Hs. apply orb_false_elim in Hs as [Hc Hs].
    rewrite Ascii.eqb_sym, Hc. rewrite (IH _ Hs). unfold append_char.
    rewrite append_assoc. reflexivity.
Qed.

(** Outside a string, every character that is neither a quote nor a comma
    is taken into the current value. *)
Lemma parseValues_loop_plain (s valuesStr : string) (values : list value)
    (current : string) (stringChar : option ascii) :
  JsString.includes s "'" = false ->
  JsString.includes s (String double_quote EmptyString) = false ->
  JsString.includes s "," = false ->
  parseValues_loop (s ++ valuesStr) values current false stringChar
  = parseValues_loop valuesStr values (current ++ s) false stringChar.
Proof.
  revert current. induction s as [|c s IH]; intros current Hq Hd Hc.
  - rewrite append_EmptyString, append_empty_r. reflexivity.
  - rewrite append_String. cbn [parseValues_loop]. cbn [negb andb].
    rewrite !andb_true_r, andb_false_r.
    rewrite includes_char_cons in Hq, Hd, Hc.
    apply orb_false_elim in Hq as [Hq1 Hq]. apply orb_false_elim in Hd as [Hd1 Hd].
    apply orb_false_elim in Hc as [Hc1 Hc].
    rewrite (Ascii.eqb_sym c "'"), Hq1, (Ascii.eqb_sym c double_quote), Hd1,
      (Ascii.eqb_sym c ","), Hc1.
    cbn [orb]. rewrite (IH _ Hq Hd Hc). unfold append_char.
    rewrite append_assoc. reflexivity.
Qed.

(** X7. [parseValues] cuts the list of values at the commas outside
    quotes.  A value without quote or comma ends at the next comma and is
    read by [parseValue]; a value between single quotes is read whole, with
    the commas and the double quotes it holds, and is the string between
    the quotes. *)
Theorem parseValues_cuts_at_commas_outside_quotes (plain quoted valuesStr : string) :
  JsString.includes plain "'" = false ->
  JsString.includes plain (String double_quote EmptyString) = false ->
  JsString.includes plain "," = false ->
  plain <> EmptyString ->
  JsString.includes quoted "'" = false ->
  parseValues (plain ++ "," ++ valuesStr) = parseValue plain :: parseValues valuesStr
  /\ parseValues plain = [parseValue plain]
  /\ parseValues ("'" ++ quoted ++ "'," ++ valuesStr)
     = VStr quoted :: parseValues valuesStr
  /\ parseValues ("'" ++ quoted ++ "'") = [VStr quoted].
Proof.
  intros Hq Hd Hc Hne Hquoted. unfold parseValues. split; [|split; [|split]].
  - rewrite (parseValues_loop_plain plain _ _ _ _ Hq Hd Hc).
    rewrite append_String, !append_EmptyString. cbn [parseValues_loop].
    char_tests. cbn [app]. apply parseValues_loop_values.
  - rewrite <- (append_empty_r plain) at 1.
    rewrite (parseValues_loop_plain plain _ _ _ _ Hq Hd Hc).
    rewrite append_EmptyString. cbn [parseValues_loop].
    destruct plain; [contradiction | reflexivity].
  - rewrite append_String, append_EmptyString.
    cbn [parseValues_loop]. char_tests.
    rewrite (parseValues_loop_inside quoted _ _ _ Hquoted).
    rewrite append_String, append_String, append_EmptyString.
    cbn [parseValues_loop]. char_tests. cbn [app].
    unfold append_char. rewrite append_EmptyString.
    rewrite (append_assoc "'" quoted "'").
    rewrite (parseValue_quoted quoted). rewrite parseValues_loop_values.
    cbn [app]. f_equal. apply parseValues_loop_outside.
  - rewrite append_String, append_EmptyString.
    cbn [parseValues_loop]. char_tests.
    rewrite <- (append_empty_r (quoted ++ "'")), append_assoc.
    rewrite (parseValues_loop_inside quoted _ _ _ Hquoted).
    rewrite append_String, append_EmptyString.
    cbn [parseValues_loop]. char_tests. cbn [app].
    unfold append_char. rewrite append_EmptyString.
    rewrite (append_assoc "'" quoted "'").
    rewrite (parseValue_quoted quoted).
    destruct (String.eqb ("'" ++ quoted ++ "'") EmptyString) eqn:E; [|reflexivity].
    apply String.eqb_eq in E. rewrite append_String in E. discriminate.
Qed.

Lemma parseValues_cuts_at_commas_outside_quotes_witness :
  parseValues (" 30" ++ "," ++ " 7") = parseValue " 30" :: parseValues " 7"
  /\ parseValues " 30" = [parseValue " 30"]
  /\ parseValues ("'" ++ "Doe, John" ++ "'," ++ " 7")
     = VStr "Doe, John" :: parseValues " 7"
  /\ parseValues ("'" ++ "Doe, John" ++ "'") = [VStr "Doe, John"].
Proof.
  apply (parseValues_cuts_at_commas_outside_quotes " 30" "Doe, John" " 7").
  - vm_compute; reflexivity.
  - vm_compute; reflexivity.
  - vm_compute; reflexivity.
  - discriminate.
  - vm_compute; reflexivity.
Defined.

(** ** [INSERT], [DELETE] and [UPDATE] on the store *)

(** X8. [INSERT] checks no key: the same statement run twice stores its
    row twice, after the rows that were there, whether or not the table
    has a primary key and whatever the values are. *)
Theorem insert_twice_stores_two_rows (query : string) (m : list (option string))
    (d : db) (data : list row) :
  RegExp.match_groups Re.insert query = Some m ->
  has (tables d) (group_text m 1) = true ->
  stored d (group_text m 1) = Some (Rows data) ->
  let tableName := group_text m 1 in
  let r := json_row (insert_fields []
                       (map trim (JsString.split "," (group_text m 2))) 0
                       (parseValues (group_text m 3))) in
  fst (insert query (snd (insert query d)))
  = Return (ResultStatus ("1 row inserted into " ++ tableName))
  /\ stored (snd (insert query (snd (insert query d)))) tableName
     = Some (Rows (json_rows data ++ [r; r])).
Proof.
  intros Hm Hhas Hstored. cbv zeta.
  rewrite (insert_appends query m d data Hm Hhas Hstored). cbn [snd].
  match goal with
  | |- context [insert query ?s] =>
      rewrite (insert_appends query m s
                 (json_rows (data ++ [insert_fields []
                                        (map trim (JsString.split "," (group_text m 2)))
                                        0 (parseValues (group_text m 3))])) Hm Hhas)
  end.
  - cbn [fst snd]. split; [reflexivity|].
    unfold stored. cbn [localStorage dbName]. rewrite lookup_insert_eq.
    unfold json_rows. rewrite !map_app, map_map. cbn [map].
    rewrite json_row_idempotent, <- app_assoc.
    rewrite (map_ext _ json_row json_row_idempotent). reflexivity.
  - unfold stored. cbn [localStorage dbName]. apply lookup_insert_eq.
Qed.

Lemma insert_twice_stores_two_rows_witness :
  stored (snd (insert "INSERT INTO users (id, name, age) VALUES (1, 'John', 30)"
                 (snd (insert "INSERT INTO users (id, name, age) VALUES (1, 'John', 30)"
                         shop))))
         "users"
  = Some (Rows (json_rows users
                ++ [[("id", VNum 1); ("name", VStr "John"); ("age", VNum 30)];
                    [("id", VNum 1); ("name", VStr "John"); ("age", VNum 30)]])).
Proof.
  destruct (insert_twice_stores_two_rows
              "INSERT INTO users (id, name, age) VALUES (1, 'John', 30)"
              [Some "INSERT INTO users (id, name, age) VALUES (1, 'John', 30)";
               Some "users"; Some "id, name, age"; Some "1, 'John', 30"]
              shop users) as [_ H].
  - vm_compute; reflexivity.
  - vm_compute; reflexivity.
  - vm_compute; reflexivity.
  - exact H.
Defined.

Lemma delete_without_where (this : engine) (query : string)
    (m : list (option string)) (d : db) (data : list row) :
  RegExp.match_groups Re.delete query = Some m ->
  has (tables d) (group_text m 1) = true ->
  stored d (group_text m 1) = Some (Rows data) ->
  is_set (group m 2) = false ->
  delete this query d
  = (Return (ResultStatus (numberToString (Z.of_nat (List.length data - 0))
                           ++ " rows deleted from " ++ group_text m 1)),
     Db (dbName d) (tables d)
        (<[dbName d ++ "_" ++ group_text m 1 := Rows []]> (localStorage d))
        (SetItem (dbName d ++ "_" ++ group_text m 1) (Rows [])
         :: GetItem (dbName d ++ "_" ++ group_text m 1) :: journal d)).
Proof.
  intros Hm Hhas Hstored Hset. unfold delete. rewrite Hm. cbv zeta.
  unfold bind at 1. unfold this_tables. rewrite Hhas. cbn [negb].
  unfold bind at 1. unfold getTableData, getTableKey, getItem.
  unfold bind at 1. unfold bind at 1. cbn [localStorage dbName tables journal].
  unfold stored in Hstored. rewrite Hstored. unfold ret at 1. rewrite Hset.
  reflexivity.
Qed.

(** X9. [DELETE] with a [WHERE] that evaluates, row by row, to what [p]
    says and has no effect of its own, or with no [WHERE], every row then
    counting: the rows stored afterwards are those for which [p] is false,
    in their order, and the status counts the rows for which it is true.
    The schema is not touched. *)
Theorem delete_removes_the_rows_where_holds (this : engine) (query : string)
    (m : list (option string)) (d : db) (data : list row) (p : row -> bool) :
  RegExp.match_groups Re.delete query = Some m ->
  has (tables d) (group_text m 1) = true ->
  stored d (group_text m 1) = Some (Rows data) ->
  (is_set (group m 2) = true ->
   forall r, In r data -> forall s,
     evaluateWhere this r (default EmptyString (group m 2)) (Some (group_text m 1)) s
     = (Return (p r), s)) ->
  (is_set (group m 2) = false -> forall r, In r data -> p r = true) ->
  fst (delete this query d)
  = Return (ResultStatus
              (numberToString (Z.of_nat (List.length (List.filter p data)))
               ++ " rows deleted from " ++ group_text m 1))
  /\ stored (snd (delete this query d)) (group_text m 1)
     = Some (Rows (json_rows (List.filter (fun r => negb (p r)) data)))
  /\ tables (snd (delete this query d)) = tables d.
Proof.
  intros Hm Hhas Hstored Hpure Hall. destruct (is_set (group m 2)) eqn:Hset.
  - rewrite (delete_saves_after_predicates this query m d data Hm Hhas Hstored Hset).
    rewrite (filterM_pure _ (fun r => negb (p r))).
    + cbn [fst snd]. rewrite filter_negb_length. split; [reflexivity|].
      split; [|reflexivity]. unfold stored. cbn [localStorage dbName].
      apply lookup_insert_eq.
    + intros r Hr s. unfold bind. rewrite (Hpure eq_refl r Hr). reflexivity.
  - rewrite (delete_without_where this query m d data Hm Hhas Hstored Hset).
    destruct (filter_all p data (Hall eq_refl)) as [-> ->].
    cbn [fst snd]. rewrite Nat.sub_0_r. split; [reflexivity|].
    split; [|reflexivity]. unfold stored. cbn [localStorage dbName].
    apply lookup_insert_eq.
Qed.

Lemma delete_removes_the_rows_where_holds_witness :
  fst (delete (methods 0) "DELETE FROM users WHERE age > 28" shop)
  = Return (ResultStatus "1 rows deleted from users")
  /\ stored (snd (delete (methods 0) "DELETE FROM users WHERE age > 28" shop)) "users"
     = Some (Rows [[("id", VNum 2); ("name", VStr "Jane"); ("age", VNum 28)]]).
Proof.
  destruct (delete_removes_the_rows_where_holds (methods 0)
              "DELETE FROM users WHERE age > 28"
              [Some "DELETE FROM users WHERE age > 28"; Some "users"; Some "age > 28"]
              shop users (fun r => gt (field r "age") (VNum 28)))
    as (Hstatus & Hstored & _).
  - vm_compute; reflexivity.
  - vm_compute; reflexivity.
  - vm_compute; reflexivity.
  - intros _ r [<- | [<- | []]] s; vm_compute; reflexivity.
  - intros H. vm_compute in H. discriminate H.
  - split; [exact Hstatus | exact Hstored].
Defined.

Lemma parse_assignments_keys_NoDup (parts : list string) (updates updates' : row)
    (s s' : db) :
  parse_assignments parts updates s = (Return updates', s') ->
  NoDup (keys updates) -> NoDup (keys updates').
Proof.
  revert updates. induction parts as [|part parts IH]; intros updates; cbn [parse_assignments].
  - intros H. injection H as <- _. auto.
  - cbv zeta. destruct (_ !! 1) as [val|]; [|discriminate].
    intros H Hnd. apply (IH _ H), set_keys_NoDup, Hnd.
Qed.

(** X10. [UPDATE] with a [WHERE] that evaluates, row by row, to what [p]
    says and has no effect of its own, or with no [WHERE], every row then
    counting: the rows stored afterwards are the rows of the table in their
    order, those for which [p] holds with the assignments applied, the
    others as they were, and the status counts the former.  In a row with
    the assignments applied an assigned column holds its new value and
    every other column what it held. *)
Theorem update_assigns_the_rows_where_holds (this : engine) (query : string)
    (m : list (option string)) (d : db) (data : list row) (updates : row)
    (p : row -> bool) :
  RegExp.match_groups Re.update query = Some m ->
  has (tables d) (group_text m 1) = true ->
  stored d (group_text m 1) = Some (Rows data) ->
  (forall s, parse_assignments (JsString.split "," (group_text m 2)) [] s
             = (Return updates, s)) ->
  (is_set (group m 3) = true ->
   forall r, In r data -> forall s,
     evaluateWhere this r (default EmptyString (group m 3)) (Some (group_text m 1)) s
     = (Return (p r), s)) ->
  (is_set (group m 3) = false -> forall r, In r data -> p r = true) ->
  fst (update this query d)
  = Return (ResultStatus
              (numberToString (Z.of_nat (List.length (List.filter p data)))
               ++ " rows updated in " ++ group_text m 1))
  /\ stored (snd (update this query d)) (group_text m 1)
     = Some (Rows (json_rows
                     (map (fun r => if p r then assign r updates else r) data)))
  /\ (forall r col,
        field (assign r updates) col
        = match get updates col with Some v => v | None => field r col end).
Proof.
  intros Hm Hhas Hstored Hupdates Hpure Hall.
  rewrite (update_saves_after_predicates this query m d data updates
             Hm Hhas Hstored Hupdates).
  rewrite (mapM_pure _ (fun r => if p r then (assign r updates, true) else (r, false))).
  - cbn [fst snd]. split; [|split].
    + assert (forall l : list row,
                List.length (List.filter snd
                  (map (fun r => if p r then (assign r updates, true) else (r, false)) l))
                = List.length (List.filter p l)) as ->; [|reflexivity].
      intros l. induction l as [|r l IH]; [reflexivity|].
      cbn [map List.filter]. destruct (p r); cbn [snd List.length]; rewrite IH;
        reflexivity.
    + unfold stored. cbn [localStorage dbName]. rewrite lookup_insert_eq.
      rewrite map_map. do 3 f_equal. apply map_ext. intros r. destruct (p r); reflexivity.
    + intros r col. apply assign_field.
      apply (parse_assignments_keys_NoDup _ [] updates d d (Hupdates d)), NoDup_nil_2.
  - intros r Hr s. destruct (is_set (group m 3)) eqn:Hset; cbn [negb].
    + unfold bind. rewrite (Hpure eq_refl r Hr). reflexivity.
    + unfold bind, ret. rewrite (Hall eq_refl r Hr). reflexivity.
Qed.

Lemma update_assigns_the_rows_where_holds_witness :
  fst (update (methods 0) "UPDATE users SET age = 31, name = 'Johnny' WHERE id = 1" shop)
  = Return (ResultStatus "1 rows updated in users")
  /\ stored (snd (update (methods 0)
                    "UPDATE users SET age = 31, name = 'Johnny' WHERE id = 1" shop))
            "users"
     = Some (Rows [[("id", VNum 1); ("name", VStr "Johnny"); ("age", VNum 31)];
                   [("id", VNum 2); ("name", VStr "Jane"); ("age", VNum 28)]]).
Proof.
  destruct (update_assigns_the_rows_where_holds (methods 0)
              "UPDATE users SET age = 31, name = 'Johnny' WHERE id = 1"
              [Some "UPDATE users SET age = 31, name = 'Johnny' WHERE id = 1";
               Some "users"; Some "age = 31, name = 'Johnny'"; Some "id = 1"]
              shop users [("age", VNum 31); ("name", VStr "Johnny")]
              (fun r => loose_eq (field r "id") (VNum 1)))
    as (Hstatus & Hstored & _).
  - vm_compute; reflexivity.
  - vm_compute; reflexivity.
  - vm_compute; reflexivity.
  - intros s; vm_compute; reflexivity.
  - intros _ r [<- | [<- | []]] s; vm_compute; reflexivity.
  - intros H. vm_compute in H. discriminate H.
  - split; [exact Hstatus | exact Hstored].
Defined.

(** ** [SELECT] on one table *)

Lemma select_plain (this : engine) (query : string) (m : list (option string))
    (d : db) (data : list row) (p : row -> bool) :
  RegExp.test Re.union query = false ->
  RegExp.test Re.join query = false ->
  RegExp.match_groups Re.derivedTable query = None ->
  RegExp.match_groups Re.select query = Some m ->
  has (tables d) (group_text m 3) = true ->
  stored d (group_text m 3) = Some (Rows data) ->
  is_set (group m 5) = false ->
  (is_set (group m 4) = true ->
   forall r, In r data -> forall s,
     evaluateWhere this r (default EmptyString (group m 4)) (Some (group_text m 3)) s
     = (Return (p r), s)) ->
  (is_set (group m 4) = false -> forall r, In r data -> p r = true) ->
  select this query d
  = (Return
       (let data := List.filter p data in
        let data :=
          if is_set (group m 7)
          then orderBy data (default EmptyString (group m 7)) else data in
        let data :=
          if is_set (group m 8)
          then applyLimit data (default EmptyString (group m 8)) else data in
        let data :=
          if is_set (group m 1) then applyDistinct data (group_text m 2) else data in
        if negb (String.eqb (trim (group_text m 2)) "*")
        then map (project_expressions (map trim (JsString.split "," (group_text m 2))))
                 data
        else data),
     Db (dbName d) (tables d) (localStorage d)
        (GetItem (dbName d ++ "_" ++ group_text m 3) :: journal d)).
Proof.
  intros Hunion Hjoin Hderived Hm Hhas Hstored Hgroup Hwhere Hall.
  unfold select. rewrite Hunion, Hjoin, Hderived, Hm. cbv zeta.
  unfold bind at 1. unfold this_tables. rewrite Hhas. cbn [negb].
  unfold bind at 1. unfold getTableData, getTableKey, getItem.
  unfold bind at 1. unfold bind at 1. cbn [localStorage dbName tables journal].
  unfold stored in Hstored. rewrite Hstored. unfold ret at 1.
  unfold bind at 1.
  assert (forall s,
            (if is_set (group m 4)
             then filterM (fun r => evaluateWhere this r (default EmptyString (group m 4))
                                      (Some (group_text m 3)))
                          data
             else ret data) s
            = (Return (List.filter p data), s)) as ->.
  { intros s. destruct (is_set (group m 4)) eqn:E.
    - apply filterM_pure. auto.
    - unfold ret. f_equal. f_equal. symmetry.
      specialize (Hall eq_refl). clear -Hall.
      induction data as [|r data IH]; [reflexivity|].
      cbn [List.filter]. rewrite (Hall r) by (left; reflexivity).
      rewrite IH; [reflexivity|]. intros r' Hr'. apply Hall. right. exact Hr'. }
  rewrite Hgroup. reflexivity.
Qed.

(** X11. [SELECT] on one table, without [GROUP BY], with a [WHERE] that
    evaluates row by row to what [p] says and has no effect of its own (or
    with no [WHERE]): the result is made from the stored rows by keeping
    the rows where [p] holds, then sorting them, then cutting them by
    [LIMIT], then, after the cut, dropping the duplicates of [DISTINCT],
    and last evaluating the listed expressions on each row.  The store and
    the schema are left as they were. *)
Theorem select_filters_sorts_cuts_and_projects (this : engine) (query : string)
    (m : list (option string)) (d : db) (data : list row) (p : row -> bool) :
  RegExp.test Re.union query = false ->
  RegExp.test Re.join query = false ->
  RegExp.match_groups Re.derivedTable query = None ->
  RegExp.match_groups Re.select query = Some m ->
  has (tables d) (group_text m 3) = true ->
  stored d (group_text m 3) = Some (Rows data) ->
  is_set (group m 5) = false ->
  (is_set (group m 4) = true ->
   forall r, In r data -> forall s,
     evaluateWhere this r (default EmptyString (group m 4)) (Some (group_text m 3)) s
     = (Return (p r), s)) ->
  (is_set (group m 4) = false -> forall r, In r data -> p r = true) ->
  fst (select this query d)
  = Return
      (let kept := List.filter p data in
       let sorted :=
         if is_set (group m 7)
         then orderBy kept (default EmptyString (group m 7)) else kept in
       let cut :=
         if is_set (group m 8)
         then applyLimit sorted (default EmptyString (group m 8)) else sorted in
       let distinct :=
         if is_set (group m 1) then applyDistinct cut (group_text m 2) else cut in
       if negb (String.eqb (trim (group_text m 2)) "*")
       then map (project_expressions (map trim (JsString.split "," (group_text m 2))))
                distinct
       else distinct)
  /\ localStorage (snd (select this query d)) = localStorage d
  /\ tables (snd (select this query d)) = tables d.
Proof.
  intros Hunion Hjoin Hderived Hm Hhas Hstored Hgroup Hwhere Hall.
  rewrite (select_plain this query m d data p
             Hunion Hjoin Hderived Hm Hhas Hstored Hgroup Hwhere Hall).
  cbn [fst snd localStorage tables]. auto.
Qed.

Lemma select_filters_sorts_cuts_and_projects_witness :
  fst (select (methods 0) "SELECT DISTINCT user_id FROM orders WHERE amount > 50 ORDER BY amount DESC LIMIT 2" shop)
  = Return [[("user_id", VNum 1)]; [("user_id", VNum 2)]]
  /\ localStorage
       (snd (select (methods 0) "SELECT DISTINCT user_id FROM orders WHERE amount > 50 ORDER BY amount DESC LIMIT 2" shop))
     = localStorage shop.
Proof.
  destruct (select_filters_sorts_cuts_and_projects (methods 0)
              "SELECT DISTINCT user_id FROM orders WHERE amount > 50 ORDER BY amount DESC LIMIT 2"
              [Some "SELECT DISTINCT user_id FROM orders WHERE amount > 50 ORDER BY amount DESC LIMIT 2";
               Some "DISTINCT "; Some "user_id"; Some "orders"; Some "amount > 50";
               None; None; Some "amount DESC"; Some "2"]
              shop orders (fun r => gt (field r "amount") (VNum 50)))
    as (Hrows & Hstore & _).
  - vm_compute; reflexivity.
  - vm_compute; reflexivity.
  - vm_compute; reflexivity.
  - vm_compute; reflexivity.
  - vm_compute; reflexivity.
  - vm_compute; reflexivity.
  - vm_compute; reflexivity.
  - intros _ r [<- | [<- | [<- | []]]] s; vm_compute; reflexivity.
  - intros H. vm_compute in H. discriminate H.
  - split; [exact Hrows | exact Hstore].
Defined.

(** ** Expressions of the select list

    A character an expression has to read: when the text does not hold it,
    the expression matches nowhere. *)

Section NoMatch.

Variables (icase : bool) (c : ascii).

Lemma repeat_match_fails (step : RegExp.mstate -> (RegExp.mstate -> option RegExp.mstate)
                                 -> option RegExp.mstate)
    (greedy : bool) (n : nat) (st : RegExp.mstate)
    (k : RegExp.mstate -> option RegExp.mstate) :
  (forall st' k', (forall st'', without_char icase c (RegExp.rest st'') = true ->
                                k' st'' = None) ->
                  without_char icase c (RegExp.rest st') = true ->
                  step st' k' = None) ->
  (forall st', without_char icase c (RegExp.rest st') = true -> k st' = None) ->
  without_char icase c (RegExp.rest st) = true ->
  RegExp.repeat_match step greedy n st k = None.
Proof.
  intros Hstep Hk. revert st. induction n as [|n IH]; intros st Hst;
    cbn [RegExp.repeat_match].
  - apply Hk, Hst.
  - rewrite (Hk st Hst).
    rewrite Hstep; [destruct greedy; reflexivity | | exact Hst].
    intros st' Hst'. destruct (RegExp.pos st' =? RegExp.pos st); [reflexivity|].
    apply IH, Hst'.
Qed.

(** A continuation that fails wherever the character is absent makes the
    expression fail there. *)
Lemma run_fails_with_continuation (r : RegExp.regex) (st : RegExp.mstate)
    (k : RegExp.mstate -> option RegExp.mstate) :
  (forall st', without_char icase c (RegExp.rest st') = true -> k st' = None) ->
  without_char icase c (RegExp.rest st) = true ->
  RegExp.run icase r st k = None.
Proof.
  revert st k.
  induction r as [| x | | cl | r1 IH1 r2 IH2 | r1 IH1 r2 IH2 | greedy r1 IH1
                  | greedy r1 IH1 | greedy r1 IH1 | n r1 IH1 | r1 IH1 | | |];
    intros st k Hk Hst; cbn [RegExp.run].
  - apply Hk, Hst.
  - unfold RegExp.step_char. destruct (RegExp.rest st) as [|y rest'] eqn:E; [reflexivity|].
    destruct (RegExp.same_char icase x y); [|reflexivity].
    apply Hk. cbn [RegExp.advance RegExp.rest]. cbn [without_char] in Hst.
    apply andb_prop in Hst as [_ Hst]. exact Hst.
  - unfold RegExp.step_char. destruct (RegExp.rest st) as [|y rest'] eqn:E; [reflexivity|].
    destruct (negb (is_line_terminator y)); [|reflexivity].
    apply Hk. cbn [RegExp.advance RegExp.rest]. cbn [without_char] in Hst.
    apply andb_prop in Hst as [_ Hst]. exact Hst.
  - unfold RegExp.step_char. destruct (RegExp.rest st) as [|y rest'] eqn:E; [reflexivity|].
    destruct (RegExp.in_cls cl y); [|reflexivity].
    apply Hk. cbn [RegExp.advance RegExp.rest]. cbn [without_char] in Hst.
    apply andb_prop in Hst as [_ Hst]. exact Hst.
  - apply IH1; [|exact Hst]. intros st' Hst'. apply IH2; assumption.
  - rewrite IH1 by assumption. apply IH2; assumption.
  - apply repeat_match_fails; [|exact Hk | exact Hst].
    intros st' k' Hk' Hst'. apply IH1; assumption.
  - apply IH1; [|exact Hst]. intros st' Hst'.
    apply repeat_match_fails; [|exact Hk | exact Hst'].
    intros st'' k' Hk' Hst''. apply IH1; assumption.
  - rewrite (Hk st Hst). rewrite IH1; [destruct greedy; reflexivity | | exact Hst].
    intros st' Hst'. destruct (RegExp.pos st' =? RegExp.pos st); [reflexivity|].
    apply Hk, Hst'.
  - apply IH1; [|exact Hst]. intros st' Hst'. apply Hk. exact Hst'.
  - destruct (RegExp.run icase r1 st Some); [|reflexivity]. apply Hk. exact Hst.
  - destruct (RegExp.pos st =? 0); [apply Hk, Hst | reflexivity].
  - destruct (RegExp.rest st) eqn:E; [apply Hk; rewrite E; exact Hst | reflexivity].
  - destruct (RegExp.at_word_boundary st); [apply Hk, Hst | reflexivity].
Qed.

(** An expression that has to read the character fails where the
    character is absent, whatever follows. *)
Lemma run_fails_without_char (r : RegExp.regex) (st : RegExp.mstate)
    (k : RegExp.mstate -> option RegExp.mstate) :
  reads_char c r = true ->
  without_char icase c (RegExp.rest st) = true ->
  RegExp.run icase r st k = None.
Proof.
  revert st k.
  induction r as [| x | | cl | r1 IH1 r2 IH2 | r1 IH1 r2 IH2 | greedy r1 IH1
                  | greedy r1 IH1 | greedy r1 IH1 | n r1 IH1 | r1 IH1 | | |];
    intros st k Hr Hst; cbn [reads_char] in Hr; try discriminate; cbn [RegExp.run].
  - apply Ascii.eqb_eq in Hr as ->. unfold RegExp.step_char.
    destruct (RegExp.rest st) as [|y rest']; [reflexivity|].
    cbn [without_char] in Hst. apply andb_prop in Hst as [Hy _].
    apply negb_true_iff in Hy. rewrite Hy. reflexivity.
  - apply orb_prop in Hr as [Hr | Hr]; [apply IH1; assumption|].
    apply run_fails_with_continuation; [|exact Hst].
    intros st' Hst'. apply IH2; assumption.
  - apply andb_prop in Hr as [Hr1 Hr2]. rewrite IH1 by assumption. apply IH2; assumption.
  - apply IH1; assumption.
  - apply IH1; assumption.
Qed.

Lemma search_fails_without_char (re : RegExp.t) (s : string) (p : nat)
    (before : option ascii) (text : string) :
  RegExp.ignoreCase re = icase ->
  reads_char c (RegExp.tree re) = true ->
  without_char icase c text = true ->
  RegExp.search re s p before text = None.
Proof.
  intros Hi Hr. revert p before.
  induction text as [|x text IH]; intros p before Htext; cbn [RegExp.search];
    unfold RegExp.match_here; rewrite Hi;
    rewrite run_fails_without_char by assumption; [reflexivity|].
  apply IH. cbn [without_char] in Htext. apply andb_prop in Htext as [_ H]. exact H.
Qed.

End NoMatch.

Lemma match_groups_without_char (c : ascii) (re : RegExp.t) (s : string) :
  reads_char c (RegExp.tree re) = true ->
  without_char (RegExp.ignoreCase re) c s = true ->
  RegExp.match_groups re s = None /\ RegExp.test re s = false.
Proof.
  intros Hr Hs. unfold RegExp.match_groups, RegExp.test, RegExp.exec, RegExp.exec_from.
  cbn [drop]. rewrite (search_fails_without_char (RegExp.ignoreCase re) c); auto.
Qed.

Lemma without_paren (s : string) :
  JsString.includes s "(" = false -> without_char true "(" s = true.
Proof.
  induction s as [|x s IH]; [reflexivity|].
  rewrite includes_char_cons. intros H. apply orb_false_elim in H as [Hx Hs].
  cbn [without_char]. rewrite (IH Hs), andb_true_r. unfold RegExp.same_char.
  destruct x as [[] [] [] [] [] [] [] []]; try discriminate Hx; reflexivity.
Qed.

(** X12. An expression of the select list that holds no parenthesis is a
    column: [evaluateExpression] gives the field of the row under its name
    (after the dot, when it holds one), [undefined] when the row has no
    such field. *)
Theorem expression_without_parenthesis_is_a_column (expr : string) (r : row) :
  JsString.includes (trim expr) "(" = false ->
  evaluateExpression expr r = field r (column_name (trim expr)).
Proof.
  intros H. apply without_paren in H. unfold evaluateExpression. cbv zeta.
  destruct (match_groups_without_char "(" Re.countStar (trim expr) eq_refl H) as [_ ->].
  destruct (match_groups_without_char "(" Re.countCol (trim expr) eq_refl H) as [-> _].
  destruct (match_groups_without_char "(" Re.upper (trim expr) eq_refl H) as [-> _].
  destruct (match_groups_without_char "(" Re.lower (trim expr) eq_refl H) as [-> _].
  destruct (match_groups_without_char "(" Re.length (trim expr) eq_refl H) as [-> _].
  destruct (match_groups_without_char "(" Re.concat (trim expr) eq_refl H) as [-> _].
  unfold column_name. destruct (JsString.includes (trim expr) "."); reflexivity.
Qed.

Lemma expression_without_parenthesis_is_a_column_witness :
  evaluateExpression " users.name " [("id", VNum 1); ("name", VStr "John")]
  = field [("id", VNum 1); ("name", VStr "John")] (column_name (trim " users.name ")).
Proof.
  apply (expression_without_parenthesis_is_a_column " users.name "
           [("id", VNum 1); ("name", VStr "John")]).
  vm_compute; reflexivity.
Defined.

(** ** Projection *)


(** ** [DISTINCT] and [UNION] *)

Lemma existsb_eqb_elem_of (k : string) (seen : list string) :
  existsb (String.eqb k) seen = true <-> k ∈ seen.
Proof.
  rewrite existsb_exists. split.
  - intros (x & Hx & E). apply String.eqb_eq in E as ->. apply list_elem_of_In, Hx.
  - intros H. exists k. split; [apply list_elem_of_In, H | apply String.eqb_refl].
Qed.

Section Distinct.

Variable key : row -> string.

Lemma distinct_by_sublist (seen : list string) (data : list row) :
  sublist (distinct_by key seen data) data.
Proof.
  revert seen. induction data as [|row data IH]; intros seen; simpl.
  - constructor.
  - destruct (existsb (String.eqb (key row)) seen).
    + apply sublist_cons, IH.
    + apply sublist_skip, IH.
Qed.

Lemma distinct_by_keys_not_seen (seen : list string) (data : list row) (row : row) :
  row ∈ distinct_by key seen data -> key row ∉ seen.
Proof.
  revert seen. induction data as [|r data IH]; intros seen; simpl.
  - intros H. inversion H.
  - destruct (existsb (String.eqb (key r)) seen) eqn:E.
    + apply IH.
    + intros H. apply elem_of_cons in H as [-> | H].
      * intros Hin. apply existsb_eqb_elem_of in Hin. congruence.
      * intros Hin. apply (IH _ H). right. exact Hin.
Qed.

Lemma distinct_by_keys_NoDup (seen : list string) (data : list row) :
  NoDup (map key (distinct_by key seen data)).
Proof.
  revert seen. induction data as [|r data IH]; intros seen; simpl.
  - constructor.
  - destruct (existsb (String.eqb (key r)) seen) eqn:E; [apply IH|].
    simpl. apply NoDup_cons. split; [|apply IH].
    intros Hin. apply list_elem_of_fmap in Hin as (r' & Hk & Hr').
    apply distinct_by_keys_not_seen in Hr'. apply Hr'. rewrite <- Hk. left.
Qed.

Lemma distinct_by_represents (seen : list string) (data : list row) (row : row) :
  row ∈ data ->
  key row ∈ seen \/ exists kept, kept ∈ distinct_by key seen data /\ key kept = key row.
Proof.
  revert seen. induction data as [|r data IH]; intros seen Hin; simpl.
  - inversion Hin.
  - apply elem_of_cons in Hin as [-> | Hin].
    + destruct (existsb (String.eqb (key r)) seen) eqn:E.
      * left. apply existsb_eqb_elem_of, E.
      * right. exists r. split; [left | reflexivity].
    + destruct (existsb (String.eqb (key r)) seen) eqn:E.
      * apply IH, Hin.
      * destruct (IH (key r :: seen) Hin) as [Hs | (kept & Hk & Heq)].
        -- apply elem_of_cons in Hs as [Hs | Hs].
           ++ right. exists r. split; [left | congruence].
           ++ left. exact Hs.
        -- right. exists kept. split; [right; exact Hk | exact Heq].
Qed.

Lemma distinct_by_fixed (seen : list string) (data : list row) :
  NoDup (map key data) -> (forall row, row ∈ data -> key row ∉ seen) ->
  distinct_by key seen data = data.
Proof.
  revert seen. induction data as [|r data IH]; intros seen Hnd Hseen; simpl.
  - reflexivity.
  - apply NoDup_cons in Hnd as [Hr Hnd].
    destruct (existsb (String.eqb (key r)) seen) eqn:E.
    + apply existsb_eqb_elem_of in E. exfalso. apply (Hseen r); [left | exact E].
    + f_equal. apply IH; [exact Hnd|].
      intros row Hrow Hin. apply elem_of_cons in Hin as [Heq | Hin].
      * apply Hr. rewrite <- Heq. apply list_elem_of_fmap. exists row. auto.
      * apply (Hseen row); [right; exact Hrow | exact Hin].
Qed.

Lemma distinct_by_idempotent (data : list row) :
  distinct_by key [] (distinct_by key [] data) = distinct_by key [] data.
Proof.
  apply distinct_by_fixed; [apply distinct_by_keys_NoDup|].
  intros row _ Hin. inversion Hin.
Qed.

End Distinct.

(** X14. [DISTINCT] only drops rows: what it gives is the data with some
    rows left out, in the same order, the first row always kept; applied
    again with the same columns it changes nothing. *)
Theorem applyDistinct_only_drops_rows (data : list row) (columns : string) :
  sublist (applyDistinct data columns) data
  /\ applyDistinct (applyDistinct data columns) columns = applyDistinct data columns
  /\ head (applyDistinct data columns) = head data.
Proof.
  unfold applyDistinct. destruct (String.eqb (trim columns) "*").
  - split; [apply distinct_by_sublist|].
    split; [apply distinct_by_idempotent | destruct data; reflexivity].
  - split; [apply distinct_by_sublist|].
    split; [apply distinct_by_idempotent | destruct data; reflexivity].
Qed.

(** X15. With [*] for the columns, no two rows of the result have the
    same JSON text, and every row of the data has a row with its JSON text
    in the result. *)
Theorem applyDistinct_star_has_no_duplicates (data : list row) :
  NoDup (map json_stringify (applyDistinct data "*"))
  /\ forall row, In row data ->
       exists kept, In kept (applyDistinct data "*")
                    /\ json_stringify kept = json_stringify row.
Proof.
  change (applyDistinct data "*") with (distinct_by json_stringify [] data).
  split; [apply distinct_by_keys_NoDup|].
  intros row Hin. apply list_elem_of_In in Hin.
  destruct (distinct_by_represents json_stringify [] data row Hin)
    as [Hs | (kept & Hk & Heq)]; [inversion Hs|].
  exists kept. split; [apply list_elem_of_In, Hk | exact Heq].
Qed.

(** X16. [UNION] without [ALL]: when the statement returns, no two rows of
    what it returns have the same JSON text, whatever the statements
    between the keywords return. *)
Theorem union_has_no_duplicates (this : engine) (query : string) (d : db)
    (rows : list row) :
  RegExp.test Re.unionAll query = false ->
  fst (selectWithUnion this query d) = Return rows ->
  NoDup (map json_stringify rows).
Proof.
  intros Hall. unfold selectWithUnion. rewrite Hall. cbn [negb].
  destruct (List.length (RegExp.split Re.union query) <? 2); [discriminate|].
  unfold bind.
  destruct (mapM _ _ d) as [[subResults | e |] d1]; try discriminate.
  unfold ret. cbn [fst]. intros H. injection H as <-.
  change (applyDistinct (List.concat subResults) "*")
    with (distinct_by json_stringify [] (List.concat subResults)).
  apply distinct_by_keys_NoDup.
Qed.

Lemma union_has_no_duplicates_witness :
  NoDup (map json_stringify
           [[("id", VNum 1)]; [("id", VNum 2)]; [("id", VNum 3)]]).
Proof.
  apply (union_has_no_duplicates (methods 1)
           "SELECT id FROM users UNION SELECT id FROM orders" shop).
  - vm_compute; reflexivity.
  - vm_compute; reflexivity.
Defined.

(** ** [LIMIT] *)

Lemma slice_skips_and_takes {A} (offset count : nat) (xs : list A) :
  slice (Some (Z.of_nat offset)) (add (Some (Z.of_nat offset)) (Some (Z.of_nat count))) xs
  = firstn count (skipn offset xs).
Proof.
  unfold slice, add.
  assert ((Z.of_nat offset <? 0)%Z = false) as -> by (apply Z.ltb_ge; lia).
  assert ((Z.of_nat offset + Z.of_nat count <? 0)%Z = false) as -> by (apply Z.ltb_ge; lia).
  destruct (le_lt_dec (List.length xs) offset) as [Hle | Hlt].
  - rewrite (skipn_all2 xs (n := offset)) by exact Hle. rewrite firstn_nil.
    assert (Z.of_nat (List.length xs) <= Z.of_nat offset)%Z as H1 by lia.
    rewrite (Z.min_r _ _ H1). rewrite Nat2Z.id.
    rewrite skipn_all. apply firstn_nil.
  - assert (Z.of_nat offset <= Z.of_nat (List.length xs))%Z as H1 by lia.
    rewrite (Z.min_l _ _ H1). rewrite Nat2Z.id.
    destruct (le_lt_dec (List.length xs) (offset + count)) as [Hle' | Hlt'].
    + assert (Z.of_nat (List.length xs) <= Z.of_nat offset + Z.of_nat count)%Z as H2 by lia.
      rewrite (Z.min_r _ _ H2).
      rewrite !firstn_all2; [reflexivity | rewrite length_skipn; lia
                            | rewrite length_skipn; lia].
    + assert (Z.of_nat offset + Z.of_nat count <= Z.of_nat (List.length xs))%Z as H2 by lia.
      rewrite (Z.min_l _ _ H2). f_equal. lia.
Qed.

(** X17. [LIMIT offset, count], the two numbers around a comma: the first
    [offset] rows are skipped and the next [count] rows are the result. *)
Theorem limit_with_comma_skips_then_takes (data : list row) (limitClause a b : string)
    (offset count : nat) :
  JsString.split "," limitClause = [a; b] ->
  parseInt (trim a) = Some (Z.of_nat offset) ->
  parseInt (trim b) = Some (Z.of_nat count) ->
  applyLimit data limitClause = firstn count (skipn offset data).
Proof.
  intros Hsplit Ha Hb. unfold applyLimit. rewrite Hsplit. cbn [map].
  rewrite Ha, Hb. apply slice_skips_and_takes.
Qed.

Lemma limit_with_comma_skips_then_takes_witness :
  applyLimit orders "1, 2" = firstn 2 (skipn 1 orders).
Proof.
  apply (limit_with_comma_skips_then_takes orders "1, 2" "1" " 2" 1 2);
    vm_compute; reflexivity.
Defined.

(** X18. [LIMIT count] and [LIMIT count OFFSET offset]: [offset] rows are
    skipped, none without [OFFSET], and the next [count] rows are the
    result. *)
Theorem limit_with_offset_skips_then_takes (data : list row) (limitClause : string)
    (m : list (option string)) (offset count : nat) :
  List.length (JsString.split "," limitClause) <> 2 ->
  RegExp.match_groups Re.limit limitClause = Some m ->
  parseInt (group_text m 1) = Some (Z.of_nat count) ->
  (if is_set (group m 2) then parseInt (group_text m 2) else Some 0%Z)
  = Some (Z.of_nat offset) ->
  applyLimit data limitClause = firstn count (skipn offset data).
Proof.
  intros Hsplit Hm Hcount Hoffset. unfold applyLimit.
  destruct (map _ (JsString.split "," limitClause)) as [|x [|y [|z parts]]] eqn:E;
    try (rewrite Hm; cbv zeta; rewrite Hcount, Hoffset; apply slice_skips_and_takes).
  exfalso. apply Hsplit. rewrite <- (length_map (fun p => parseInt (trim p))), E.
  reflexivity.
Qed.

Lemma limit_with_offset_skips_then_takes_witness :
  applyLimit orders "2 OFFSET 1" = firstn 2 (skipn 1 orders).
Proof.
  apply (limit_with_offset_skips_then_takes orders "2 OFFSET 1"
           [Some "2 OFFSET 1"; Some "2"; Some "1"] 1 2).
  - vm_compute. discriminate.
  - vm_compute; reflexivity.
  - vm_compute; reflexivity.
  - vm_compute; reflexivity.
Defined.

(** ** [ORDER BY] on a column of numbers *)

Lemma compare_rows_numbers (c dir : string) (a b : row) (x y : Z) :
  field a c = VNum x -> field b c = VNum y ->
  compare_rows [OrderPart c dir] a b
  = ((if String.eqb dir "DESC" then (-1) else 1)
     * (if (x <? y) then (-1) else if (y <? x) then 1 else 0))%Z.
Proof.
  intros Ha Hb. cbn [compare_rows col LocalDB.dir]. rewrite Ha, Hb.
  unfold lt, gt. cbn [isLessThan toNumber default].
  destruct (x <? y)%Z; [|destruct (y <? x)%Z]; cbn [negb Z.eqb];
    destruct (String.eqb dir "DESC"); reflexivity.
Qed.

(** X19. [ORDER BY] on one column that holds a number in every row puts
    the rows in the order of the numbers: no row is followed by a row with
    a smaller number, or, with [DESC], by a row with a larger one. *)
Theorem order_by_number_column_sorts (data : list row) (orderByClause c dir : string) :
  order_parts orderByClause = [OrderPart c dir] ->
  Forall (fun r => exists z, field r c = VNum z) data ->
  StronglySorted
    (fun a b => forall x y, field a c = VNum x -> field b c = VNum y ->
                  if String.eqb dir "DESC" then (y <= x)%Z else (x <= y)%Z)
    (orderBy data orderByClause).
Proof.
  intros Hparts Hnum. unfold orderBy. rewrite Hparts.
  apply (StronglySorted_weaken
           (fun a b => (compare_rows [OrderPart c dir] a b <= 0)%Z)).
  - intros a b Hab x y Ha Hb. rewrite (compare_rows_numbers c dir a b x y Ha Hb) in Hab.
    destruct (String.eqb dir "DESC"), (x <? y)%Z eqn:Exy, (y <? x)%Z eqn:Eyx; lia.
  - apply (sort_sorted_on _ (fun r => exists z, field r c = VNum z)); [| |exact Hnum].
    + intros a b [x Ha] [y Hb].
      rewrite (compare_rows_numbers c dir a b x y Ha Hb),
        (compare_rows_numbers c dir b a y x Hb Ha).
      destruct (String.eqb dir "DESC"), (x <? y)%Z eqn:Exy, (y <? x)%Z eqn:Eyx; lia.
    + intros a b e [x Ha] [y Hb] [z He].
      rewrite (compare_rows_numbers c dir a b x y Ha Hb),
        (compare_rows_numbers c dir b e y z Hb He),
        (compare_rows_numbers c dir a e x z Ha He).
      destruct (String.eqb dir "DESC"), (x <? y)%Z eqn:Exy, (y <? x)%Z eqn:Eyx,
        (y <? z)%Z eqn:Eyz, (z <? y)%Z eqn:Ezy, (x <? z)%Z eqn:Exz, (z <? x)%Z eqn:Ezx;
        lia.
Qed.

Lemma order_by_number_column_sorts_witness :
  StronglySorted
    (fun a b => forall x y, field a "amount" = VNum x -> field b "amount" = VNum y ->
                  if String.eqb "DESC" "DESC" then (y <= x)%Z else (x <= y)%Z)
    (orderBy orders "amount DESC").
Proof.
  apply (order_by_number_column_sorts orders "amount DESC" "amount" "DESC").
  - vm_compute; reflexivity.
  - repeat constructor; eexists; reflexivity.
Defined.

(** ** [GROUP BY] *)

Section Groups.

Variable groupColumns : list string.

Lemma group_keys_field (r : row) (col : string) :
  field (group_keys groupColumns r) col
  = if existsb (String.eqb col) groupColumns then field r (column_name col)
    else VUndefined.
Proof.
  unfold group_keys.
  destruct (existsb (String.eqb col) groupColumns) eqn:E.
  - apply existsb_eqb_elem_of in E.
    apply (fold_set_field (fun c => c) (fun c => field r (column_name c)));
      [auto | exact E].
  - rewrite (fold_set_field_other (fun c => c) (fun c => field r (column_name c)));
      [reflexivity|].
    intros k Hk ->. apply existsb_eqb_elem_of in Hk. congruence.
Qed.

Lemma aggregated_field (first : row) (start : row) (ks : list string) (col : string) :
  field (fold_left
           (fun (aggregated : row) col =>
              if negb (existsb (String.eqb col) groupColumns)
              then set aggregated col (field first col) else aggregated)
           ks start)
        col
  = if negb (existsb (String.eqb col) groupColumns) && bool_decide (col ∈ ks)
    then field first col else field start col.
Proof.
  induction ks as [|k ks IH] using rev_ind.
  - rewrite andb_false_r. reflexivity.
  - rewrite fold_left_app. cbn [fold_left].
    destruct (decide (k = col)) as [-> | Hne].
    + destruct (negb (existsb (String.eqb col) groupColumns)) eqn:E.
      * rewrite field_set_eq. rewrite bool_decide_eq_true_2; [reflexivity|].
        apply elem_of_app. right. left.
      * rewrite IH. reflexivity.
    + assert (bool_decide (col ∈ (ks ++ [k])%list) = bool_decide (col ∈ ks)) as ->.
      { apply bool_decide_ext. rewrite elem_of_app, list_elem_of_singleton.
        split; [intros [H | H]; [exact H | congruence] | auto]. }
      destruct (negb (existsb (String.eqb k) groupColumns));
        [rewrite field_set_ne by exact Hne|]; exact IH.
Qed.

(** The row made of a group whose first row is [first]. *)
Lemma aggregate_field (g : group_entry) (first : row) (rest : list row) (col : string) :
  rows g = first :: rest -> keys_ g = group_keys groupColumns first ->
  field (aggregate groupColumns g) col
  = if existsb (String.eqb col) groupColumns
    then field first (column_name col) else field first col.
Proof.
  intros Hrows Hkeys. unfold aggregate.
  rewrite Hrows, aggregated_field, Hkeys, group_keys_field.
  destruct (existsb (String.eqb col) groupColumns); cbn [negb andb]; [reflexivity|].
  destruct (bool_decide (col ∈ keys first)) eqn:E; [reflexivity|].
  apply bool_decide_eq_false in E. symmetry. apply field_absent, E.
Qed.

(** One turn of the loop, by cases. *)
Lemma add_to_group_cases (groups : obj group_entry) (r : row) :
  add_to_group groupColumns groups r
  = match get groups (group_key groupColumns r) with
    | Some g =>
        Some (set groups (group_key groupColumns r)
                  (GroupEntry (rows g ++ [r]) (keys_ g)))
    | None =>
        if inherited (group_key groupColumns r) then None
        else Some (set (set groups (group_key groupColumns r)
                            (GroupEntry [] (group_keys groupColumns r)))
                       (group_key groupColumns r)
                       (GroupEntry [r] (group_keys groupColumns r)))
    end.
Proof.
  unfold add_to_group. cbv zeta. unfold has.
  destruct (get groups (group_key groupColumns r)) as [g|] eqn:Hget; cbn [orb].
  - rewrite Hget. reflexivity.
  - destruct (inherited (group_key groupColumns r)).
    + rewrite Hget. reflexivity.
    + rewrite get_set_eq. reflexivity.
Qed.

Lemma groups_of_nil : groups_of groupColumns [] [].
Proof.
  split; [apply NoDup_nil_2|]. split; [apply le_n|]. split.
  - intros k g H. discriminate H.
  - intros r [].
Qed.

(** A key that names a member of the prototype leaves the loop. *)
Lemma add_to_group_inherited (processed : list row) (groups : obj group_entry) (r : row) :
  groups_of groupColumns processed groups ->
  inherited (group_key groupColumns r) = true ->
  add_to_group groupColumns groups r = None.
Proof.
  intros (_ & _ & Hentries & Hseen) Hinh. rewrite add_to_group_cases, Hinh.
  destruct (get groups (group_key groupColumns r)) as [g|] eqn:Hget; [|reflexivity].
  destruct (Hentries _ _ Hget) as (before & first & after & rest & -> & _ & Hkey & _).
  destruct (Hseen first) as [_ H]; [apply in_or_app; right; left; reflexivity|].
  congruence.
Qed.

(** Another key keeps the invariant: the row joins the group of its key,
    after the rows that are there, or starts it. *)
Lemma add_to_group_keeps (processed : list row) (groups : obj group_entry) (r : row) :
  groups_of groupColumns processed groups ->
  inherited (group_key groupColumns r) = false ->
  exists groups',
    add_to_group groupColumns groups r = Some groups'
    /\ groups_of groupColumns (processed ++ [r]) groups'.
Proof.
  intros (Hnd & Hlen & Hentries & Hseen) Hinh. rewrite add_to_group_cases, Hinh.
  set (groupKey := group_key groupColumns r) in *.
  destruct (get groups groupKey) as [g0|] eqn:Hget; eexists; (split; [reflexivity|]).
  - assert (has groups groupKey = true) as Hhas by (unfold has; rewrite Hget; reflexivity).
    split; [apply set_keys_NoDup, Hnd|]. split; [|split].
    + rewrite length_set, Hhas, length_app. cbn [List.length]. lia.
    + intros k g. destruct (decide (groupKey = k)) as [<- | Hne].
      * rewrite get_set_eq. intros H. injection H as <-.
        destruct (Hentries _ _ Hget)
          as (before & first & after & rest & -> & Hbefore & Hkey & Hrows & Hkeys).
        exists before, first, (after ++ [r])%list, (rest ++ [r])%list.
        cbn [rows keys_]. rewrite Hrows, <- app_assoc. auto.
      * rewrite get_set_ne by exact Hne. intros H.
        destruct (Hentries _ _ H)
          as (before & first & after & rest & -> & Hbefore & Hkey & Hrows & Hkeys).
        exists before, first, (after ++ [r])%list, rest.
        rewrite <- app_assoc. auto.
    + intros r' Hr'. apply in_app_or in Hr' as [Hr' | [<- | []]].
      * destruct (Hseen r' Hr') as [H1 H2]. split; [|exact H2].
        destruct (decide (groupKey = group_key groupColumns r')) as [<- | Hne];
          [apply has_set_eq|].
        unfold has. rewrite get_set_ne by exact Hne. exact H1.
      * split; [apply has_set_eq | exact Hinh].
  - assert (has groups groupKey = false) as Hhas by (unfold has; rewrite Hget; reflexivity).
    split; [apply set_keys_NoDup, set_keys_NoDup, Hnd|]. split; [|split].
    + rewrite length_set, has_set_eq, length_set, Hhas, length_app.
      cbn [List.length]. lia.
    + intros k g. destruct (decide (groupKey = k)) as [<- | Hne].
      * rewrite get_set_eq. intros H. injection H as <-.
        exists processed, r, [], []. cbn [rows keys_].
        repeat split; auto.
        apply Forall_forall. intros r' Hr' Heq. apply list_elem_of_In in Hr'.
        destruct (Hseen r' Hr') as [H _]. rewrite Heq in H. congruence.
      * rewrite !get_set_ne by exact Hne. intros H.
        destruct (Hentries _ _ H)
          as (before & first & after & rest & -> & Hbefore & Hkey & Hrows & Hkeys).
        exists before, first, (after ++ [r])%list, rest.
        rewrite <- app_assoc. auto.
    + intros r' Hr'. apply in_app_or in Hr' as [Hr' | [<- | []]].
      * destruct (Hseen r' Hr') as [H1 H2]. split; [|exact H2].
        destruct (decide (groupKey = group_key groupColumns r')) as [<- | Hne];
          [apply has_set_eq|].
        unfold has. rewrite !get_set_ne by exact Hne. exact H1.
      * split; [apply has_set_eq | exact Hinh].
Qed.

(** The loop from [groups], [processed] being the rows seen so far. *)
Lemma make_groups_from (data processed : list row) (groups : obj group_entry) :
  groups_of groupColumns processed groups ->
  (Exists (fun r => inherited (group_key groupColumns r) = true) data ->
   fold_left (fun (groups : option (obj group_entry)) row =>
                match groups with
                | Some groups => add_to_group groupColumns groups row
                | None => None
                end)
             data (Some groups) = None)
  /\ (Forall (fun r => inherited (group_key groupColumns r) = false) data ->
      exists groups',
        fold_left (fun (groups : option (obj group_entry)) row =>
                     match groups with
                     | Some groups => add_to_group groupColumns groups row
                     | None => None
                     end)
                  data (Some groups) = Some groups'
        /\ groups_of groupColumns (processed ++ data) groups').
Proof.
  revert processed groups. induction data as [|r data IH]; intros processed groups Hinv.
  - split.
    + intros H. inversion H.
    + intros _. exists groups. rewrite app_nil_r. auto.
  - cbn [fold_left].
    destruct (inherited (group_key groupColumns r)) eqn:Hinh.
    + rewrite (add_to_group_inherited processed groups r Hinv Hinh). split.
      * intros _. clear. induction data as [|r' data IH]; [reflexivity | exact IH].
      * intros H. apply Forall_cons in H as [H _]. congruence.
    + destruct (add_to_group_keeps processed groups r Hinv Hinh) as (groups1 & -> & Hinv1).
      destruct (IH _ _ Hinv1) as [IH1 IH2]. split.
      * intros H. apply Exists_cons in H as [H | H]; [congruence | auto].
      * intros H. apply Forall_cons in H as [_ H].
        destruct (IH2 H) as (groups' & Hfold & Hinv').
        exists groups'. rewrite <- app_assoc in Hinv'. auto.
Qed.

(** The loop of [groupBy]. *)
Lemma make_groups_cases (data : list row) :
  (Exists (fun r => inherited (group_key groupColumns r) = true) data ->
   make_groups groupColumns data = None)
  /\ (Forall (fun r => inherited (group_key groupColumns r) = false) data ->
      exists groups,
        make_groups groupColumns data = Some groups
        /\ groups_of groupColumns data groups).
Proof. exact (make_groups_from data [] [] groups_of_nil). Qed.

End Groups.

(** X20. What [GROUP BY] gives.  A row whose grouping key names a member
    of [Object.prototype] ([constructor], [toString], ...) makes [groupBy]
    throw.  With no such row, and no [HAVING], [groupBy] returns, without
    touching the store.  Whenever it returns, every row of the result is
    made from the first row of the data that has its grouping key: under
    a grouping column it holds what that row holds for it, and under every
    other name what that row holds under the name; no two rows of the
    result have the same grouping key, there are no more of them than
    rows of data, and without [HAVING] every row of the data has the row
    of its key in the result. *)
Theorem group_by_gives_the_first_row_of_each_group (this : engine) (data : list row)
    (groupByClause : string) (havingClause : option string) (tableName : string)
    (d : db) :
  let groupColumns := map trim (JsString.split "," groupByClause) in
  (Exists (fun r => inherited (group_key groupColumns r) = true) data ->
   exists message,
     groupBy this data groupByClause havingClause tableName d = (Throw message, d))
  /\ (Forall (fun r => inherited (group_key groupColumns r) = false) data ->
      is_set havingClause = false ->
      exists result,
        groupBy this data groupByClause havingClause tableName d = (Return result, d))
  /\ forall result,
       fst (groupBy this data groupByClause havingClause tableName d) = Return result ->
       Forall (fun res =>
                 exists before first after,
                   data = (before ++ first :: after)%list
                   /\ Forall (fun r => group_key groupColumns r
                                       <> group_key groupColumns first) before
                   /\ forall col,
                        field res col
                        = if existsb (String.eqb col) groupColumns
                          then field first (column_name col) else field first col)
              result
       /\ NoDup (map (fun res => JsValue.join "|" (map (field res) groupColumns)) result)
       /\ List.length result <= List.length data
       /\ (is_set havingClause = false ->
           forall r, In r data ->
             exists res,
               In res result
               /\ JsValue.join "|" (map (field res) groupColumns)
                  = group_key groupColumns r).
Proof.
  cbv zeta. set (groupColumns := map trim (JsString.split "," groupByClause)).
  destruct (make_groups_cases groupColumns data) as [Hthrows Hreturns].
  unfold groupBy. cbv zeta. fold groupColumns.
  split; [|split].
  - intros H. rewrite (Hthrows H). eexists. reflexivity.
  - intros H Hno. destruct (Hreturns H) as (groups & -> & _).
    rewrite Hno. eexists. reflexivity.
  - intros result Hresult.
    destruct (make_groups groupColumns data) as [groups|] eqn:Hgroups;
      [|discriminate Hresult].
    assert (Forall (fun r => inherited (group_key groupColumns r) = false) data) as Hinh.
    { apply Forall_forall. intros r Hr.
      destruct (inherited (group_key groupColumns r)) eqn:E; [|reflexivity].
      assert (Some groups = None) as H; [|discriminate H].
      apply Hthrows, Exists_exists. exists r. auto. }
    destruct (Hreturns Hinh) as (groups' & Heq & Hnd & Hlen & Hentries & Hseen).
    injection Heq as <-.
    assert (forall k g, In (k, g) groups ->
              exists before first after,
                data = (before ++ first :: after)%list
                /\ Forall (fun r => group_key groupColumns r
                                    <> group_key groupColumns first) before
                /\ group_key groupColumns first = k
                /\ forall col,
                     field (aggregate groupColumns g) col
                     = if existsb (String.eqb col) groupColumns
                       then field first (column_name col) else field first col)
      as Hagg.
    { intros k g Hin. apply (get_in _ _ _ Hnd) in Hin.
      destruct (Hentries k g Hin)
        as (before & first & after & rest & Hdata & Hbefore & Hkey & Hrows & Hkeys).
      exists before, first, after. split; [exact Hdata|]. split; [rewrite Hkey; exact Hbefore|].
      split; [exact Hkey|].
      intros col. apply (aggregate_field groupColumns g first rest col Hrows Hkeys). }
    assert (forall res first,
              (forall col,
                 field res col
                 = if existsb (String.eqb col) groupColumns
                   then field first (column_name col) else field first col) ->
              JsValue.join "|" (map (field res) groupColumns)
              = group_key groupColumns first)
      as Hkey.
    { intros res first H. unfold group_key. f_equal. apply map_ext_in.
      intros col Hcol. rewrite H.
      assert (existsb (String.eqb col) groupColumns = true) as ->; [|reflexivity].
      apply existsb_eqb_elem_of, list_elem_of_In, Hcol. }
    assert (map (fun res => JsValue.join "|" (map (field res) groupColumns))
                (map (aggregate groupColumns) (values groups)) = keys groups) as Hkeys.
    { clear -Hagg Hkey. unfold values, keys.
      induction groups as [|[k g] gs IH]; [reflexivity|]. cbn [map fst snd].
      destruct (Hagg k g (or_introl eq_refl)) as (before & first & after & _ & _ & <- & Hfields).
      rewrite (Hkey _ first Hfields). f_equal. apply IH.
      intros k' g' Hin. apply Hagg. right. exact Hin. }
    assert (sublist result (map (aggregate groupColumns) (values groups))
            /\ (is_set havingClause = false
                -> result = map (aggregate groupColumns) (values groups)))
      as [Hsub Hsame].
    { revert Hresult. clear. destruct (is_set havingClause).
      - intros H. split; [|discriminate].
        destruct (filterM _ _ d) as [o d'] eqn:E. cbn [fst] in H. subst o.
        apply (filterM_sublist _ _ _ _ _ E).
      - unfold ret. cbn [fst]. intros H. injection H as <-.
        split; [reflexivity | auto]. }
    split; [|split; [|split]].
    + apply Forall_forall. intros res Hres.
      apply (sublist_subseteq _ _ Hsub), list_elem_of_In, in_map_iff in Hres
        as (g & <- & Hg).
      unfold values in Hg. apply in_map_iff in Hg as ([k g'] & Hsnd & Hin).
      cbn [snd] in Hsnd. subst g'.
      destruct (Hagg k g Hin) as (before & first & after & Hdata & Hbefore & _ & Hfields).
      exists before, first, after. auto.
    + apply (sublist_NoDup _ (keys groups)); [exact Hnd|].
      rewrite <- Hkeys. apply fmap_sublist, Hsub.
    + apply sublist_length in Hsub. rewrite length_map in Hsub. unfold values in Hsub.
      rewrite length_map in Hsub. lia.
    + intros Hno r Hr. rewrite (Hsame Hno).
      destruct (Hseen r Hr) as [Hhas _]. unfold has in Hhas.
      destruct (get groups _) as [g|] eqn:Hget; [|discriminate].
      apply get_Some_in in Hget.
      destruct (Hagg _ g Hget) as (before & first & after & _ & _ & Hk & Hfields).
      exists (aggregate groupColumns g). split.
      * apply in_map. unfold values. apply (in_map snd) in Hget. exact Hget.
      * rewrite (Hkey _ first Hfields). exact Hk.
Qed.

Lemma group_by_gives_the_first_row_of_each_group_witness :
  (exists result,
     groupBy (methods 0) orders "user_id" None "orders" shop = (Return result, shop))
  /\ NoDup (map (fun res => JsValue.join "|"
                              (map (field res) (map trim (JsString.split "," "user_id"))))
                [[("user_id", VNum 1); ("id", VNum 1); ("amount", VNum 100)];
                 [("user_id", VNum 2); ("id", VNum 3); ("amount", VNum 150)]])
  /\ List.length [[("user_id", VNum 1); ("id", VNum 1); ("amount", VNum 100)];
                  [("user_id", VNum 2); ("id", VNum 3); ("amount", VNum 150)]]
     <= List.length orders.
Proof.
  destruct (group_by_gives_the_first_row_of_each_group (methods 0) orders "user_id"
              None "orders" shop) as (_ & Hreturns & Hresult).
  split.
  - apply Hreturns; [|reflexivity].
    repeat (apply List.Forall_cons; [vm_compute; reflexivity|]). apply List.Forall_nil.
  - destruct (Hresult [[("user_id", VNum 1); ("id", VNum 1); ("amount", VNum 100)];
                       [("user_id", VNum 2); ("id", VNum 3); ("amount", VNum 150)]])
      as (_ & Hnd & Hlen & _).
    + vm_compute; reflexivity.
    + split; [exact Hnd | exact Hlen].
Defined.

(** A row whose grouping value is [constructor]: no group is made for it
    and the statement fails. *)
Example groupBy_prototype_key :
  groupBy (methods 0) [[("id", VNum 1); ("name", VStr "constructor")]] "name" None "t" shop
  = (Throw push_of_undefined, shop).
Proof. vm_compute. reflexivity. Qed.

(** The same through [execute], once a user is named [constructor]. *)
Example group_by_prototype_key_statement :
  fst (run 0 "SELECT name FROM users GROUP BY name"
         (snd (run 0 "INSERT INTO users (id, name, age) VALUES (9, 'constructor', 1)" shop)))
  = Throw "Query execution failed: Cannot read properties of undefined (reading 'push')".
Proof. vm_compute. reflexivity. Qed.

(** ** [AND], [OR] and [IN] *)

(** X21. [evaluateWhere] gives [AND] no precedence over [OR]: the
    conditions are combined from left to right.  For a clause [c1 OR c2
    AND c3] without [EXISTS], whose three conditions evaluate to [r1], [r2]
    and [r3], the result is [(r1 || r2) && r3], where SQL has
    [r1 || (r2 && r3)]. *)
Theorem where_combines_left_to_right (this : engine) (r : row)
    (whereClause : string) (tableName : option string)
    (protectedConditions : list string) (processedClause : string)
    (c1 o1 c2 o2 c3 : string) (r1 r2 r3 : bool) :
  RegExp.match_groups Re.exists_ whereClause = None ->
  protect_in (S (String.length whereClause)) whereClause 0 [] 0 EmptyString
  = (protectedConditions, processedClause) ->
  RegExp.split Re.andOr processedClause = [c1; o1; c2; o2; c3] ->
  toUpperCase o1 = "OR" -> toUpperCase o2 = "AND" ->
  Forall (fun c => String.eqb (toUpperCase c) "AND" || String.eqb (toUpperCase c) "OR"
                   || RegExp.test Re.existsWord c = false) [c1; c2; c3] ->
  (forall s, evaluateCondition this r (restore_protected protectedConditions 0 (trim c1))
               tableName s = (Return r1, s)) ->
  (forall s, evaluateCondition this r (restore_protected protectedConditions 0 (trim c2))
               tableName s = (Return r2, s)) ->
  (forall s, evaluateCondition this r (restore_protected protectedConditions 0 (trim c3))
               tableName s = (Return r3, s)) ->
  forall s, evaluateWhere this r whereClause tableName s = (Return ((r1 || r2) && r3), s).
Proof.
  intros Hexists Hprotect Hsplit Ho1 Ho2 Hleaves H1 H2 H3 s.
  unfold evaluateWhere. rewrite Hexists, Hprotect, Hsplit.
  apply Forall_cons in Hleaves as [L1 Hleaves].
  apply Forall_cons in Hleaves as [L2 Hleaves].
  apply Forall_cons in Hleaves as [L3 _].
  apply orb_false_elim in L1 as [L1 E1]. apply orb_false_elim in L2 as [L2 E2].
  apply orb_false_elim in L3 as [L3 E3].
  cbn [evaluateWhere_loop]. rewrite L1, E1, L2, E2, L3, E3, Ho1, Ho2.
  cbn [String.eqb Ascii.eqb Bool.eqb orb andb].
  unfold bind. rewrite H1, H2, H3. reflexivity.
Qed.

Lemma where_combines_left_to_right_witness :
  evaluateWhere (methods 0) [("id", VNum 1); ("name", VStr "John"); ("age", VNum 30)]
    "id = 1 OR id = 2 AND age = 0" (Some "users") shop
  = (Return ((true || false) && false), shop).
Proof.
  apply (where_combines_left_to_right (methods 0)
           [("id", VNum 1); ("name", VStr "John"); ("age", VNum 30)]
           "id = 1 OR id = 2 AND age = 0" (Some "users")
           [] "id = 1 OR id = 2 AND age = 0"
           "id = 1" "OR" "id = 2" "AND" "age = 0").
  - vm_compute; reflexivity.
  - vm_compute; reflexivity.
  - vm_compute; reflexivity.
  - vm_compute; reflexivity.
  - vm_compute; reflexivity.
  - repeat constructor.
  - intros s; vm_compute; reflexivity.
  - intros s; vm_compute; reflexivity.
  - intros s; vm_compute; reflexivity.
Defined.

Lemma digits_no_comma (s : string) :
  leading_digits s = s -> JsString.includes s "," = false.
Proof.
  induction s as [|c s IH]; [reflexivity|]. cbn [leading_digits].
  destruct (is_digit c) eqn:E; [|discriminate]. intros H. injection H as H.
  rewrite includes_char_cons, (IH H).
  destruct c as [[] [] [] [] [] [] [] []]; try discriminate E; reflexivity.
Qed.

Lemma numberToString_no_comma (z : Z) :
  JsString.includes (numberToString z) "," = false.
Proof.
  destruct z as [|p|p].
  - reflexivity.
  - rewrite numberToString_pos. apply digits_no_comma, leading_digits_of_uint.
  - rewrite numberToString_neg, includes_char_cons.
    rewrite (digits_no_comma _ (leading_digits_of_uint _)). reflexivity.
Qed.

(** X22. [IN] compares without conversion where [=] converts: for a row
    whose column holds the number [z], the condition [col IN ('z')], the
    number written between quotes, is false and [col NOT IN ('z')] is true,
    while [col = 'z'] is true. *)
Theorem in_list_compares_without_conversion (this : engine) (r : row)
    (col : string) (z : Z) (s : db) :
  field r col = VNum z ->
  evaluateIn this false r col ("'" ++ numberToString z ++ "'") s = (Return false, s)
  /\ evaluateIn this true r col ("'" ++ numberToString z ++ "'") s = (Return true, s)
  /\ compare_with "=" (field r col) (parseValue ("'" ++ numberToString z ++ "'")) = true.
Proof.
  intros Hfield.
  assert (JsString.split "," ("'" ++ numberToString z ++ "'")
          = ["'" ++ numberToString z ++ "'"]) as Hsplit.
  { apply split_without_separator.
    rewrite append_String, append_EmptyString, includes_char_cons, includes_char_app.
    rewrite numberToString_no_comma. reflexivity. }
  assert (startsWith (toUpperCase ("'" ++ numberToString z ++ "'")) "SELECT" = false)
    as Hselect by reflexivity.
  unfold evaluateIn. rewrite Hselect, Hsplit. cbn [map].
  rewrite trim_quoted, parseValue_quoted, Hfield. unfold ret.
  split; [reflexivity|]. split; [reflexivity|].
  cbn [compare_with String.eqb Ascii.eqb Bool.eqb loose_eq].
  rewrite stringToNumber_numberToString. apply Z.eqb_refl.
Qed.

Lemma in_list_compares_without_conversion_witness :
  evaluateIn (methods 0) false [("id", VNum 1); ("name", VStr "John")] "id"
    ("'" ++ numberToString 1 ++ "'") shop
  = (Return false, shop)
  /\ evaluateIn (methods 0) true [("id", VNum 1); ("name", VStr "John")] "id"
       ("'" ++ numberToString 1 ++ "'") shop
     = (Return true, shop)
  /\ compare_with "=" (field [("id", VNum 1); ("name", VStr "John")] "id")
       (parseValue ("'" ++ numberToString 1 ++ "'")) = true.
Proof.
  apply (in_list_compares_without_conversion (methods 0)
           [("id", VNum 1); ("name", VStr "John")] "id" 1 shop).
  reflexivity.
Defined.

(** ** Joins *)

Lemma flat_map_constant_length {A B} (f : A -> list B) (l : list A) (n : nat) :
  (forall x, List.length (f x) = n) -> List.length (flat_map f l) = List.length l * n.
Proof.
  intros Hf. induction l as [|x l IH]; simpl; [reflexivity|].
  rewrite length_app, Hf, IH. reflexivity.
Qed.

(** X23. A [CROSS JOIN] never fails and gives one row for every pair: the
    rows of the left table times the rows of the right table, whatever the
    [ON] clause. *)
Theorem cross_join_cardinality (data1 data2 : list row)
    (table1Name table2Name : string) (onClause : option string) :
  exists result,
    performJoin data1 data2 table1Name table2Name onClause "CROSS JOIN"
    = Return result
    /\ List.length result = List.length data1 * List.length data2
    /\ forall merged, In merged result <->
         exists row1 row2, In row1 data1 /\ In row2 data2
                           /\ merged = mergeRows row1 row2 table1Name table2Name.
Proof.
  eexists. split; [reflexivity|]. split.
  - apply flat_map_constant_length. intros x. apply length_map.
  - intros merged. rewrite in_flat_map. split.
    + intros (row1 & H1 & Hm). apply in_map_iff in Hm as (row2 & <- & H2).
      exists row1, row2. auto.
    + intros (row1 & row2 & H1 & H2 & ->). exists row1. split; [exact H1|].
      apply in_map_iff. exists row2. auto.
Qed.

Lemma sublist_flat_map {A B} (f g : A -> list B) (l : list A) :
  (forall x, sublist (f x) (g x)) -> sublist (flat_map f l) (flat_map g l).
Proof.
  intros H. induction l as [|x l IH]; simpl; [constructor|].
  apply sublist_app; [apply H | exact IH].
Qed.

Lemma omap_sublist_left_rows (right : list row) (key1 key2 table1 table2 : string)
    (row1 : row) :
  sublist (omap (join_pair key1 key2 table1 table2 row1) right)
          (left_rows right key1 key2 table1 table2 row1).
Proof.
  unfold left_rows. destruct (omap _ right); [apply sublist_nil_l | reflexivity].
Qed.

(** X24. On the same tables and the same [ON] clause, the rows of an
    [INNER JOIN] are rows of the [LEFT JOIN], in the same order: [LEFT
    JOIN] only adds the rows of the unmatched left rows. *)
Theorem inner_join_within_left_join (data1 data2 : list row)
    (table1Name table2Name : string) (onClause : option string)
    (inner left : list row) :
  performJoin data1 data2 table1Name table2Name onClause "INNER JOIN" = Return inner ->
  performJoin data1 data2 table1Name table2Name onClause "LEFT JOIN" = Return left ->
  sublist inner left.
Proof.
  unfold performJoin. cbn [String.eqb Ascii.eqb Bool.eqb orb].
  destruct onClause as [onClause|]; [|discriminate].
  destruct (RegExp.match_groups Re.on onClause) as [onMatch|]; [|discriminate].
  cbv zeta. intros Hi Hl. injection Hi as <-. injection Hl as <-.
  apply sublist_flat_map. intros row1. apply omap_sublist_left_rows.
Qed.

Lemma inner_join_within_left_join_witness :
  sublist
    [[("users.id", VNum 1); ("users.name", VStr "John"); ("users.age", VNum 30);
      ("orders.id", VNum 1); ("orders.user_id", VNum 1); ("orders.amount", VNum 100)]]
    [[("users.id", VNum 1); ("users.name", VStr "John"); ("users.age", VNum 30);
      ("orders.id", VNum 1); ("orders.user_id", VNum 1); ("orders.amount", VNum 100)];
     [("users.id", VNum 2); ("users.name", VStr "Jane"); ("users.age", VNum 28);
      ("orders.id", VNull); ("orders.user_id", VNull); ("orders.amount", VNull)]].
Proof.
  apply (inner_join_within_left_join users (List.firstn 1 orders) "users" "orders"
           (Some "users.id = orders.user_id")).
  - vm_compute; reflexivity.
  - vm_compute; reflexivity.
Defined.

(** X25. When the [ON] clause names the table of [FROM] first, the column
    it names on the right of [=] does not count: the first column is read
    in the rows of both tables.  Two clauses that differ in that column
    only give the same rows, for every kind of join. *)
Theorem join_reads_first_column_on_both_sides (data1 data2 : list row)
    (table1Name table2Name onClause onClause' joinType : string)
    (onMatch onMatch' : list (option string)) :
  RegExp.match_groups Re.on onClause = Some onMatch ->
  RegExp.match_groups Re.on onClause' = Some onMatch' ->
  group_text onMatch 1 = group_text onMatch' 1 ->
  group_text onMatch 2 = group_text onMatch' 2 ->
  group_text onMatch 3 = group_text onMatch' 3 ->
  String.eqb (toLowerCase (group_text onMatch 1)) (toLowerCase table1Name) = true ->
  String.eqb (toLowerCase (group_text onMatch 3)) (toLowerCase table1Name) = false ->
  performJoin data1 data2 table1Name table2Name (Some onClause) joinType
  = performJoin data1 data2 table1Name table2Name (Some onClause') joinType.
Proof.
  intros Hm Hm' H1 H2 H3 Ht1 Ht3. unfold performJoin.
  rewrite Hm, Hm'. cbv zeta. rewrite <- H1, <- H2, <- H3, Ht1, Ht3. reflexivity.
Qed.

Lemma join_reads_first_column_on_both_sides_witness :
  performJoin users orders "users" "orders" (Some "users.id = orders.user_id")
    "INNER JOIN"
  = performJoin users orders "users" "orders" (Some "users.id = orders.amount")
      "INNER JOIN".
Proof.
  apply (join_reads_first_column_on_both_sides users orders "users" "orders"
           "users.id = orders.user_id" "users.id = orders.amount" "INNER JOIN"
           [Some "users.id = orders.user_id"; Some "users"; Some "id";
            Some "orders"; Some "user_id"]
           [Some "users.id = orders.amount"; Some "users"; Some "id";
            Some "orders"; Some "amount"]);
    vm_compute; reflexivity.
Defined.

(** ** Merged rows *)

Lemma includes_qualified (t k : string) : JsString.includes (t ++ "." ++ k) "." = true.
Proof.
  induction t as [|c t IH].
  - rewrite append_EmptyString, append_String, includes_char_cons. reflexivity.
  - rewrite append_String, includes_char_cons, IH. apply orb_true_r.
Qed.

Lemma qualified_inj (a b x y : string) :
  JsString.includes a "." = false -> JsString.includes b "." = false ->
  a ++ "." ++ x = b ++ "." ++ y -> a = b /\ x = y.
Proof.
  revert b. induction a as [|c a IH]; intros [|c' b] Ha Hb Heq;
    rewrite ?append_String, ?append_EmptyString in Heq.
  - injection Heq as ->. auto.
  - injection Heq as <- _. rewrite includes_char_cons in Hb. discriminate.
  - injection Heq as -> _. rewrite includes_char_cons in Ha. discriminate.
  - injection Heq as -> Heq. rewrite includes_char_cons in Ha, Hb.
    apply orb_false_elim in Ha as [_ Ha]. apply orb_false_elim in Hb as [_ Hb].
    destruct (IH b Ha Hb Heq) as [-> ->]. auto.
Qed.

Lemma indexOf_dot_cons (c : ascii) (s : string) :
  indexOf "." (String c s)
  = if Ascii.eqb "." c then Some 0 else option_map S (indexOf "." s).
Proof.
  cbn [indexOf startsWith]. destruct (Ascii.eqb "." c); [destruct s|]; reflexivity.
Qed.

Lemma take_indexOf_no_dot (s : string) (j : nat) :
  indexOf "." s = Some j -> JsString.includes (take j s) "." = false.
Proof.
  revert j. induction s as [|c s IH]; intros j.
  - discriminate.
  - rewrite indexOf_dot_cons. destruct (Ascii.eqb "." c) eqn:E.
    + intros H. injection H as <-. reflexivity.
    + destruct (indexOf "." s) as [i|]; [|discriminate].
      intros H. injection H as <-. cbn [take].
      rewrite includes_char_cons, E. apply (IH i). reflexivity.
Qed.

(** The column [orderBy] and [evaluateComparison] read never holds a dot. *)
Lemma column_name_no_dot (col : string) :
  JsString.includes (column_name col) "." = false.
Proof.
  unfold column_name. destruct (JsString.includes col ".") eqn:E; [|exact E].
  unfold JsString.includes in E. unfold JsString.split.
  destruct col as [|c col]; [discriminate|].
  cbn [String.length split_fuel].
  destruct (indexOf "." (String c col)) as [i|]; [|discriminate].
  destruct (indexOf "." (drop (i + 1) (String c col))) as [j|] eqn:E2.
  - change (JsString.includes (take j (drop (i + 1) (String c col))) "." = false).
    apply take_indexOf_no_dot, E2.
  - change (JsString.includes (drop (i + 1) (String c col)) "." = false).
    unfold JsString.includes. rewrite E2. reflexivity.
Qed.

Lemma field_unqualified (r : row) (name : string) :
  Forall (fun key => JsString.includes key "." = true) (keys r) ->
  JsString.includes name "." = false ->
  field r name = VUndefined.
Proof.
  intros Hkeys Hname. unfold field.
  assert (get r name = None) as ->; [|reflexivity].
  apply get_none_keys. intros Hin.
  rewrite Forall_forall in Hkeys.
  specialize (Hkeys _ Hin). congruence.
Qed.

Lemma compare_rows_unqualified (orderByClause : string) (a b : row) :
  Forall (fun key => JsString.includes key "." = true) (keys a) ->
  Forall (fun key => JsString.includes key "." = true) (keys b) ->
  compare_rows (order_parts orderByClause) a b = 0%Z.
Proof.
  intros Ha Hb. unfold order_parts.
  induction (JsString.split "," orderByClause) as [|p ps IH]; [reflexivity|].
  cbn [map compare_rows col dir].
  rewrite (field_unqualified a), (field_unqualified b)
    by (assumption || apply column_name_no_dot).
  exact IH.
Qed.

Lemma sort_ties {A} (comparefn : A -> A -> Z) (xs : list A) :
  (forall x y, In x xs -> In y xs -> comparefn x y = 0%Z) ->
  sort comparefn xs = xs.
Proof.
  induction xs as [|x xs IH]; intros H; [reflexivity|].
  unfold sort. cbn [foldr]. fold (sort comparefn xs).
  rewrite IH by (intros; apply H; right; assumption).
  destruct xs as [|y ys]; [reflexivity|].
  cbn [sort_insert]. rewrite H by (simpl; auto). reflexivity.
Qed.

Lemma mergeRows_keys (row1 row2 : row) (table1Name table2Name key : string) :
  key ∈ keys (mergeRows row1 row2 table1Name table2Name)
  <-> (exists k, k ∈ keys row1 /\ key = table1Name ++ "." ++ k)
      \/ (exists k, k ∈ keys row2 /\ key = table2Name ++ "." ++ k).
Proof.
  unfold mergeRows.
  rewrite (fold_set_keys (fun k => table2Name ++ "." ++ k) (field row2)).
  rewrite (fold_set_keys (fun k => table1Name ++ "." ++ k) (field row1)).
  split.
  - intros [H | [H | H]]; [right; exact H | left; exact H | inversion H].
  - intros [H | H]; [right; left; exact H | left; exact H].
Qed.

Lemma mergeRows_keys_qualified (row1 row2 : row) (table1Name table2Name : string) :
  Forall (fun key => JsString.includes key "." = true)
         (keys (mergeRows row1 row2 table1Name table2Name)).
Proof.
  apply Forall_forall. intros key Hkey.
  apply mergeRows_keys in Hkey as [(k & _ & ->) | (k & _ & ->)];
    apply includes_qualified.
Qed.

(** X26. The fields of a merged row: under [table.column] it holds the
    field [column] of the row of that table, for both tables, when the two
    names differ and hold no dot, and it has no other field. *)
Theorem mergeRows_qualifies_fields (row1 row2 : row) (table1Name table2Name : string) :
  JsString.includes table1Name "." = false ->
  JsString.includes table2Name "." = false ->
  table1Name <> table2Name ->
  (forall k, field (mergeRows row1 row2 table1Name table2Name) (table1Name ++ "." ++ k)
             = field row1 k)
  /\ (forall k, field (mergeRows row1 row2 table1Name table2Name) (table2Name ++ "." ++ k)
                = field row2 k)
  /\ (forall key, key ∈ keys (mergeRows row1 row2 table1Name table2Name)
        <-> (exists k, k ∈ keys row1 /\ key = table1Name ++ "." ++ k)
            \/ (exists k, k ∈ keys row2 /\ key = table2Name ++ "." ++ k)).
Proof.
  intros H1 H2 Hne. split; [|split; [|apply mergeRows_keys]].
  - intros k. unfold mergeRows.
    rewrite (fold_set_field_other (fun k => table2Name ++ "." ++ k) (field row2)).
    2: { intros k' _ Heq. apply qualified_inj in Heq as [Heq _]; auto. }
    destruct (decide (k ∈ keys row1)) as [Hin | Hni].
    + apply (fold_set_field (fun k => table1Name ++ "." ++ k) (field row1)); [|exact Hin].
      intros k' _ Heq. apply qualified_inj in Heq as [_ Heq]; auto.
    + rewrite (fold_set_field_other (fun k => table1Name ++ "." ++ k) (field row1)).
      * unfold field at 2. apply get_none_keys in Hni. rewrite Hni. reflexivity.
      * intros k' Hk' Heq. apply qualified_inj in Heq as [_ Heq]; auto. congruence.
  - intros k. unfold mergeRows.
    destruct (decide (k ∈ keys row2)) as [Hin | Hni].
    + apply (fold_set_field (fun k => table2Name ++ "." ++ k) (field row2)); [|exact Hin].
      intros k' _ Heq. apply qualified_inj in Heq as [_ Heq]; auto.
    + rewrite (fold_set_field_other (fun k => table2Name ++ "." ++ k) (field row2)).
      * rewrite (fold_set_field_other (fun k => table1Name ++ "." ++ k) (field row1)).
        -- unfold field at 2. apply get_none_keys in Hni. rewrite Hni. reflexivity.
        -- intros k' _ Heq. apply qualified_inj in Heq as [Heq _]; auto.
      * intros k' Hk' Heq. apply qualified_inj in Heq as [_ Heq]; auto. congruence.
Qed.

Lemma mergeRows_qualifies_fields_witness :
  field (mergeRows [("id", VNum 1); ("name", VStr "John")]
                   [("id", VNum 7); ("user_id", VNum 1)] "users" "orders")
        ("users" ++ "." ++ "id")
  = field [("id", VNum 1); ("name", VStr "John")] "id"
  /\ field (mergeRows [("id", VNum 1); ("name", VStr "John")]
                      [("id", VNum 7); ("user_id", VNum 1)] "users" "orders")
           ("orders" ++ "." ++ "id")
     = field [("id", VNum 7); ("user_id", VNum 1)] "id".
Proof.
  destruct (mergeRows_qualifies_fields [("id", VNum 1); ("name", VStr "John")]
              [("id", VNum 7); ("user_id", VNum 1)] "users" "orders")
    as (H1 & H2 & _).
  - vm_compute; reflexivity.
  - vm_compute; reflexivity.
  - discriminate.
  - split; [exact (H1 "id") | exact (H2 "id")].
Defined.

Lemma performJoin_rows_are_merged (data1 data2 : list row)
    (table1Name table2Name : string) (onClause : option string) (joinType : string)
    (result : list row) :
  performJoin data1 data2 table1Name table2Name onClause joinType = Return result ->
  Forall (fun r => exists row1 row2 table1 table2,
                     r = mergeRows row1 row2 table1 table2) result.
Proof.
  unfold performJoin.
  assert (forall key1 key2 table1 table2 row1 (right : list row),
            Forall (fun r => exists row1 row2 table1 table2,
                               r = mergeRows row1 row2 table1 table2)
                   (omap (join_pair key1 key2 table1 table2 row1) right)) as Hinner.
  { intros. apply Forall_forall. intros r Hr.
    apply list_elem_of_omap in Hr as (row2 & _ & Hr). unfold join_pair in Hr.
    destruct (loose_eq _ _); [|discriminate]. injection Hr as <-. eauto. }
  assert (forall key1 key2 table1 table2 row2 (left : list row),
            Forall (fun r => exists row1 row2 table1 table2,
                               r = mergeRows row1 row2 table1 table2)
                   (omap (fun row1 => join_pair key1 key2 table1 table2 row1 row2)
                         left)) as Houter.
  { intros. apply Forall_forall. intros r Hr.
    apply list_elem_of_omap in Hr as (row1 & _ & Hr). unfold join_pair in Hr.
    destruct (loose_eq _ _); [|discriminate]. injection Hr as <-. eauto. }
  destruct (String.eqb joinType "CROSS JOIN").
  { intros H. injection H as <-. apply Forall_forall. intros r Hr.
    apply list_elem_of_In, in_flat_map in Hr as (row1 & _ & Hr).
    apply in_map_iff in Hr as (row2 & <- & _). eauto. }
  destruct onClause as [onClause|]; [|discriminate].
  destruct (RegExp.match_groups Re.on onClause) as [onMatch|]; [|discriminate].
  cbv zeta.
  destruct (String.eqb joinType "INNER JOIN" || String.eqb joinType "JOIN").
  { intros H. injection H as <-. apply Forall_forall. intros r Hr.
    apply list_elem_of_In, in_flat_map in Hr as (row1 & _ & Hr).
    apply list_elem_of_In in Hr. revert r Hr. apply Forall_forall, Hinner. }
  destruct (String.eqb joinType "LEFT JOIN").
  { intros H. injection H as <-. apply Forall_forall. intros r Hr.
    apply list_elem_of_In, in_flat_map in Hr as (row1 & _ & Hr).
    unfold left_rows in Hr.
    match type of Hr with
    | In _ (match ?l with _ => _ end) =>
        pose proof (Hinner _ _ _ _ _ _ : Forall _ l) as Hl; destruct l
    end.
    - destruct Hr as [<- | []]. eauto.
    - apply list_elem_of_In in Hr. revert r Hr. apply Forall_forall, Hl. }
  destruct (String.eqb joinType "RIGHT JOIN").
  { intros H. injection H as <-. apply Forall_forall. intros r Hr.
    apply list_elem_of_In, in_flat_map in Hr as (row2 & _ & Hr).
    unfold right_rows in Hr.
    match type of Hr with
    | In _ (match ?l with _ => _ end) =>
        pose proof (Houter _ _ _ _ _ _ : Forall _ l) as Hl; destruct l
    end.
    - destruct Hr as [<- | []]. eauto.
    - apply list_elem_of_In in Hr. revert r Hr. apply Forall_forall, Hl. }
  intros H. injection H as <-. constructor.
Qed.

Lemma performJoin_keys_qualified (data1 data2 : list row)
    (table1Name table2Name : string) (onClause : option string) (joinType : string)
    (result : list row) :
  performJoin data1 data2 table1Name table2Name onClause joinType = Return result ->
  Forall (fun r => Forall (fun key => JsString.includes key "." = true) (keys r))
         result.
Proof.
  intros H. apply performJoin_rows_are_merged in H.
  eapply Forall_impl; [exact H|]. intros r (row1 & row2 & table1 & table2 & ->).
  apply mergeRows_keys_qualified.
Qed.

Lemma orderBy_unqualified_rows (rows : list row) (orderByClause : string) :
  Forall (fun r => Forall (fun key => JsString.includes key "." = true) (keys r)) rows ->
  orderBy rows orderByClause = rows.
Proof.
  intros Hrows. unfold orderBy. apply sort_ties. intros a b Ha Hb.
  rewrite Forall_forall in Hrows.
  apply compare_rows_unqualified; apply Hrows, list_elem_of_In; assumption.
Qed.

(** X27. [ORDER BY] in a statement with [JOIN] changes nothing.  The rows of
    a join have their fields under [table.column]; [orderBy] reads the part
    of each sort key after the dot, a field no joined row has, so that every
    comparison is a tie.  Whatever the clause, the joined rows (or those
    [WHERE] kept of them) stay in the order of the join. *)
Theorem order_by_leaves_joined_rows (data1 data2 : list row)
    (table1Name table2Name : string) (onClause : option string) (joinType : string)
    (result kept : list row) (orderByClause : string) :
  performJoin data1 data2 table1Name table2Name onClause joinType = Return result ->
  sublist kept result ->
  orderBy kept orderByClause = kept.
Proof.
  intros Hjoin Hkept. apply performJoin_keys_qualified in Hjoin.
  apply orderBy_unqualified_rows. rewrite Forall_forall in Hjoin.
  apply Forall_forall. intros r Hr. apply Hjoin, (sublist_subseteq _ _ Hkept), Hr.
Qed.

Lemma order_by_leaves_joined_rows_witness :
  orderBy
    [[("users.id", VNum 1); ("users.name", VStr "John"); ("users.age", VNum 30);
      ("orders.id", VNum 1); ("orders.user_id", VNum 1); ("orders.amount", VNum 100)];
     [("users.id", VNum 2); ("users.name", VStr "Jane"); ("users.age", VNum 28);
      ("orders.id", VNum 2); ("orders.user_id", VNum 1); ("orders.amount", VNum 200)]]
    "orders.amount DESC"
  = [[("users.id", VNum 1); ("users.name", VStr "John"); ("users.age", VNum 30);
      ("orders.id", VNum 1); ("orders.user_id", VNum 1); ("orders.amount", VNum 100)];
     [("users.id", VNum 2); ("users.name", VStr "Jane"); ("users.age", VNum 28);
      ("orders.id", VNum 2); ("orders.user_id", VNum 1); ("orders.amount", VNum 200)]].
Proof.
  apply (order_by_leaves_joined_rows users orders "users" "orders"
           (Some "users.id = orders.user_id") "INNER JOIN"
           [[("users.id", VNum 1); ("users.name", VStr "John"); ("users.age", VNum 30);
      ("orders.id", VNum 1); ("orders.user_id", VNum 1); ("orders.amount", VNum 100)];
     [("users.id", VNum 2); ("users.name", VStr "Jane"); ("users.age", VNum 28);
      ("orders.id", VNum 2); ("orders.user_id", VNum 1); ("orders.amount", VNum 200)]]).
  - vm_compute; reflexivity.
  - reflexivity.
Defined.

(** X28. A comparison in the [WHERE] of a statement with [JOIN] reads no
    field of the joined row: the column it reads is the part after the dot,
    which no joined row has, and the comparison is evaluated as on a row
    without fields. *)
Theorem comparison_reads_nothing_of_joined_row (this : engine)
    (data1 data2 : list row) (table1Name table2Name : string)
    (onClause : option string) (joinType : string) (result : list row)
    (r : row) (condition : string) :
  performJoin data1 data2 table1Name table2Name onClause joinType = Return result ->
  In r result ->
  evaluateComparison this r condition = evaluateComparison this [] condition.
Proof.
  intros Hjoin Hr. apply performJoin_keys_qualified in Hjoin.
  rewrite Forall_forall in Hjoin. apply list_elem_of_In in Hr.
  specialize (Hjoin r Hr). unfold evaluateComparison.
  destruct (find _ operators) as [op|]; [|reflexivity].
  cbv zeta. rewrite (field_unqualified r) by (assumption || apply column_name_no_dot).
  reflexivity.
Qed.

Lemma comparison_reads_nothing_of_joined_row_witness :
  evaluateComparison (methods 0)
    [("users.id", VNum 1); ("users.name", VStr "John"); ("users.age", VNum 30);
     ("orders.id", VNum 1); ("orders.user_id", VNum 1); ("orders.amount", VNum 100)]
    "users.age > 20"
  = evaluateComparison (methods 0) [] "users.age > 20".
Proof.
  apply (comparison_reads_nothing_of_joined_row (methods 0) (firstn 1 users)
           (firstn 1 orders) "users" "orders" (Some "users.id = orders.user_id")
           "INNER JOIN"
           [[("users.id", VNum 1); ("users.name", VStr "John"); ("users.age", VNum 30);
             ("orders.id", VNum 1); ("orders.user_id", VNum 1);
             ("orders.amount", VNum 100)]]).
  - vm_compute; reflexivity.
  - left. reflexivity.
Defined.

Lemma selectWithJoin_plain (this : engine) (query : string)
    (m selectMatch : list (option string)) (d : db) (data1 data2 joined : list row)
    (p : row -> bool) :
  RegExp.match_groups Re.fromJoin query = Some m ->
  RegExp.match_groups Re.selectFrom query = Some selectMatch ->
  negb (is_set (group m 4))
  && negb (JsString.includes (toUpperCase (group_text m 2)) "CROSS") = false ->
  has (tables d) (group_text m 1) = true ->
  has (tables d) (group_text m 3) = true ->
  stored d (group_text m 1) = Some (Rows data1) ->
  stored d (group_text m 3) = Some (Rows data2) ->
  performJoin data1 data2 (group_text m 1) (group_text m 3) (group m 4)
    (toUpperCase (group_text m 2)) = Return joined ->
  (is_set (group m 5) = true ->
   forall r, In r joined -> forall s,
     evaluateWhere this r (default EmptyString (group m 5)) None s = (Return (p r), s)) ->
  (is_set (group m 5) = false -> forall r, In r joined -> p r = true) ->
  selectWithJoin this query d
  = (Return
       (let joinedData := List.filter p joined in
        let joinedData :=
          if is_set (group m 7)
          then applyLimit joinedData (default EmptyString (group m 7))
          else joinedData in
        if negb (String.eqb (trim (group_text selectMatch 1)) "*")
        then map (project_fields
                    (map trim (JsString.split "," (trim (group_text selectMatch 1)))))
                 joinedData
        else joinedData),
     Db (dbName d) (tables d) (localStorage d)
        (GetItem (dbName d ++ "_" ++ group_text m 3)
         :: GetItem (dbName d ++ "_" ++ group_text m 1) :: journal d)).
Proof.
  intros Hm Hselect Hon Hhas1 Hhas2 Hstored1 Hstored2 Hjoin Hwhere Hall.
  unfold selectWithJoin. rewrite Hm. cbv zeta. rewrite Hon, Hselect.
  unfold bind at 1. unfold this_tables. rewrite Hhas1, Hhas2. cbn [negb].
  unfold bind at 1. unfold getTableData, getTableKey, getItem.
  unfold bind at 1. unfold bind at 1. cbn [localStorage dbName tables journal].
  unfold stored in Hstored1, Hstored2. rewrite Hstored1. unfold ret at 1.
  unfold bind at 1. unfold bind at 1. unfold bind at 1.
  cbn [localStorage dbName tables journal]. rewrite Hstored2. unfold ret at 1.
  unfold bind at 1. rewrite Hjoin. unfold lift at 1.
  unfold bind at 1.
  assert (forall s,
            (if is_set (group m 5)
             then filterM (fun r => evaluateWhere this r (default EmptyString (group m 5))
                                      None)
                          joined
             else ret joined) s
            = (Return (List.filter p joined), s)) as ->.
  { intros s. destruct (is_set (group m 5)) eqn:E.
    - apply filterM_pure. auto.
    - unfold ret. f_equal. f_equal. symmetry. apply filter_all. auto. }
  unfold ret. do 2 f_equal.
  assert ((if is_set (group m 6)
           then orderBy (List.filter p joined) (default EmptyString (group m 6))
           else List.filter p joined) = List.filter p joined) as ->; [|reflexivity].
  destruct (is_set (group m 6)); [|reflexivity].
  apply orderBy_unqualified_rows.
  apply performJoin_keys_qualified in Hjoin. rewrite Forall_forall in Hjoin.
  apply Forall_forall. intros r Hr. apply Hjoin.
  apply list_elem_of_In, filter_In in Hr as [Hr _]. apply list_elem_of_In, Hr.
Qed.

(** X29. [SELECT] with [JOIN], on two tables that exist, the join itself
    returning and [WHERE] evaluating row by row to what [p] says without
    effect of its own (or with no [WHERE]): the result is made from the
    joined rows by keeping the rows where [p] holds, then cutting them by
    [LIMIT], then copying the listed fields of each row; the [ORDER BY]
    clause, whatever it is, changes nothing.  The store and the schema are
    left as they were. *)
Theorem join_select_filters_cuts_and_copies (this : engine) (query : string)
    (m selectMatch : list (option string)) (d : db) (data1 data2 joined : list row)
    (p : row -> bool) :
  RegExp.match_groups Re.fromJoin query = Some m ->
  RegExp.match_groups Re.selectFrom query = Some selectMatch ->
  negb (is_set (group m 4))
  && negb (JsString.includes (toUpperCase (group_text m 2)) "CROSS") = false ->
  has (tables d) (group_text m 1) = true ->
  has (tables d) (group_text m 3) = true ->
  stored d (group_text m 1) = Some (Rows data1) ->
  stored d (group_text m 3) = Some (Rows data2) ->
  performJoin data1 data2 (group_text m 1) (group_text m 3) (group m 4)
    (toUpperCase (group_text m 2)) = Return joined ->
  (is_set (group m 5) = true ->
   forall r, In r joined -> forall s,
     evaluateWhere this r (default EmptyString (group m 5)) None s = (Return (p r), s)) ->
  (is_set (group m 5) = false -> forall r, In r joined -> p r = true) ->
  fst (selectWithJoin this query d)
  = Return
      (let kept := List.filter p joined in
       let cut :=
         if is_set (group m 7)
         then applyLimit kept (default EmptyString (group m 7)) else kept in
       if negb (String.eqb (trim (group_text selectMatch 1)) "*")
       then map (project_fields
                   (map trim (JsString.split "," (trim (group_text selectMatch 1)))))
                cut
       else cut)
  /\ localStorage (snd (selectWithJoin this query d)) = localStorage d
  /\ tables (snd (selectWithJoin this query d)) = tables d.
Proof.
  intros Hm Hselect Hon Hhas1 Hhas2 Hstored1 Hstored2 Hjoin Hwhere Hall.
  rewrite (selectWithJoin_plain this query m selectMatch d data1 data2 joined p
             Hm Hselect Hon Hhas1 Hhas2 Hstored1 Hstored2 Hjoin Hwhere Hall).
  cbn [fst snd localStorage tables]. auto.
Qed.

Lemma join_select_filters_cuts_and_copies_witness :
  fst (selectWithJoin (methods 0)
         "SELECT users.name, orders.amount FROM users JOIN orders ON users.id = orders.user_id ORDER BY orders.amount DESC LIMIT 5"
         shop)
  = Return [[("users.name", VStr "John"); ("orders.amount", VNum 100)];
            [("users.name", VStr "Jane"); ("orders.amount", VNum 200)]]
  /\ localStorage
       (snd (selectWithJoin (methods 0)
               "SELECT users.name, orders.amount FROM users JOIN orders ON users.id = orders.user_id ORDER BY orders.amount DESC LIMIT 5"
               shop))
     = localStorage shop.
Proof.
  destruct (join_select_filters_cuts_and_copies (methods 0)
              "SELECT users.name, orders.amount FROM users JOIN orders ON users.id = orders.user_id ORDER BY orders.amount DESC LIMIT 5"
              [Some "FROM users JOIN orders ON users.id = orders.user_id ORDER BY orders.amount DESC LIMIT 5";
               Some "users"; Some "JOIN"; Some "orders";
               Some "users.id = orders.user_id"; None; Some "orders.amount DESC";
               Some "5"]
              [Some "SELECT users.name, orders.amount FROM"; Some "users.name, orders.amount"]
              shop users orders
              [[("users.id", VNum 1); ("users.name", VStr "John"); ("users.age", VNum 30);
                ("orders.id", VNum 1); ("orders.user_id", VNum 1);
                ("orders.amount", VNum 100)];
               [("users.id", VNum 2); ("users.name", VStr "Jane"); ("users.age", VNum 28);
                ("orders.id", VNum 2); ("orders.user_id", VNum 1);
                ("orders.amount", VNum 200)]]
              (fun _ => true))
    as (Hrows & Hstore & _).
  - vm_compute; reflexivity.
  - vm_compute; reflexivity.
  - vm_compute; reflexivity.
  - vm_compute; reflexivity.
  - vm_compute; reflexivity.
  - vm_compute; reflexivity.
  - vm_compute; reflexivity.
  - vm_compute; reflexivity.
  - intros H. vm_compute in H. discriminate H.
  - intros _ r _. reflexivity.
  - split; [exact Hrows | exact Hstore].
Defined.

(** ** Derived tables that return *)

Lemma selectDerived_removes_on_return (this : engine) (query : string)
    (derivedTableMatch : list (option string)) (d d1 d' : db)
    (subqueryResult result : list row) :
  this_select this (group_text derivedTableMatch 1) d = (Return subqueryResult, d1) ->
  has (tables d1) (group_text derivedTableMatch 2) = false ->
  selectDerived this query derivedTableMatch d = (Return result, d') ->
  stored d' (group_text derivedTableMatch 2) = None
  /\ get (tables d') (group_text derivedTableMatch 2) = None.
Proof.
  intros Hsub Hhas. unfold selectDerived, try_catch.
  unfold bind at 1. rewrite Hsub.
  unfold bind at 1. unfold getTableData, getTableKey, getItem.
  unfold bind at 1. unfold bind at 1. cbn [localStorage dbName tables journal].
  destruct (localStorage d1 !! _) as [[original | tabs]|];
    [| unfold beyond; discriminate |];
    (unfold ret at 1;
     unfold bind at 1; unfold saveTableData, getTableKey, setItem;
     unfold bind at 1; cbn [localStorage dbName tables journal];
     unfold bind at 1; unfold this_tables; cbn [localStorage dbName tables journal];
     rewrite Hhas; cbn [negb]; unfold bind at 1; unfold set_tables at 1;
     cbn [localStorage dbName tables journal];
     unfold bind at 1;
     match goal with
     | |- context [this_select this ?q ?s] =>
         destruct (this_select this q s) as [[outer | e |] d2]
     end; try discriminate;
     unfold bind, getTableKey, removeItem, this_tables, set_tables, setItem, ret;
     cbn [localStorage dbName tables journal];
     assert (get (tables d1) (group_text derivedTableMatch 2) = None) as ->
       by (unfold has in Hhas; destruct (get _ _); [discriminate | reflexivity]);
     intros H; injection H as <- <-; unfold stored;
     cbn [localStorage dbName tables];
     split; [apply lookup_delete_eq | apply get_remove_eq]).
Qed.

(** X30. A statement over a derived table that returns leaves nothing of
    the derived table behind.  When the alias names no table, the rows
    registered under it are removed from the store and the alias from the
    schema, whatever the outer statement did; when the alias names a table,
    the rows and the schema entry of that table are put back. *)
Theorem derived_table_is_undone_on_return (this : engine) (query : string)
    (derivedTableMatch : list (option string)) (d d1 d' : db)
    (subqueryResult result : list row) :
  this_select this (group_text derivedTableMatch 1) d = (Return subqueryResult, d1) ->
  selectDerived this query derivedTableMatch d = (Return result, d') ->
  (has (tables d1) (group_text derivedTableMatch 2) = false ->
   stored d' (group_text derivedTableMatch 2) = None
   /\ get (tables d') (group_text derivedTableMatch 2) = None)
  /\ (forall original,
        has (tables d1) (group_text derivedTableMatch 2) = true ->
        stored d1 (group_text derivedTableMatch 2) = Some (Rows original) ->
        stored d' (group_text derivedTableMatch 2) = Some (Rows (json_rows original))
        /\ get (tables d') (group_text derivedTableMatch 2)
           = get (tables d1) (group_text derivedTableMatch 2)).
Proof.
  intros Hsub Hreturn. split.
  - intros Hhas.
    apply (selectDerived_removes_on_return this query derivedTableMatch d d1 d'
             subqueryResult result Hsub Hhas Hreturn).
  - intros original Hhas Hstored.
    apply (selectDerived_restores_on_return this query derivedTableMatch d d1 d'
             subqueryResult result original Hsub Hstored Hhas Hreturn).
Qed.

Lemma derived_table_is_undone_on_return_witness :
  stored (snd (selectDerived (methods 1)
                 "SELECT * FROM (SELECT id FROM u) AS fresh WHERE id = 7"
                 [Some "FROM (SELECT id FROM u) AS fresh"; Some "SELECT id FROM u";
                  Some "fresh"]
                 lab))
         "fresh" = None
  /\ get (tables (snd (selectDerived (methods 1)
                         "SELECT * FROM (SELECT id FROM u) AS fresh WHERE id = 7"
                         [Some "FROM (SELECT id FROM u) AS fresh";
                          Some "SELECT id FROM u"; Some "fresh"]
                         lab)))
         "fresh" = None.
Proof.
  destruct (derived_table_is_undone_on_return (methods 1)
              "SELECT * FROM (SELECT id FROM u) AS fresh WHERE id = 7"
              [Some "FROM (SELECT id FROM u) AS fresh"; Some "SELECT id FROM u";
               Some "fresh"]
              lab
              (snd (this_select (methods 1) "SELECT id FROM u" lab))
              (snd (selectDerived (methods 1)
                      "SELECT * FROM (SELECT id FROM u) AS fresh WHERE id = 7"
                      [Some "FROM (SELECT id FROM u) AS fresh";
                       Some "SELECT id FROM u"; Some "fresh"]
                      lab))
              [[("id", VNum 7)]] [[("id", VNum 7)]]) as [H _].
  - vm_compute; reflexivity.
  - vm_compute; reflexivity.
  - apply H. vm_compute; reflexivity.
Defined.
